(** * OS process scheduling simulation: a shallow embedding

    The development follows the Python sources:
    - [models/process.py]    -> module [Process]
    - [models/scheduler.py]  -> records [Scheduler], functions [reset],
                                [iteration], [run_loop], [run]
    - [algorithms/*.py]      -> modules [FCFSScheduler], [SJFScheduler],
                                [SRTFScheduler], [PriorityScheduler],
                                [RoundRobinScheduler],
                                [MultilevelQueueScheduler]
    - [utils/metrics.py]     -> module [PerformanceMetrics]

    Python integers are [Z].  Python objects of class [Process] live in the
    list [processes] of the scheduler, each object listed once; a reference
    to such an object is its position in that list, so that two references
    are the same object exactly when they are the same position.  Queues of
    the policies hold references, never copies.  A call that can raise
    returns an option, [None] standing for the exception; the loop of [run]
    takes fuel, and [run_returns] shows how much is enough.  The display
    names of schedulers and tiers play no part in scheduling and are left
    out. *)

From stdpp Require Import base numbers list option strings gmap.
From Stdlib Require Import ZArith Lia QArith.

Local Open Scope Z_scope.

(** ** Python helpers *)

(** Comparison of two tuples of integers, as Python compares tuples:
    the first position where they differ decides. *)
Fixpoint tuple_ltb (a b : list Z) : bool :=
  match a, b with
  | [], [] => false
  | [], _ :: _ => true
  | _ :: _, [] => false
  | x :: a', y :: b' =>
      if x <? y then true else if y <? x then false else tuple_ltb a' b'
  end.

(** [min(l, key=...)]: the first element whose key is minimal; [None] stands
    for the [ValueError] raised on an empty sequence. *)
Definition py_min {A} (key : A → list Z) (l : list A) : option A :=
  match l with
  | [] => None
  | x :: l' =>
      Some (foldl (λ best y, if tuple_ltb (key y) (key best) then y else best) x l')
  end.

(** [max(l, key=...)]: the first element whose key is maximal. *)
Definition py_max {A} (key : A → list Z) (l : list A) : option A :=
  match l with
  | [] => None
  | x :: l' =>
      Some (foldl (λ best y, if tuple_ltb (key best) (key y) then y else best) x l')
  end.

(** [sorted(l, key=...)]: a stable sort. *)
Fixpoint py_insert {A} (key : A → list Z) (x : A) (l : list A) : list A :=
  match l with
  | [] => [x]
  | y :: l' => if tuple_ltb (key y) (key x) then y :: py_insert key x l' else x :: l
  end.

Definition py_sorted {A} (key : A → list Z) (l : list A) : list A :=
  foldr (py_insert key) [] l.

(** [deque.remove(x)]: drops the first occurrence; the [ValueError] raised
    when there is none is caught at both call sites, so the queue is then
    left as it is. *)
Fixpoint deque_remove (x : nat) (q : list nat) : list nat :=
  match q with
  | [] => []
  | y :: q' => if decide (y = x) then q' else y :: deque_remove x q'
  end.

(** [l[i]] for a Python list of length [len]: negative indices count from the
    end; [None] stands for [IndexError]. *)
Definition py_index (len : nat) (i : Z) : option nat :=
  if (0 <=? i) && (i <? Z.of_nat len) then Some (Z.to_nat i)
  else if (- Z.of_nat len <=? i) && (i <? 0) then Some (Z.to_nat (Z.of_nat len + i))
  else None.

(** ** models/process.py *)

Module Process.

Inductive state_t := NEW | READY | RUNNING | WAITING | TERMINATED.

#[global] Instance state_eq_dec : EqDecision state_t.
Proof. solve_decision. Defined.

Record t := mk {
  pid : Z;
  name : string;
  arrival_time : Z;
  burst_time : Z;
  priority : Z;
  remaining_time : Z;
  start_time : option Z;
  finish_time : option Z;
  waiting_time : Z;
  response_time : option Z;
  state : state_t;
  execution_history : list (Z * Z)
}.

(** [__init__] *)
Definition init (pid : Z) (name : string) (arrival_time burst_time priority : Z) : t :=
  {| pid := pid; name := name; arrival_time := arrival_time;
     burst_time := burst_time; priority := priority;
     remaining_time := burst_time;
     start_time := None; finish_time := None;
     waiting_time := 0; response_time := None;
     state := NEW; execution_history := [] |}.

(** [execute(current_time, time_quantum)]: the updated process and the
    time actually executed. *)
Definition execute (p : t) (current_time time_quantum : Z) : t * Z :=
  (* the two state tests at the top always end in RUNNING *)
  let st1 := if decide (state p = NEW) then READY else state p in
  let st2 := if decide (st1 ≠ RUNNING) then RUNNING else st1 in
  let '(start', response') :=
    match start_time p with
    | None => (Some current_time, Some (current_time - arrival_time p))
    | Some _ => (start_time p, response_time p)
    end in
  let actual_execution := Z.min time_quantum (remaining_time p) in
  let remaining' := remaining_time p - actual_execution in
  let history' := execution_history p ++ [(current_time, current_time + actual_execution)] in
  let '(st3, finish') :=
    if remaining' <=? 0
    then (TERMINATED, Some (current_time + actual_execution))
    else (st2, finish_time p) in
  ({| pid := pid p; name := name p; arrival_time := arrival_time p;
      burst_time := burst_time p; priority := priority p;
      remaining_time := remaining';
      start_time := start'; finish_time := finish';
      waiting_time := waiting_time p; response_time := response';
      state := st3; execution_history := history' |},
   actual_execution).

(** [wait(time)] *)
Definition wait (p : t) (time : Z) : t :=
  if bool_decide (state p = READY ∨ state p = WAITING)
  then {| pid := pid p; name := name p; arrival_time := arrival_time p;
          burst_time := burst_time p; priority := priority p;
          remaining_time := remaining_time p;
          start_time := start_time p; finish_time := finish_time p;
          waiting_time := waiting_time p + time;
          response_time := response_time p;
          state := state p; execution_history := execution_history p |}
  else p.

Definition get_turnaround_time (p : t) : option Z :=
  match finish_time p with
  | Some f => Some (f - arrival_time p)
  | None => None
  end.

Definition get_waiting_time (p : t) : Z := waiting_time p.

Definition get_response_time (p : t) : option Z := response_time p.

Definition is_arrived (p : t) (current_time : Z) : bool :=
  arrival_time p <=? current_time.

Definition is_terminated (p : t) : bool :=
  bool_decide (state p = TERMINATED).

Definition reset (p : t) : t :=
  {| pid := pid p; name := name p; arrival_time := arrival_time p;
     burst_time := burst_time p; priority := priority p;
     remaining_time := burst_time p;
     start_time := None; finish_time := None;
     waiting_time := 0; response_time := None;
     state := NEW; execution_history := [] |}.

(** Sum of the durations of the intervals of the execution history. *)
Definition executed_time (p : t) : Z :=
  foldr (λ iv acc, (iv.2 - iv.1) + acc) 0 (execution_history p).

End Process.

#[global] Instance process_inhabited : Inhabited Process.t :=
  populate (Process.init 0 EmptyString 0 0 0).

(** ** models/scheduler.py: the scheduler object *)

(** A reference to a process object: its position in [processes]. *)
Abbreviation ref := nat (only parsing).

(** First component of an entry of the execution log: a pid, or one of the
    two strings ["IDLE"] and ["CS"]. *)
Inductive subject := Pid (pid : Z) | IDLE | CS.

Definition log_entry : Type := subject * Z * Z.

#[global] Instance subject_eq_dec : EqDecision subject.
Proof. solve_decision. Defined.

(** A tier of the multilevel queue: the dictionary with keys ["algorithm"],
    ["time_quantum"] (Round Robin tiers only) and ["queue"].  The display
    label under ["name"] is not modelled. *)
Inductive algorithm := RR (time_quantum : Z) | FCFS.

Record tier := mk_tier { tier_algorithm : algorithm; tier_queue : list ref }.

(** The subclass of the scheduler object, with the fields the subclass adds. *)
Inductive variant_t :=
| VFCFS
| VSJF
| VSRTF
| VPriority (preemptive : bool)
| VRoundRobin (time_quantum : Z) (ready_queue : list ref)
| VMultilevel (queue_count : Z) (queues : list tier).

Record Scheduler := mk_scheduler {
  processes : list Process.t;
  current_time : Z;
  time_slice : Z;
  context_switch_overhead : Z;
  current_process : option ref;
  completed_processes : list ref;
  execution_log : list log_entry;
  variant : variant_t
}.

Definition set_processes (ps : list Process.t) (s : Scheduler) : Scheduler :=
  mk_scheduler ps (current_time s) (time_slice s) (context_switch_overhead s)
    (current_process s) (completed_processes s) (execution_log s) (variant s).

Definition set_current_time (t : Z) (s : Scheduler) : Scheduler :=
  mk_scheduler (processes s) t (time_slice s) (context_switch_overhead s)
    (current_process s) (completed_processes s) (execution_log s) (variant s).

Definition set_time_slice (q : Z) (s : Scheduler) : Scheduler :=
  mk_scheduler (processes s) (current_time s) q (context_switch_overhead s)
    (current_process s) (completed_processes s) (execution_log s) (variant s).

Definition set_current_process (c : option ref) (s : Scheduler) : Scheduler :=
  mk_scheduler (processes s) (current_time s) (time_slice s) (context_switch_overhead s)
    c (completed_processes s) (execution_log s) (variant s).

Definition set_completed_processes (l : list ref) (s : Scheduler) : Scheduler :=
  mk_scheduler (processes s) (current_time s) (time_slice s) (context_switch_overhead s)
    (current_process s) l (execution_log s) (variant s).

Definition log_append (e : log_entry) (s : Scheduler) : Scheduler :=
  mk_scheduler (processes s) (current_time s) (time_slice s) (context_switch_overhead s)
    (current_process s) (completed_processes s) (execution_log s ++ [e]) (variant s).

Definition set_variant (v : variant_t) (s : Scheduler) : Scheduler :=
  mk_scheduler (processes s) (current_time s) (time_slice s) (context_switch_overhead s)
    (current_process s) (completed_processes s) (execution_log s) v.

(** [Scheduler.__init__], and what each subclass constructor adds. *)
Definition new_scheduler (time_slice : Z) (v : variant_t) : Scheduler :=
  {| processes := []; current_time := 0; time_slice := time_slice;
     context_switch_overhead := 0; current_process := None;
     completed_processes := []; execution_log := []; variant := v |}.

Definition add_process (p : Process.t) (s : Scheduler) : Scheduler :=
  set_processes (processes s ++ [p]) s.

Definition add_processes (ps : list Process.t) (s : Scheduler) : Scheduler :=
  set_processes (processes s ++ ps) s.

Definition set_context_switch_overhead (overhead : Z) (s : Scheduler) : Scheduler :=
  mk_scheduler (processes s) (current_time s) (time_slice s) overhead
    (current_process s) (completed_processes s) (execution_log s) (variant s).

(** The process object behind a reference. *)
Definition deref (s : Scheduler) (r : ref) : Process.t := processes s !!! r.

(** [self.current_process in ready_processes and
     not self.current_process.is_terminated()] *)
Definition current_still_ready (s : Scheduler) (ready : list ref) : bool :=
  match current_process s with
  | Some c => bool_decide (c ∈ ready) && negb (Process.is_terminated (deref s c))
  | None => false
  end.

(** The result of [get_next_process]: the returned reference ([None] is
    Python's [None]) and the scheduler object after the call; the outer
    option is [None] when the call raises. *)
Definition selection : Type := option (option ref * Scheduler).

(** ** algorithms/fcfs.py *)

Module FCFSScheduler.

Definition init : Scheduler := new_scheduler 1 VFCFS.

Definition key (s : Scheduler) (r : ref) : list Z :=
  [Process.arrival_time (deref s r); Process.pid (deref s r)].

Definition get_next_process (s : Scheduler) (ready_processes : list ref) : selection :=
  r ← py_min (key s) ready_processes; Some (Some r, s).

End FCFSScheduler.

(** ** algorithms/sjf.py *)

Module SJFScheduler.

Definition init : Scheduler := new_scheduler 1 VSJF.

Definition key (s : Scheduler) (r : ref) : list Z :=
  [Process.remaining_time (deref s r); Process.arrival_time (deref s r);
   Process.pid (deref s r)].

Definition get_next_process (s : Scheduler) (ready_processes : list ref) : selection :=
  if current_still_ready s ready_processes
  then Some (current_process s, s)
  else r ← py_min (key s) ready_processes; Some (Some r, s).

End SJFScheduler.

Module SRTFScheduler.

Definition init : Scheduler := new_scheduler 1 VSRTF.

Definition get_next_process (s : Scheduler) (ready_processes : list ref) : selection :=
  r ← py_min (SJFScheduler.key s) ready_processes; Some (Some r, s).

End SRTFScheduler.

(** ** algorithms/priority.py *)

Module PriorityScheduler.

Definition init (preemptive : bool) : Scheduler :=
  new_scheduler 1 (VPriority preemptive).

Definition key (s : Scheduler) (r : ref) : list Z :=
  [Process.priority (deref s r); - Process.arrival_time (deref s r);
   Process.pid (deref s r)].

Definition get_next_process (preemptive : bool) (s : Scheduler)
    (ready_processes : list ref) : selection :=
  if negb preemptive && current_still_ready s ready_processes
  then Some (current_process s, s)
  else r ← py_max (key s) ready_processes; Some (Some r, s).

End PriorityScheduler.

(** ** algorithms/round_robin.py *)

Module RoundRobinScheduler.

Definition init (time_quantum : Z) : Scheduler :=
  new_scheduler time_quantum (VRoundRobin time_quantum []).

(** The loop over [ready_processes] that appends what is not yet queued.
    [current_pids] is computed once, before the loop; the test
    [process not in self.ready_queue] looks at the queue as it grows. *)
Definition enqueue_new (s : Scheduler) (current_pids : gset Z)
    (ready_queue ready_processes : list ref) : list ref :=
  foldl (λ q r,
           if bool_decide (Process.pid (deref s r) ∉ current_pids)
              && bool_decide (r ∉ q)
           then q ++ [r] else q)
        ready_queue ready_processes.

(** The queue as it stands just before [popleft]. *)
Definition updated_queue (s : Scheduler) (ready_queue ready_processes : list ref)
    : list ref :=
  let current_pids : gset Z :=
    list_to_set ((λ r, Process.pid (deref s r)) <$> ready_queue) in
  let q1 := enqueue_new s current_pids ready_queue ready_processes in
  let q2 :=
    if current_still_ready s ready_processes
    then match current_process s with
         | Some c => deque_remove c q1 ++ [c]
         | None => q1
         end
    else q1 in
  match q2, ready_processes with
  | [], _ :: _ => py_sorted (FCFSScheduler.key s) ready_processes
  | _, _ => q2
  end.

Definition get_next_process (time_quantum : Z) (ready_queue : list ref)
    (s : Scheduler) (ready_processes : list ref) : selection :=
  match updated_queue s ready_queue ready_processes with
  | r :: q' => Some (Some r, set_variant (VRoundRobin time_quantum q') s)
  | [] => Some (None, set_variant (VRoundRobin time_quantum []) s)
  end.

End RoundRobinScheduler.

(** ** algorithms/multilevel.py *)

Module MultilevelQueueScheduler.

(** The tiers built by [__init__]: one Round Robin tier of quantum 2, one
    Round Robin tier of quantum 4 for each [i] in [range(1, queue_count - 1)],
    and the FCFS tier. *)
Definition init_queues (queue_count : Z) : list tier :=
  [mk_tier (RR 2) []]
  ++ replicate (Z.to_nat (queue_count - 2)) (mk_tier (RR 4) [])
  ++ [mk_tier FCFS []].

Definition init (queue_count : Z) : Scheduler :=
  new_scheduler 1 (VMultilevel queue_count (init_queues queue_count)).

Definition get_queue_for_process (queue_count : Z) (p : Process.t) : Z :=
  Z.min (Z.max 0 (queue_count - 1 - Process.priority p)) (queue_count - 1).

Definition tier_append (r : ref) (t : tier) : tier :=
  mk_tier (tier_algorithm t) (tier_queue t ++ [r]).

Definition tier_remove (r : ref) (t : tier) : tier :=
  mk_tier (tier_algorithm t) (deque_remove r (tier_queue t)).

Definition in_queue (r : ref) (queues : list tier) : bool :=
  existsb (λ t, bool_decide (r ∈ tier_queue t)) queues.

(** [self.queues[queue_index]["queue"].append(process)] *)
Definition append_to_tier (queue_count : Z) (s : Scheduler) (r : ref)
    (queues : list tier) : option (list tier) :=
  i ← py_index (length queues) (get_queue_for_process queue_count (deref s r));
  Some (alter (tier_append r) i queues).

(** First loop: queue every ready process that is in no tier and is not
    the current process. *)
Definition enqueue_arrivals (queue_count : Z) (s : Scheduler)
    (queues : list tier) (ready_processes : list ref) : option (list tier) :=
  foldl (λ acc r,
           qs ← acc;
           if negb (in_queue r qs) && bool_decide (current_process s ≠ Some r)
           then append_to_tier queue_count s r qs
           else Some qs)
        (Some queues) ready_processes.

(** Second block: a current process of a Round Robin tier goes to the back
    of its tier; one of the FCFS tier is left where it is. *)
Definition requeue_current (queue_count : Z) (s : Scheduler)
    (queues : list tier) (ready_processes : list ref) : option (list tier) :=
  if current_still_ready s ready_processes
  then match current_process s with
       | Some c =>
           i ← py_index (length queues) (get_queue_for_process queue_count (deref s c));
           t ← queues !! i;
           match tier_algorithm t with
           | RR _ => Some (alter (tier_append c) i (tier_remove c <$> queues))
           | FCFS => Some queues
           end
       | None => Some queues
       end
  else Some queues.

(** Third block: the head of the first tier that is not empty, the tiers
    after [popleft], and the time slice the tier sets, if it sets one. *)
Fixpoint select_from_queues (queues : list tier) : option (ref * list tier * option Z) :=
  match queues with
  | [] => None
  | t :: rest =>
      match tier_queue t with
      | r :: q' =>
          Some (r, mk_tier (tier_algorithm t) q' :: rest,
                match tier_algorithm t with
                | RR time_quantum => Some time_quantum
                | FCFS => None
                end)
      | [] =>
          '(r, rest', slice) ← select_from_queues rest;
          Some (r, t :: rest', slice)
      end
  end.

(** The tiers as they stand just before the selection loop. *)
Definition updated_queues (queue_count : Z) (s : Scheduler)
    (queues : list tier) (ready_processes : list ref) : option (list tier) :=
  qs ← enqueue_arrivals queue_count s queues ready_processes;
  requeue_current queue_count s qs ready_processes.

Definition get_next_process (queue_count : Z) (queues : list tier)
    (s : Scheduler) (ready_processes : list ref) : selection :=
  qs ← updated_queues queue_count s queues ready_processes;
  match select_from_queues qs with
  | Some (r, qs', slice) =>
      let s' := set_variant (VMultilevel queue_count qs') s in
      Some (Some r, match slice with
                    | Some q => set_time_slice q s'
                    | None => s'
                    end)
  | None =>
      let s' := set_variant (VMultilevel queue_count qs) s in
      match ready_processes with
      | [] => Some (None, s')
      | _ :: _ =>
          r ← py_min (FCFSScheduler.key s) ready_processes; Some (Some r, s')
      end
  end.

End MultilevelQueueScheduler.

(** ** models/scheduler.py: the simulation loop *)

(** [reset], with the overriding methods of the Round Robin and Multilevel
    subclasses, which go on to empty their queues. *)
Definition reset_variant (v : variant_t) : variant_t :=
  match v with
  | VRoundRobin time_quantum _ => VRoundRobin time_quantum []
  | VMultilevel queue_count queues =>
      VMultilevel queue_count ((λ t, mk_tier (tier_algorithm t) []) <$> queues)
  | _ => v
  end.

Definition reset (s : Scheduler) : Scheduler :=
  {| processes := Process.reset <$> processes s;
     current_time := 0;
     time_slice := time_slice s;
     context_switch_overhead := context_switch_overhead s;
     current_process := None;
     completed_processes := [];
     execution_log := [];
     variant := reset_variant (variant s) |}.

(** The abstract method, resolved on the subclass. *)
Definition get_next_process (s : Scheduler) (ready_processes : list ref) : selection :=
  match variant s with
  | VFCFS => FCFSScheduler.get_next_process s ready_processes
  | VSJF => SJFScheduler.get_next_process s ready_processes
  | VSRTF => SRTFScheduler.get_next_process s ready_processes
  | VPriority preemptive =>
      PriorityScheduler.get_next_process preemptive s ready_processes
  | VRoundRobin time_quantum ready_queue =>
      RoundRobinScheduler.get_next_process time_quantum ready_queue s ready_processes
  | VMultilevel queue_count queues =>
      MultilevelQueueScheduler.get_next_process queue_count queues s ready_processes
  end.

(** The references of the processes that have arrived and are not terminated,
    in the order of [processes]. *)
Definition ready_refs (s : Scheduler) : list ref :=
  filter (λ r, Process.is_arrived (deref s r) (current_time s) = true
               ∧ Process.is_terminated (deref s r) = false)
         (seq 0 (length (processes s))).

(** [min([p.arrival_time for p in processes if ...], default=None)] *)
Definition next_arrival (s : Scheduler) : option Z :=
  match filter (λ p, Process.is_terminated p = false
                     ∧ current_time s < Process.arrival_time p) (processes s) with
  | [] => None
  | p :: ps => Some (foldl Z.min (Process.arrival_time p) (Process.arrival_time <$> ps))
  end.

(** [for p in ready_processes: if p != next_process: p.wait(time)] *)
Definition wait_others (ready : list ref) (next : ref) (time : Z)
    (ps : list Process.t) : list Process.t :=
  foldl (λ ps r, if decide (r ≠ next)
                 then <[r := Process.wait (ps !!! r) time]> ps else ps)
        ps ready.

(** How one pass through the body of the [while] loop ends. *)
Inductive outcome :=
| Continue (s : Scheduler)   (* the body ran to its end, or to [continue] *)
| Break (s : Scheduler)      (* [break] *)
| Raise.                     (* an exception escaped *)

(** The block that charges a context switch. *)
Definition context_switch (ready : list ref) (next : ref) (s : Scheduler) : Scheduler :=
  if bool_decide (0 < context_switch_overhead s)
     && bool_decide (current_process s ≠ Some next)
     && bool_decide (current_process s ≠ None)
  then
    let cs := context_switch_overhead s in
    let s1 := log_append (CS, current_time s, current_time s + cs) s in
    let s2 := set_processes (wait_others ready next cs (processes s1)) s1 in
    set_current_time (current_time s2 + cs) s2
  else s.

(** From [self.current_process = next_process] to the end of the body. *)
Definition dispatch (ready : list ref) (next : ref) (s : Scheduler) : Scheduler :=
  let s1 := set_current_process (Some next) s in
  let '(p', execution_time) :=
    Process.execute (deref s1 next) (current_time s1) (time_slice s1) in
  let s2 := set_processes (<[next := p']> (processes s1)) s1 in
  let s3 := log_append (Pid (Process.pid p'), current_time s2,
                        current_time s2 + execution_time) s2 in
  let s4 := set_current_time (current_time s3 + execution_time) s3 in
  let s5 := set_processes (wait_others ready next execution_time (processes s4)) s4 in
  if Process.is_terminated (deref s5 next)
  then set_current_process None
         (set_completed_processes (completed_processes s5 ++ [next]) s5)
  else s5.

(** The body of the [while] loop of [run]. *)
Definition iteration (s : Scheduler) : outcome :=
  let ready_processes := ready_refs s in
  match ready_processes with
  | [] =>
      match next_arrival s with
      | None => Break s
      | Some t =>
          let s1 := if bool_decide (current_time s < t)
                    then log_append (IDLE, current_time s, t) s else s in
          Continue (set_current_time t s1)
      end
  | _ :: _ =>
      match get_next_process s ready_processes with
      | None => Raise
      | Some (None, _) => Raise   (* [None.execute]: AttributeError *)
      | Some (Some next, s1) =>
          Continue (dispatch ready_processes next
                      (context_switch ready_processes next s1))
      end
  end.

(** The test of the [while] loop. *)
Definition loop_cond (until_time : option Z) (s : Scheduler) : bool :=
  bool_decide (length (completed_processes s) < length (processes s))%nat
  && match until_time with
     | None => true
     | Some u => bool_decide (current_time s < u)
     end.

(** What a call of [run] comes to. *)
Inductive run_result :=
| Returned (s : Scheduler)   (* [run] returned; [completed_processes s] is its value *)
| Raised                     (* an exception escaped *)
| OutOfFuel.                 (* more passes through the loop than [fuel] *)

Fixpoint run_loop (fuel : nat) (until_time : option Z) (s : Scheduler) : run_result :=
  if loop_cond until_time s then
    match fuel with
    | O => OutOfFuel
    | S fuel' =>
        match iteration s with
        | Continue s' => run_loop fuel' until_time s'
        | Break s' => Returned s'
        | Raise => Raised
        end
    end
  else Returned s.

Definition run (fuel : nat) (until_time : option Z) (s : Scheduler) : run_result :=
  run_loop fuel until_time (reset s).

(** The states a run passes through at the top of the loop. *)
Inductive reaches (until_time : option Z) (s : Scheduler) : Scheduler → Prop :=
| reaches_refl : reaches until_time s s
| reaches_step s1 s2 :
    reaches until_time s s1 →
    loop_cond until_time s1 = true →
    iteration s1 = Continue s2 →
    reaches until_time s s2.

(** The accessors of [Scheduler] that average over the completed processes.
    [None] stands for an exception ([TypeError] on a [None] operand, and the
    two exceptions of the division). *)
Definition py_sum (l : list Z) : Z := foldl Z.add 0 l.

(** [a / b] on two integers.  Python rounds the exact quotient to the
    nearest float and raises [OverflowError] when that float would not be
    finite: when the quotient is, in absolute value, at least halfway from
    the largest float, 2^1024 - 2^971, to 2^1024.  [ZeroDivisionError] and
    [OverflowError] are both [None]; the value is the exact rational, the
    rounding is not modelled. *)
Definition float_limit : Z := 2 ^ 1024 - 2 ^ 970.

Definition float_overflow (a b : Z) : bool :=
  float_limit * Z.abs b <=? Z.abs a.

Definition py_truediv (a b : Z) : option Q :=
  if decide (b = 0) then None
  else if float_overflow a b then None
  else Some (inject_Z a / inject_Z b)%Q.

Definition completed_objects (s : Scheduler) : list Process.t :=
  deref s <$> completed_processes s.

Definition get_average_waiting_time (s : Scheduler) : option Q :=
  match completed_objects s with
  | [] => Some 0%Q
  | ps => py_truediv (py_sum (Process.get_waiting_time <$> ps)) (Z.of_nat (length ps))
  end.

Definition get_average_turnaround_time (s : Scheduler) : option Q :=
  match completed_objects s with
  | [] => Some 0%Q
  | ps => ts ← mapM Process.get_turnaround_time ps;
          py_truediv (py_sum ts) (Z.of_nat (length ps))
  end.

Definition get_average_response_time (s : Scheduler) : option Q :=
  match completed_objects s with
  | [] => Some 0%Q
  | ps => ts ← mapM Process.get_response_time ps;
          py_truediv (py_sum ts) (Z.of_nat (length ps))
  end.

Definition span_of (x : subject) (log : list log_entry) : Z :=
  py_sum ((λ e : log_entry, e.2 - e.1.2) <$> filter (λ e : log_entry, e.1.1 = x) log).

(** The division here is of a part of the clock by the clock: at every
    state of a run the quotient lies between 0 and 1, far from the float
    range, and the accessor is modelled without the [OverflowError]. *)
Definition get_cpu_utilization (s : Scheduler) : Q :=
  if decide (current_time s = 0) then 0%Q
  else
    let idle_time := span_of IDLE (execution_log s) in
    let context_switch_time := span_of CS (execution_log s) in
    (inject_Z (current_time s - idle_time - context_switch_time)
     / inject_Z (current_time s) * 100)%Q.

(** ** utils/metrics.py *)

Module PerformanceMetrics.

(** The dictionary returned by [calculate_metrics]. *)
Record metrics := mk_metrics {
  scheduler : string;
  avg_waiting_time : Q;
  avg_turnaround_time : Q;
  avg_response_time : Q;
  throughput : Q;
  cpu_utilization : Q
}.

(** The five quotients are divisions of integers and raise as [py_truediv]
    says; the product of the ratio with 100 is a product of floats, which
    does not raise. *)
Definition calculate_metrics (completed_processes : list Process.t)
    (total_time : Z) (scheduler_name : string) : option metrics :=
  match completed_processes with
  | [] => Some (mk_metrics scheduler_name 0 0 0 0 0)
  | _ :: _ =>
      let waiting_times := Process.get_waiting_time <$> completed_processes in
      turnaround_times ← mapM Process.get_turnaround_time completed_processes;
      response_times ← mapM Process.get_response_time completed_processes;
      let execution_times := py_sum (Process.executed_time <$> completed_processes) in
      let n := Z.of_nat (length completed_processes) in
      avg_waiting_time ← py_truediv (py_sum waiting_times) n;
      avg_turnaround_time ← py_truediv (py_sum turnaround_times) n;
      avg_response_time ← py_truediv (py_sum response_times) n;
      throughput ← py_truediv n total_time;
      cpu_utilization ←
        (if bool_decide (0 < total_time)
         then ratio ← py_truediv execution_times total_time; Some (ratio * 100)%Q
         else Some 0%Q);
      Some (mk_metrics scheduler_name avg_waiting_time avg_turnaround_time
              avg_response_time throughput cpu_utilization)
  end.

End PerformanceMetrics.

(** * Invariants of a run *)

(** What holds of every process object between two passes of the loop: the
    state is NEW, RUNNING or TERMINATED, never READY or WAITING, and the
    timing fields are set together with the state. *)
Definition proc_ok (p : Process.t) : Prop :=
  Process.waiting_time p = 0 ∧
  match Process.state p with
  | Process.NEW =>
      Process.start_time p = None ∧ Process.response_time p = None
      ∧ Process.finish_time p = None ∧ Process.execution_history p = []
      ∧ Process.remaining_time p = Process.burst_time p
  | Process.RUNNING =>
      is_Some (Process.start_time p) ∧ is_Some (Process.response_time p)
      ∧ Process.finish_time p = None ∧ 0 < Process.remaining_time p
      ∧ Process.execution_history p ≠ []
  | Process.TERMINATED =>
      is_Some (Process.start_time p) ∧ is_Some (Process.response_time p)
      ∧ is_Some (Process.finish_time p)
      ∧ Process.execution_history p ≠ []
  | Process.READY | Process.WAITING => False
  end.

(** The reference points to an object of the list, which is not terminated. *)
Definition alive (ps : list Process.t) (r : ref) : Prop :=
  ∃ p, ps !! r = Some p ∧ Process.state p ≠ Process.TERMINATED.

(** The references a policy holds in its queues. *)
Definition tiers_queued (queues : list tier) : list ref :=
  concat (tier_queue <$> queues).

Definition queued (s : Scheduler) : list ref :=
  match variant s with
  | VRoundRobin _ ready_queue => ready_queue
  | VMultilevel _ queues => tiers_queued queues
  | _ => []
  end.

(** No reference is queued twice, and no queued process is terminated. *)
Definition queues_ok (s : Scheduler) : Prop :=
  NoDup (queued s) ∧ Forall (alive (processes s)) (queued s).

Definition run_inv (s : Scheduler) : Prop :=
  Forall proc_ok (processes s) ∧ queues_ok s.

(** [get_next_process] touches nothing but the fields of the policy and the
    time slice. *)
Definition same_run_state (s s1 : Scheduler) : Prop :=
  processes s1 = processes s ∧ current_time s1 = current_time s
  ∧ context_switch_overhead s1 = context_switch_overhead s
  ∧ current_process s1 = current_process s
  ∧ completed_processes s1 = completed_processes s
  ∧ execution_log s1 = execution_log s.

(** The ready processes that one call of the Round Robin policy appends to
    its queue, in the order of the ready list: those whose pid is the pid of
    no queued process (and which are not queued themselves). *)
Definition rr_fresh (s : Scheduler) (ready_queue ready_processes : list ref) : list ref :=
  filter (λ r, (Process.pid (deref s r)
                  ∉ ((λ x, Process.pid (deref s x)) <$> ready_queue))
               ∧ r ∉ ready_queue)
         ready_processes.

(** The queue of the Round Robin policy before [popleft], as the claim on
    its discipline describes it: the old queue, then the newcomers, and the
    process that just ran moved to the tail. *)
Definition rr_expected_queue (s : Scheduler) (ready_queue ready_processes : list ref)
    : list ref :=
  let q1 := ready_queue ++ rr_fresh s ready_queue ready_processes in
  if current_still_ready s ready_processes
  then match current_process s with
       | Some c => deque_remove c q1 ++ [c]
       | None => q1
       end
  else q1.

(** The algorithms of the tiers of a multilevel scheduler. *)
Definition algorithms (s : Scheduler) : list algorithm :=
  match variant s with
  | VMultilevel _ queues => tier_algorithm <$> queues
  | _ => []
  end.

(** One pass through the loop body that does not leave the loop, as seen from
    outside: either the clock jumps to the next arrival, or one process is
    dispatched, possibly after a context switch. *)
Inductive step_rel (s s' : Scheduler) : Prop :=
| step_idle (t : Z)
    (Hready : ready_refs s = [])
    (Htime : current_time s < t)
    (Hs' : s' = set_current_time t (log_append (IDLE, current_time s, t) s))
    (Harr : next_arrival s = Some t)
| step_dispatch (next : ref) (cs_log : list log_entry) (t0 : Z)
    (Hnext : alive (processes s) next)
    (Hcs : (cs_log = [] ∧ t0 = current_time s)
           ∨ (0 < context_switch_overhead s
              ∧ cs_log = [(CS, current_time s,
                           current_time s + context_switch_overhead s)]
              ∧ t0 = current_time s + context_switch_overhead s))
    (Hslice : time_slice s' = time_slice s ∨ RR (time_slice s') ∈ algorithms s)
    (Hprocs : processes s' =
              <[next := (Process.execute (deref s next) t0 (time_slice s')).1]>
                (processes s))
    (Hlog : execution_log s' =
            execution_log s ++ cs_log
            ++ [(Pid (Process.pid (deref s next)), t0,
                 t0 + Z.min (time_slice s') (Process.remaining_time (deref s next)))])
    (Htime : current_time s' =
             t0 + Z.min (time_slice s') (Process.remaining_time (deref s next)))
    (Halg : algorithms s' = algorithms s)
    (Hcso : context_switch_overhead s' = context_switch_overhead s)
    (Hcur : current_process s' =
            if Process.is_terminated
                 (Process.execute (deref s next) t0 (time_slice s')).1
            then None else Some next)
    (Hcomp : completed_processes s' =
             if Process.is_terminated
                  (Process.execute (deref s next) t0 (time_slice s')).1
             then completed_processes s ++ [next] else completed_processes s)
    (Hnq : next ∉ queued s')
    (Hvar : reset_variant (variant s') = reset_variant (variant s)).

(** * Statements about the execution log *)

(** The entries of [log] follow one another without gap or overlap from time
    [from] to time [to], each of them of positive length. *)
Fixpoint contiguous (from : Z) (log : list log_entry) (to : Z) : Prop :=
  match log with
  | [] => from = to
  | (_, a, b) :: rest => a = from ∧ a < b ∧ contiguous b rest to
  end.

(** Consecutive entries of one subject that abut, merged into one entry. *)
Fixpoint coalesce (log : list log_entry) : list log_entry :=
  match log with
  | [] => []
  | (x, a, b) :: rest =>
      match coalesce rest with
      | (y, c, d) :: rest' =>
          if decide (x = y ∧ b = c) then (x, a, d) :: rest'
          else (x, a, b) :: (y, c, d) :: rest'
      | [] => [(x, a, b)]
      end
  end.

(** What a valid configuration is: positive bursts, a positive time slice,
    positive quanta in the Round Robin tiers. *)
Definition positive_quantum (a : algorithm) : Prop :=
  match a with
  | RR time_quantum => 0 < time_quantum
  | FCFS => True
  end.

Definition valid_config (s : Scheduler) : Prop :=
  Forall (λ p, 0 < Process.burst_time p) (processes s)
  ∧ 0 < time_slice s
  ∧ Forall positive_quantum (algorithms s).

(** * Concrete workloads *)

(** P1(arrival=0, burst=5), P2(arrival=1, burst=3), P3(arrival=2, burst=1). *)
Definition scenario_workload : list Process.t :=
  [Process.init 1 "P1" 0 5 0; Process.init 2 "P2" 1 3 0; Process.init 3 "P3" 2 1 0].

Definition scenario_fcfs : Scheduler :=
  add_processes scenario_workload FCFSScheduler.init.

(** The log and the waiting times that the scenario is said to produce. *)
Definition scenario_fcfs_log : list log_entry :=
  [(Pid 1, 0, 5); (Pid 2, 5, 8); (Pid 3, 8, 9)].

Definition scenario_fcfs_waiting_times : list Z := [0; 4; 6].

(** The log of one-tick entries that the run produces. *)
Definition scenario_fcfs_tick_log : list log_entry :=
  [(Pid 1, 0, 1); (Pid 1, 1, 2); (Pid 1, 2, 3); (Pid 1, 3, 4); (Pid 1, 4, 5);
   (Pid 2, 5, 6); (Pid 2, 6, 7); (Pid 2, 7, 8); (Pid 3, 8, 9)].

(** The state after exactly [n] passes through the loop, if the run gets
    that far. *)
Fixpoint run_steps (n : nat) (until_time : option Z) (s : Scheduler) : option Scheduler :=
  match n with
  | O => Some s
  | S n' =>
      if loop_cond until_time s
      then match iteration s with
           | Continue s' => run_steps n' until_time s'
           | _ => None
           end
      else None
  end.

(** A Round Robin run of the scenario with a context switch of one tick. *)
Definition scenario_rr : Scheduler :=
  set_context_switch_overhead 1
    (add_processes scenario_workload (RoundRobinScheduler.init 2)).

(** The scenario workload under SJF, with a context switch overhead of 1. *)
Definition scenario_sjf : Scheduler :=
  set_context_switch_overhead 1 (add_processes scenario_workload SJFScheduler.init).

(** Two short processes that leave the CPU idle before and between them. *)
Definition scenario_gap : Scheduler :=
  add_processes [Process.init 1 "P1" 2 1 0; Process.init 2 "P2" 5 1 0]
    (RoundRobinScheduler.init 2).

(** * Statements about the timing fields *)

(** Whatever timing field is set in [p] has the same value in [p']. *)
Definition write_once (p p' : Process.t) : Prop :=
  (∀ v, Process.start_time p = Some v → Process.start_time p' = Some v)
  ∧ (∀ v, Process.response_time p = Some v → Process.response_time p' = Some v)
  ∧ (∀ v, Process.finish_time p = Some v → Process.finish_time p' = Some v).

(** * Statements about the Round Robin queue *)

(** The references of [l] are in the order of the arrival times. *)
Definition arrival_ordered (s : Scheduler) (l : list ref) : Prop :=
  ∀ (i j : nat) (ri rj : ref), (i < j)%nat →
    l !! i = Some ri → l !! j = Some rj →
    Process.arrival_time (deref s ri) ≤ Process.arrival_time (deref s rj).

(** The claim on the order of the newcomers, as stated: at every call made
    in a run, what the first loop of [get_next_process] appends to the queue
    is in arrival order. *)
Definition rr_appends_in_arrival_order : Prop :=
  ∀ until_time s0 s tq q,
    reaches until_time (reset s0) s →
    variant s = VRoundRobin tq q →
    ∃ fresh,
      RoundRobinScheduler.enqueue_new s
        (list_to_set ((λ r, Process.pid (deref s r)) <$> q)) q (ready_refs s)
      = q ++ fresh
      ∧ arrival_ordered s fresh.

(** A workload listed out of arrival order: P3 arrives before P2. *)
Definition unsorted_workload : list Process.t :=
  [Process.init 1 "P1" 0 10 0; Process.init 2 "P2" 3 1 0; Process.init 3 "P3" 2 1 0].

Definition unsorted_rr : Scheduler :=
  add_processes unsorted_workload (RoundRobinScheduler.init 4).

(** * Statements about the multilevel queue *)

(** The claim on the selection, as stated, for one call.  First part: the
    returned process is the head of the first tier that is not empty once
    the queues are brought up to date. *)
Definition mlq_returns_head (queue_count : Z) (queues : list tier)
    (s : Scheduler) (ready_processes : list ref) : Prop :=
  ∀ r s',
    MultilevelQueueScheduler.get_next_process queue_count queues s ready_processes
    = Some (Some r, s') →
    ∃ qs (i : nat) t q',
      MultilevelQueueScheduler.updated_queues queue_count s queues ready_processes
      = Some qs
      ∧ qs !! i = Some t
      ∧ tier_queue t = r :: q'
      ∧ (∀ (j : nat) t', (j < i)%nat → qs !! j = Some t' → tier_queue t' = []).

(** Second part: the time slice after the call is the quantum of the tier
    the process comes from, a slice that covers the whole remaining burst
    for the FCFS tier. *)
Definition mlq_grants_quantum (queue_count : Z) (queues : list tier)
    (s : Scheduler) (ready_processes : list ref) : Prop :=
  ∀ r s' qs (i : nat) t q',
    MultilevelQueueScheduler.get_next_process queue_count queues s ready_processes
    = Some (Some r, s') →
    MultilevelQueueScheduler.updated_queues queue_count s queues ready_processes
    = Some qs →
    qs !! i = Some t →
    tier_queue t = r :: q' →
    (∀ (j : nat) t', (j < i)%nat → qs !! j = Some t' → tier_queue t' = []) →
    match tier_algorithm t with
    | RR time_quantum => time_slice s' = time_quantum
    | FCFS => Process.remaining_time (deref s r) ≤ time_slice s'
    end.

Definition mlq_selection_claim : Prop :=
  ∀ until_time s0 s queue_count queues,
    reaches until_time (reset s0) s →
    variant s = VMultilevel queue_count queues →
    mlq_returns_head queue_count queues s (ready_refs s)
    ∧ mlq_grants_quantum queue_count queues s (ready_refs s).

(** One process of priority 0 and burst 3 under the default three tiers. *)
Definition batch_mlq : Scheduler :=
  add_processes [Process.init 1 "P1" 0 3 0] (MultilevelQueueScheduler.init 3).

(** Two batch processes that arrive together, under the default three
    tiers. *)
Definition two_batch_mlq : Scheduler :=
  add_processes [Process.init 1 "P1" 0 3 0; Process.init 2 "P2" 0 3 0]
    (MultilevelQueueScheduler.init 3).

(** A batch process and a system process under the default three tiers. *)
Definition mixed_mlq : Scheduler :=
  add_processes [Process.init 1 "P1" 0 3 0; Process.init 2 "P2" 1 2 2]
    (MultilevelQueueScheduler.init 3).

(** One batch process and two system processes that arrive together, under
    the default three tiers. *)
Definition crowded_mlq : Scheduler :=
  add_processes [Process.init 1 "P1" 0 3 0; Process.init 2 "P2" 0 2 2;
                 Process.init 3 "P3" 0 2 2]
    (MultilevelQueueScheduler.init 3).

(** * Statements about the tie-break of the Priority policy *)

(** [x] does not come after [r] in the order the claim gives: higher
    priority first, then earlier arrival, then lower pid. *)
Definition claimed_priority_order (r x : Process.t) : Prop :=
  Process.priority x < Process.priority r
  ∨ (Process.priority x = Process.priority r
     ∧ (Process.arrival_time r < Process.arrival_time x
        ∨ (Process.arrival_time r = Process.arrival_time x
           ∧ Process.pid r ≤ Process.pid x))).

(** The order the code implements: the last tie is broken by the higher
    pid. *)
Definition coded_priority_order (r x : Process.t) : Prop :=
  Process.priority x < Process.priority r
  ∨ (Process.priority x = Process.priority r
     ∧ (Process.arrival_time r < Process.arrival_time x
        ∨ (Process.arrival_time r = Process.arrival_time x
           ∧ Process.pid x ≤ Process.pid r))).

(** Two processes of equal priority that arrive together. *)
Definition tie_priority : Scheduler :=
  add_processes [Process.init 1 "P1" 0 4 1; Process.init 2 "P2" 0 4 1]
    (PriorityScheduler.init false).

(** * Termination *)

(** The tiers of a multilevel scheduler can hold every queue index that
    [get_queue_for_process] computes. *)
Definition tiers_ok (v : variant_t) : Prop :=
  match v with
  | VMultilevel queue_count queues =>
      1 ≤ queue_count ∧ (Z.to_nat queue_count ≤ length queues)%nat
  | _ => True
  end.

(** The CPU time the processes still need. *)
Definition remaining_work (s : Scheduler) : nat :=
  sum_list_with (λ p, Z.to_nat (Process.remaining_time p)) (processes s).

(** What decreases at every pass through the loop: a dispatch takes from the
    remaining work, an idle pass makes a process ready. *)
Definition passes_left (s : Scheduler) : nat :=
  (2 * remaining_work s + match ready_refs s with [] => 1 | _ => 0 end)%nat.

(** The execution log of [s] accounts for the time from 0 to the clock:
    its entries follow one another without gap or overlap, each ends where
    the next one starts, earlier entries come before later ones, and a time
    lies in [0, clock) exactly when it lies in the span of an entry. *)
Definition log_accounts_for_clock (s : Scheduler) : Prop :=
  contiguous 0 (execution_log s) (current_time s)
  ∧ (∀ (i : nat) (e1 e2 : log_entry),
       execution_log s !! i = Some e1 → execution_log s !! S i = Some e2 →
       e1.2 = e2.1.2)
  ∧ (∀ (i j : nat) (e1 e2 : log_entry), (i < j)%nat →
       execution_log s !! i = Some e1 → execution_log s !! j = Some e2 →
       e1.1.2 < e1.2 ∧ e1.2 ≤ e2.1.2)
  ∧ (∀ t, 0 ≤ t < current_time s
          ↔ ∃ e : log_entry, e ∈ execution_log s ∧ e.1.2 ≤ t < e.2).

(** * One pass through the loop, in full *)

(** The test of the block that charges a context switch. *)
Definition switch_charged (s : Scheduler) (next : ref) : bool :=
  bool_decide (0 < context_switch_overhead s)
  && bool_decide (current_process s ≠ Some next)
  && bool_decide (current_process s ≠ None).

(** The time at which the selected process is dispatched. *)
Definition dispatch_time (s : Scheduler) (next : ref) : Z :=
  if switch_charged s next
  then current_time s + context_switch_overhead s else current_time s.

(** A pass that does not leave the loop, with the selection that was made
    and every field of the scheduler after the pass. *)
Inductive pass (s s' : Scheduler) : Prop :=
| pass_idle (t : Z)
    (Hready : ready_refs s = [])
    (Harr : next_arrival s = Some t)
    (Htime : current_time s < t)
    (Hs' : s' = set_current_time t (log_append (IDLE, current_time s, t) s))
| pass_dispatch (next : ref) (s1 : Scheduler)
    (Hready : ready_refs s ≠ [])
    (Hsel : get_next_process s (ready_refs s) = Some (Some next, s1))
    (Hnext : alive (processes s) next)
    (Hprocs : processes s' =
              <[next := (Process.execute (deref s next) (dispatch_time s next)
                           (time_slice s1)).1]> (processes s))
    (Hvar : variant s' = variant s1)
    (Hslice : time_slice s' = time_slice s1)
    (Hcso : context_switch_overhead s' = context_switch_overhead s)
    (Htime : current_time s' =
             dispatch_time s next
             + Z.min (time_slice s1) (Process.remaining_time (deref s next)))
    (Hlog : execution_log s' =
            execution_log s
            ++ (if switch_charged s next
                then [(CS, current_time s, current_time s + context_switch_overhead s)]
                else [])
            ++ [(Pid (Process.pid (deref s next)), dispatch_time s next,
                 dispatch_time s next
                 + Z.min (time_slice s1) (Process.remaining_time (deref s next)))])
    (Hcur : current_process s' =
            if Process.is_terminated
                 (Process.execute (deref s next) (dispatch_time s next)
                    (time_slice s1)).1
            then None else Some next)
    (Hcomp : completed_processes s' =
             if Process.is_terminated
                  (Process.execute (deref s next) (dispatch_time s next)
                     (time_slice s1)).1
             then completed_processes s ++ [next] else completed_processes s).

(** * Statements about the end of a run *)

(** Every process of [s] is terminated and has used its whole burst; the
    completed list holds each of them once; nothing is current. *)
Definition all_completed (s : Scheduler) : Prop :=
  completed_processes s ≡ₚ seq 0 (length (processes s))
  ∧ current_process s = None
  ∧ Forall (λ p, Process.state p = Process.TERMINATED
                 ∧ Process.remaining_time p = 0
                 ∧ Process.executed_time p = Process.burst_time p
                 ∧ is_Some (Process.finish_time p))
           (processes s).

(** * Statements about the time the log accounts for *)

(** The time the log attributes to processes. *)
Definition busy_time (log : list log_entry) : Z :=
  py_sum ((λ e : log_entry, e.2 - e.1.2)
            <$> filter (λ e : log_entry, e.1.1 ≠ IDLE ∧ e.1.1 ≠ CS) log).

(** The CPU time all processes have used, by their histories. *)
Definition executed_total (s : Scheduler) : Z :=
  py_sum (Process.executed_time <$> processes s).

(** * Statements about the timing of a process *)

(** The intervals of [h] come one after the other, none before [from], each
    of positive length. *)
Fixpoint spaced (from : Z) (h : list (Z * Z)) : Prop :=
  match h with
  | [] => True
  | (a, b) :: rest => from ≤ a ∧ a < b ∧ spaced b rest
  end.

(** The timing fields of [p] say what its history says, at time [clock]:
    the history is chronological, starts after the arrival and ends by
    [clock]; the start time is the start of the first interval and the
    response time its distance to the arrival; the finish time is the end of
    the last interval, set exactly when the process is terminated. *)
Definition timing_consistent (clock : Z) (p : Process.t) : Prop :=
  spaced (Process.arrival_time p) (Process.execution_history p)
  ∧ Forall (λ iv, iv.2 ≤ clock) (Process.execution_history p)
  ∧ Process.start_time p = fst <$> head (Process.execution_history p)
  ∧ Process.response_time p
    = (λ iv, iv.1 - Process.arrival_time p) <$> head (Process.execution_history p)
  ∧ Process.finish_time p
    = (if decide (Process.state p = Process.TERMINATED)
       then snd <$> last (Process.execution_history p) else None).

(** * Statements relating the log and the histories *)

(** The intervals that the log gives to the process [pid], in order. *)
Definition log_of_pid (pid : Z) (log : list log_entry) : list (Z * Z) :=
  omap (λ e : log_entry,
          match e with
          | (Pid q, a, b) => if decide (q = pid) then Some (a, b) else None
          | _ => None
          end) log.

(** * Statements about preemption *)

(** The policies that are meant to keep a process on the CPU until it is
    done: FCFS, SJF and the Priority policy with [preemptive=False]. *)
Definition non_preemptive (v : variant_t) : Prop :=
  v = VFCFS ∨ v = VSJF ∨ v = VPriority false.

(** Among the ready processes, [c] is the first of those with the least
    FCFS key: what comes before it in [processes] has a greater key, what
    comes after it has no smaller one. *)
Definition fcfs_first (s : Scheduler) (c : ref) : Prop :=
  ∀ x : nat, x ∈ ready_refs s →
    ((x < c)%nat → tuple_ltb (FCFSScheduler.key s c) (FCFSScheduler.key s x) = true)
    ∧ ((c < x)%nat → tuple_ltb (FCFSScheduler.key s x) (FCFSScheduler.key s c) = false).

(** * Statements about what the policies select *)

(** The order of FCFS: earlier arrival first, then the lower pid. *)
Definition earliest_first (r x : Process.t) : Prop :=
  Process.arrival_time r < Process.arrival_time x
  ∨ (Process.arrival_time r = Process.arrival_time x
     ∧ Process.pid r ≤ Process.pid x).

(** The order of SJF and SRTF: less remaining time first, then earlier
    arrival, then the lower pid. *)
Definition shortest_first (r x : Process.t) : Prop :=
  Process.remaining_time r < Process.remaining_time x
  ∨ (Process.remaining_time r = Process.remaining_time x
     ∧ earliest_first r x).

(** * Statements about the tiers of the multilevel queue *)

(** Every queued process sits in the tier that [get_queue_for_process]
    computes from its priority. *)
Definition tier_assigned (queue_count : Z) (s : Scheduler) (queues : list tier) : Prop :=
  ∀ (i : nat) t (r : nat),
    queues !! i = Some t → r ∈ tier_queue t →
    py_index (length queues)
      (MultilevelQueueScheduler.get_queue_for_process queue_count (deref s r))
    = Some i.

(** * Statements about the metrics *)

(** One of the five divisions of [calculate_metrics] gives a quotient too
    large for a float. *)
Definition metrics_overflow (ps : list Process.t) (total_time : Z) : Prop :=
  let n := Z.of_nat (length ps) in
  float_overflow (py_sum (Process.get_waiting_time <$> ps)) n = true
  ∨ (∃ ts, mapM Process.get_turnaround_time ps = Some ts
           ∧ float_overflow (py_sum ts) n = true)
  ∨ (∃ rs, mapM Process.get_response_time ps = Some rs
           ∧ float_overflow (py_sum rs) n = true)
  ∨ float_overflow n total_time = true
  ∨ (0 < total_time
     ∧ float_overflow (py_sum (Process.executed_time <$> ps)) total_time = true).

(** * Properties *)

(** ** Process operations *)

Lemma execute_static p t q :
  Process.pid (Process.execute p t q).1 = Process.pid p
  ∧ Process.arrival_time (Process.execute p t q).1 = Process.arrival_time p
  ∧ Process.burst_time (Process.execute p t q).1 = Process.burst_time p
  ∧ Process.priority (Process.execute p t q).1 = Process.priority p.
Proof.
  unfold Process.execute.
  destruct (Process.start_time p), (_ <=? _); simpl; auto.
Qed.

Lemma execute_time p t q :
  (Process.execute p t q).2 = Z.min q (Process.remaining_time p).
Proof.
  unfold Process.execute.
  destruct (Process.start_time p), (_ <=? _); reflexivity.
Qed.

Lemma reset_ok p : proc_ok (Process.reset p).
Proof. by repeat split. Qed.

Lemma wait_ok p d : proc_ok p → Process.wait p d = p.
Proof.
  intros [_ H]. unfold Process.wait.
  rewrite bool_decide_eq_false_2; [done|].
  intros [E|E]; rewrite E in H; done.
Qed.

Lemma execute_ok p t q :
  proc_ok p → Process.state p ≠ Process.TERMINATED →
  proc_ok (Process.execute p t q).1.
Proof.
  intros [Hw H] Hs. unfold Process.execute, proc_ok.
  destruct (Process.state p) eqn:E; try done.
  - destruct H as (-> & _ & Hf & _ & _). simpl.
    destruct (_ <=? _) eqn:Hle; simpl; repeat split; eauto;
      try (by destruct (Process.execution_history p)).
    apply Z.leb_gt in Hle. lia.
  - destruct H as ([a ->] & Hr & Hf & _). simpl.
    destruct (_ <=? _) eqn:Hle; simpl; repeat split; eauto;
      try (by destruct (Process.execution_history p)).
    apply Z.leb_gt in Hle. lia.
Qed.

(** ** The store of process objects *)

Lemma wait_others_id ready next d ps :
  Forall proc_ok ps → wait_others ready next d ps = ps.
Proof.
  intros Hok. unfold wait_others.
  induction ready as [|r ready IH]; simpl; [done|].
  case_decide; [|done].
  rewrite list_insert_id'; [done|].
  intros Hlt. destruct (lookup_lt_is_Some_2 ps r Hlt) as [p Hp].
  rewrite (list_lookup_total_correct _ _ _ Hp), Hp.
  f_equal. symmetry. apply wait_ok. by eapply Forall_lookup_1.
Qed.

Lemma alive_lookup ps r :
  alive ps r → ps !! r = Some (ps !!! r)
  ∧ Process.state (ps !!! r) ≠ Process.TERMINATED.
Proof.
  intros (p & Hp & Hs). by rewrite (list_lookup_total_correct _ _ _ Hp).
Qed.

Lemma alive_insert_ne ps r next p' :
  r ≠ next → alive ps r → alive (<[next := p']> ps) r.
Proof.
  intros Hne (p & Hp & Hs). exists p.
  by rewrite list_lookup_insert_ne.
Qed.

(** ** The two blocks of the loop body *)

Lemma context_switch_spec ready next s :
  Forall proc_ok (processes s) →
  let s' := context_switch ready next s in
  processes s' = processes s ∧ variant s' = variant s
  ∧ time_slice s' = time_slice s ∧ current_process s' = current_process s
  ∧ completed_processes s' = completed_processes s
  ∧ context_switch_overhead s' = context_switch_overhead s
  ∧ ((current_time s' = current_time s ∧ execution_log s' = execution_log s)
     ∨ (0 < context_switch_overhead s
        ∧ current_time s' = current_time s + context_switch_overhead s
        ∧ execution_log s' =
            execution_log s
            ++ [(CS, current_time s, current_time s + context_switch_overhead s)])).
Proof.
  intros Hok. unfold context_switch.
  destruct (bool_decide (0 < _)) eqn:Hcs; simpl; [|by eauto 10].
  destruct (_ && _); simpl; [|by eauto 10].
  apply bool_decide_eq_true in Hcs.
  rewrite wait_others_id by done. eauto 10.
Qed.

Lemma dispatch_spec ready next s :
  Forall proc_ok (processes s) → alive (processes s) next →
  let p' := (Process.execute (deref s next) (current_time s) (time_slice s)).1 in
  let e := Z.min (time_slice s) (Process.remaining_time (deref s next)) in
  let s' := dispatch ready next s in
  processes s' = <[next := p']> (processes s)
  ∧ proc_ok p'
  ∧ variant s' = variant s
  ∧ time_slice s' = time_slice s
  ∧ context_switch_overhead s' = context_switch_overhead s
  ∧ current_time s' = current_time s + e
  ∧ execution_log s' =
      execution_log s ++ [(Pid (Process.pid (deref s next)), current_time s,
                           current_time s + e)]
  ∧ (current_process s' = if Process.is_terminated p' then None else Some next)
  ∧ (completed_processes s' =
       if Process.is_terminated p' then completed_processes s ++ [next]
       else completed_processes s).
Proof.
  intros Hok Hal. destruct (alive_lookup _ _ Hal) as [Hl Hs].
  assert (Hp : proc_ok (processes s !!! next)) by by eapply Forall_lookup_1.
  pose proof (execute_ok _ (current_time s) (time_slice s) Hp Hs) as Hp'.
  pose proof (execute_time (deref s next) (current_time s) (time_slice s)) as He.
  pose proof (execute_static (deref s next) (current_time s) (time_slice s))
    as (Hpid & _).
  unfold dispatch. simpl. unfold deref in *.
  destruct (Process.execute _ _ _) as [p' e] eqn:Hx. simpl in *. subst e.
  rewrite wait_others_id by (by apply Forall_insert).
  assert (Hd : <[next:=p']> (processes s) !!! next = p').
  { apply list_lookup_total_insert_eq. by eapply lookup_lt_Some. }
  unfold deref. simpl. rewrite Hd, Hpid.
  destruct (Process.is_terminated p'); simpl; by eauto 10.
Qed.

(** ** Selection helpers *)

Lemma py_min_elem {A} (key : A → list Z) l r : py_min key l = Some r → r ∈ l.
Proof.
  destruct l as [|x l]; simpl; [done|]. intros [= <-].
  assert (H : ∀ b, foldl (λ best y, if tuple_ltb (key y) (key best) then y else best) b l
                   ∈ b :: l).
  { induction l as [|y l IH]; intros b; simpl; [by apply elem_of_cons; left|].
    destruct (tuple_ltb _ _); [specialize (IH y)|specialize (IH b)];
      rewrite !elem_of_cons in *; tauto. }
  apply H.
Qed.

Lemma py_max_elem {A} (key : A → list Z) l r : py_max key l = Some r → r ∈ l.
Proof.
  destruct l as [|x l]; simpl; [done|]. intros [= <-].
  assert (H : ∀ b, foldl (λ best y, if tuple_ltb (key best) (key y) then y else best) b l
                   ∈ b :: l).
  { induction l as [|y l IH]; intros b; simpl; [by apply elem_of_cons; left|].
    destruct (tuple_ltb _ _); [specialize (IH y)|specialize (IH b)];
      rewrite !elem_of_cons in *; tauto. }
  apply H.
Qed.

Lemma ready_refs_alive s : Forall (alive (processes s)) (ready_refs s).
Proof.
  apply Forall_forall. intros r Hr. unfold ready_refs in Hr.
  apply list_elem_of_filter in Hr as [[_ Ht] Hr].
  apply elem_of_seq in Hr as [_ Hr]. simpl in Hr.
  destruct (lookup_lt_is_Some_2 (processes s) r Hr) as [p Hp].
  exists p. split; [done|].
  unfold deref in Ht. rewrite (list_lookup_total_correct _ _ _ Hp) in Ht.
  unfold Process.is_terminated in Ht. by apply bool_decide_eq_false in Ht.
Qed.

Lemma ready_refs_NoDup s : NoDup (ready_refs s).
Proof. apply NoDup_filter, NoDup_seq. Qed.

Lemma current_still_ready_inv s ready :
  current_still_ready s ready = true →
  ∃ c, current_process s = Some c ∧ c ∈ ready.
Proof.
  unfold current_still_ready. destruct (current_process s) as [c|]; [|done].
  intros [H _]%andb_true_iff. apply bool_decide_eq_true in H. eauto.
Qed.

Lemma deque_remove_sublist x q : sublist (deque_remove x q) q.
Proof.
  induction q as [|y q IH]; simpl; [done|].
  case_decide; [by apply sublist_cons|by apply sublist_skip].
Qed.

Lemma deque_remove_not_elem x q : NoDup q → x ∉ deque_remove x q.
Proof.
  induction q as [|y q IH]; simpl; [intros _; apply not_elem_of_nil|].
  intros [Hy Hq]%NoDup_cons. case_decide; [by subst|].
  rewrite elem_of_cons. intros [?|?]; [done|by apply IH].
Qed.

Lemma deque_remove_NoDup x q : NoDup q → NoDup (deque_remove x q).
Proof. intros. eapply sublist_NoDup; [done|apply deque_remove_sublist]. Qed.

Lemma deque_remove_elem x y q : y ∈ deque_remove x q → y ∈ q.
Proof. intros. eapply elem_of_sublist; [done|apply deque_remove_sublist]. Qed.

(** ** The Round Robin queue *)

Lemma filter_ext_elem {A} (P Q : A → Prop) `{∀ x, Decision (P x)}
    `{∀ x, Decision (Q x)} (l : list A) :
  (∀ x, x ∈ l → (P x ↔ Q x)) → filter P l = filter Q l.
Proof.
  induction l as [|x l IH]; intros Hpq; [done|].
  rewrite !filter_cons.
  assert (Hx : P x ↔ Q x) by (apply Hpq; apply elem_of_cons; by left).
  rewrite IH by (intros y Hy; apply Hpq; apply elem_of_cons; by right).
  destruct (decide (P x)), (decide (Q x)); tauto.
Qed.

Lemma enqueue_new_spec s (pids : gset Z) q ready :
  NoDup ready →
  RoundRobinScheduler.enqueue_new s pids q ready
  = q ++ filter (λ r, (Process.pid (deref s r) ∉ pids) ∧ r ∉ q) ready.
Proof.
  unfold RoundRobinScheduler.enqueue_new.
  revert q. induction ready as [|r ready IH]; intros q Hnd; simpl.
  - by rewrite filter_nil, app_nil_r.
  - apply NoDup_cons in Hnd as [Hr Hnd]. rewrite filter_cons.
    destruct (decide (_ ∧ _)) as [[Hp Hq]|Hn].
    + rewrite !bool_decide_eq_true_2 by done. simpl.
      rewrite IH by done. rewrite <- app_assoc. simpl. do 2 f_equal.
      apply filter_ext_elem. intros x Hx.
      rewrite elem_of_app, list_elem_of_singleton.
      split; [tauto|]. intros [? ?]. split; [done|].
      intros [?| ->]; done.
    + rewrite IH by done.
      case_bool_decide; case_bool_decide; simpl; try done. tauto.
Qed.

Lemma updated_queue_spec s q ready :
  NoDup ready →
  RoundRobinScheduler.updated_queue s q ready = rr_expected_queue s q ready.
Proof.
  intros Hnd. unfold RoundRobinScheduler.updated_queue, rr_expected_queue.
  rewrite enqueue_new_spec by done.
  assert (Hf : filter (λ r, (Process.pid (deref s r)
                             ∉ (list_to_set ((λ r0, Process.pid (deref s r0)) <$> q) : gset Z))
                            ∧ r ∉ q) ready
               = rr_fresh s q ready).
  { apply filter_ext_elem. intros x _. by rewrite elem_of_list_to_set. }
  rewrite Hf. clear Hf.
  destruct (current_still_ready s ready) eqn:Hc.
  - destruct (current_still_ready_inv _ _ Hc) as (c & -> & _).
    destruct (deque_remove c _ ++ [c]) eqn:E; [|done].
    by destruct (deque_remove c _).
  - destruct (q ++ rr_fresh s q ready) eqn:E; [|done].
    destruct ready as [|r ready']; [done|]. exfalso.
    apply app_eq_nil in E as [-> Hfr].
    unfold rr_fresh in Hfr. rewrite filter_cons_True in Hfr; [done|].
    split; apply not_elem_of_nil.
Qed.

Lemma rr_fresh_elem s q ready x :
  x ∈ rr_fresh s q ready → x ∈ ready ∧ x ∉ q.
Proof. intros [[_ ?] ?]%list_elem_of_filter. done. Qed.

Lemma rr_expected_queue_elem s q ready x :
  x ∈ rr_expected_queue s q ready → x ∈ q ∨ x ∈ ready.
Proof.
  unfold rr_expected_queue.
  assert (H1 : x ∈ q ++ rr_fresh s q ready → x ∈ q ∨ x ∈ ready).
  { rewrite elem_of_app. intros [?|[? _]%rr_fresh_elem]; auto. }
  destruct (current_still_ready s ready) eqn:Hc; [|done].
  apply current_still_ready_inv in Hc as (c & -> & Hc).
  rewrite elem_of_app, list_elem_of_singleton.
  intros [Hx%deque_remove_elem| ->]; auto.
Qed.

Lemma rr_expected_queue_NoDup s q ready :
  NoDup q → NoDup ready → NoDup (rr_expected_queue s q ready).
Proof.
  intros Hq Hr. unfold rr_expected_queue.
  assert (H1 : NoDup (q ++ rr_fresh s q ready)).
  { apply NoDup_app. split; [done|]. split.
    - intros x Hx [_ Hn]%rr_fresh_elem. done.
    - by apply NoDup_filter. }
  destruct (current_still_ready s ready); [|done].
  destruct (current_process s) as [c|]; [|done].
  apply NoDup_app. split; [by apply deque_remove_NoDup|]. split.
  - intros x Hx Hxc%list_elem_of_singleton. subst x.
    by apply (deque_remove_not_elem c (q ++ rr_fresh s q ready)).
  - apply NoDup_singleton.
Qed.

(** ** The tiers of the multilevel queue *)

Lemma py_index_lt len i n : py_index len i = Some n → (n < len)%nat.
Proof.
  unfold py_index.
  destruct (_ && _) eqn:H1.
  - intros [= <-]. apply andb_true_iff in H1.
    destruct H1 as [?%Z.leb_le ?%Z.ltb_lt]. lia.
  - destruct ((- Z.of_nat len <=? i) && (i <? 0)) eqn:H2; [|done].
    intros [= <-]. apply andb_true_iff in H2.
    destruct H2 as [?%Z.leb_le ?%Z.ltb_lt]. lia.
Qed.

Lemma in_queue_spec r qs :
  MultilevelQueueScheduler.in_queue r qs = true ↔ r ∈ tiers_queued qs.
Proof.
  unfold MultilevelQueueScheduler.in_queue, tiers_queued.
  induction qs as [|t qs IH]; simpl.
  - split; [done|]. by intros ?%elem_of_nil.
  - rewrite orb_true_iff, bool_decide_eq_true, elem_of_app. tauto.
Qed.

Lemma tiers_queued_alter_append r i qs :
  (i < length qs)%nat →
  tiers_queued (alter (MultilevelQueueScheduler.tier_append r) i qs)
  ≡ₚ r :: tiers_queued qs.
Proof.
  unfold tiers_queued. revert i.
  induction qs as [|t qs IH]; intros i Hi; csimpl in *; [lia|].
  destruct i as [|i]; csimpl.
  - rewrite <- app_assoc. simpl.
    rewrite <- Permutation_middle. done.
  - rewrite IH by lia. by rewrite <- Permutation_middle.
Qed.

Lemma algorithms_alter_append r (i : nat) (qs : list tier) :
  tier_algorithm <$> alter (MultilevelQueueScheduler.tier_append r) i qs
  = tier_algorithm <$> qs.
Proof.
  revert i. induction qs as [|t qs IH]; intros [|i]; csimpl; try done.
  by rewrite IH.
Qed.

Lemma append_to_tier_spec qc s r qs qs' :
  MultilevelQueueScheduler.append_to_tier qc s r qs = Some qs' →
  tiers_queued qs' ≡ₚ r :: tiers_queued qs
  ∧ tier_algorithm <$> qs' = tier_algorithm <$> qs.
Proof.
  unfold MultilevelQueueScheduler.append_to_tier.
  destruct (py_index _ _) as [i|] eqn:Hi; simpl; [|done].
  intros [= <-]. apply py_index_lt in Hi.
  split; [by apply tiers_queued_alter_append|apply algorithms_alter_append].
Qed.

Lemma enqueue_arrivals_None qc s ready :
  foldl (λ acc r,
           qs ← acc;
           if negb (MultilevelQueueScheduler.in_queue r qs)
              && bool_decide (current_process s ≠ Some r)
           then MultilevelQueueScheduler.append_to_tier qc s r qs
           else Some qs)
        None ready = None.
Proof. induction ready; simpl; done. Qed.

Lemma enqueue_arrivals_spec qc s qs ready qs' :
  MultilevelQueueScheduler.enqueue_arrivals qc s qs ready = Some qs' →
  NoDup (tiers_queued qs) →
  NoDup (tiers_queued qs')
  ∧ (∀ x, x ∈ tiers_queued qs' → x ∈ tiers_queued qs ∨ x ∈ ready)
  ∧ tier_algorithm <$> qs' = tier_algorithm <$> qs.
Proof.
  unfold MultilevelQueueScheduler.enqueue_arrivals.
  revert qs. induction ready as [|r ready IH]; intros qs; simpl.
  - intros [= <-] Hnd. auto.
  - destruct (negb _ && _) eqn:Hc.
    + destruct (MultilevelQueueScheduler.append_to_tier qc s r qs) as [qs1|] eqn:Ha;
        [|by rewrite enqueue_arrivals_None].
      intros Hf Hnd.
      apply append_to_tier_spec in Ha as [Hp Hal].
      apply andb_true_iff in Hc as [Hin _]. apply negb_true_iff in Hin.
      assert (r ∉ tiers_queued qs).
      { rewrite <- in_queue_spec. by rewrite Hin. }
      destruct (IH _ Hf) as (Hnd' & Hel & Hal').
      { rewrite Hp. by apply NoDup_cons. }
      split; [done|]. split; [|congruence].
      intros x Hx. apply Hel in Hx. rewrite Hp in Hx.
      rewrite !elem_of_cons in *. tauto.
    + intros Hf Hnd. destruct (IH _ Hf Hnd) as (Hnd' & Hel & Hal').
      split; [done|]. split; [|done].
      intros x Hx. apply Hel in Hx. rewrite elem_of_cons. tauto.
Qed.

Lemma tiers_queued_remove_sublist c qs :
  sublist (tiers_queued (MultilevelQueueScheduler.tier_remove c <$> qs))
          (tiers_queued qs).
Proof.
  unfold tiers_queued. induction qs as [|t qs IH]; simpl; [done|].
  apply sublist_app; [apply deque_remove_sublist|done].
Qed.

Lemma tiers_queued_remove_not_elem c qs :
  NoDup (tiers_queued qs) →
  c ∉ tiers_queued (MultilevelQueueScheduler.tier_remove c <$> qs).
Proof.
  unfold tiers_queued. induction qs as [|t qs IH]; simpl.
  - intros _. apply not_elem_of_nil.
  - intros (Ht & Hd & Hq)%NoDup_app. rewrite elem_of_app.
    intros [Hc|Hc]; [by apply (deque_remove_not_elem c (tier_queue t))|by apply IH].
Qed.

Lemma algorithms_remove c (qs : list tier) :
  tier_algorithm <$> (MultilevelQueueScheduler.tier_remove c <$> qs)
  = tier_algorithm <$> qs.
Proof. induction qs as [|t qs IH]; csimpl; [done|]. by rewrite IH. Qed.

Lemma requeue_current_spec qc s qs ready qs' :
  MultilevelQueueScheduler.requeue_current qc s qs ready = Some qs' →
  NoDup (tiers_queued qs) →
  NoDup (tiers_queued qs')
  ∧ (∀ x, x ∈ tiers_queued qs' → x ∈ tiers_queued qs ∨ x ∈ ready)
  ∧ tier_algorithm <$> qs' = tier_algorithm <$> qs.
Proof.
  unfold MultilevelQueueScheduler.requeue_current.
  destruct (current_still_ready s ready) eqn:Hc; [|by intros [= <-]; auto].
  apply current_still_ready_inv in Hc as (c & -> & Hc).
  destruct (py_index _ _) as [i|] eqn:Hi; simpl; [|done].
  destruct (qs !! i) as [t|] eqn:Ht; simpl; [|done].
  destruct (tier_algorithm t); [|by intros [= <-]; auto].
  intros [= <-] Hnd.
  assert (Hp : tiers_queued (alter (MultilevelQueueScheduler.tier_append c) i
                               (MultilevelQueueScheduler.tier_remove c <$> qs))
               ≡ₚ c :: tiers_queued (MultilevelQueueScheduler.tier_remove c <$> qs)).
  { apply tiers_queued_alter_append. rewrite length_fmap. by eapply lookup_lt_Some. }
  split; [|split].
  - rewrite Hp. apply NoDup_cons. split.
    + by apply tiers_queued_remove_not_elem.
    + eapply sublist_NoDup; [done|apply tiers_queued_remove_sublist].
  - intros x. rewrite Hp, elem_of_cons. intros [->|Hx]; [by right|left].
    eapply elem_of_sublist; [done|apply tiers_queued_remove_sublist].
  - by rewrite algorithms_alter_append, algorithms_remove.
Qed.

Lemma select_from_queues_Some qs r qs' slice :
  MultilevelQueueScheduler.select_from_queues qs = Some (r, qs', slice) →
  tiers_queued qs = r :: tiers_queued qs'
  ∧ tier_algorithm <$> qs' = tier_algorithm <$> qs
  ∧ (∀ q, slice = Some q → RR q ∈ tier_algorithm <$> qs).
Proof.
  unfold tiers_queued.
  revert qs'. induction qs as [|t qs IH]; intros qs'; csimpl; [done|].
  destruct (tier_queue t) as [|x q'] eqn:Hq.
  - destruct (MultilevelQueueScheduler.select_from_queues qs)
      as [[[r1 rest'] slice1]|]; simpl; [|done].
    intros [= -> <- ->]. destruct (IH _ eq_refl) as (H1 & H2 & H3).
    csimpl. rewrite Hq. csimpl. split; [done|]. split; [by rewrite H2|].
    intros q Hs. apply elem_of_cons. right. by apply H3.
  - intros [= -> <- <-]. simpl. split; [done|]. split; [done|].
    intros q Hs. apply elem_of_cons. left.
    destruct (tier_algorithm t); congruence.
Qed.

Lemma select_from_queues_None qs :
  MultilevelQueueScheduler.select_from_queues qs = None → tiers_queued qs = [].
Proof.
  unfold tiers_queued. induction qs as [|t qs IH]; simpl; [done|].
  destruct (tier_queue t) as [|x q'] eqn:Hq; [|done].
  destruct (MultilevelQueueScheduler.select_from_queues qs)
    as [[[r1 rest'] slice1]|]; simpl; [done|].
  intros _. by apply IH.
Qed.

(** ** Every policy selects a process that is not terminated *)

Lemma queued_simple s :
  (∀ tq q, variant s ≠ VRoundRobin tq q) →
  (∀ qc qs, variant s ≠ VMultilevel qc qs) →
  queued s = [].
Proof. unfold queued. destruct (variant s); naive_solver. Qed.

Lemma same_run_state_refl s : same_run_state s s.
Proof. by repeat split. Qed.

Lemma same_run_state_set_variant v s : same_run_state s (set_variant v s).
Proof. by repeat split. Qed.

Lemma get_next_process_sound s ready next s1 :
  queues_ok s → NoDup ready → Forall (alive (processes s)) ready →
  get_next_process s ready = Some (Some next, s1) →
  same_run_state s s1 ∧ alive (processes s) next
  ∧ queues_ok s1 ∧ (next ∉ queued s1)
  ∧ algorithms s1 = algorithms s
  ∧ (time_slice s1 = time_slice s ∨ RR (time_slice s1) ∈ algorithms s).
Proof.
  intros [Hnd Hal] Hrnd Hready. rewrite Forall_forall in Hready.
  assert (Hsimple : ∀ r, queued s = [] → r ∈ ready →
            same_run_state s s ∧ alive (processes s) r ∧ queues_ok s
            ∧ (r ∉ queued s) ∧ algorithms s = algorithms s
            ∧ (time_slice s = time_slice s ∨ RR (time_slice s) ∈ algorithms s)).
  { intros r Hq Hr. split; [apply same_run_state_refl|]. split; [by apply Hready|].
    split; [done|]. rewrite Hq. split; [apply not_elem_of_nil|]. auto. }
  unfold get_next_process. destruct (variant s) as [| | |pre|tq q|qc qs] eqn:Hv.
  - unfold FCFSScheduler.get_next_process.
    destruct (py_min _ _) as [r|] eqn:Hm; simpl; [|done]. intros [= <- <-].
    apply Hsimple; [by unfold queued; rewrite Hv|by eapply py_min_elem].
  - unfold SJFScheduler.get_next_process.
    destruct (current_still_ready s ready) eqn:Hc.
    + apply current_still_ready_inv in Hc as (c & Hcur & Hc).
      rewrite Hcur. intros [= <- <-].
      apply Hsimple; [by unfold queued; rewrite Hv|done].
    + destruct (py_min _ _) as [r|] eqn:Hm; simpl; [|done]. intros [= <- <-].
      apply Hsimple; [by unfold queued; rewrite Hv|by eapply py_min_elem].
  - unfold SRTFScheduler.get_next_process.
    destruct (py_min _ _) as [r|] eqn:Hm; simpl; [|done]. intros [= <- <-].
    apply Hsimple; [by unfold queued; rewrite Hv|by eapply py_min_elem].
  - unfold PriorityScheduler.get_next_process.
    destruct (negb pre && current_still_ready s ready) eqn:Hc.
    + apply andb_true_iff in Hc as [_ Hc].
      apply current_still_ready_inv in Hc as (c & Hcur & Hc).
      rewrite Hcur. intros [= <- <-].
      apply Hsimple; [by unfold queued; rewrite Hv|done].
    + destruct (py_max _ _) as [r|] eqn:Hm; simpl; [|done]. intros [= <- <-].
      apply Hsimple; [by unfold queued; rewrite Hv|by eapply py_max_elem].
  - unfold RoundRobinScheduler.get_next_process.
    rewrite updated_queue_spec by done.
    unfold queued in Hnd, Hal. rewrite Hv in Hnd, Hal.
    pose proof (rr_expected_queue_NoDup s q ready Hnd Hrnd) as Hnd'.
    pose proof (rr_expected_queue_elem s q ready) as Hel.
    rewrite Forall_forall in Hal.
    assert (Hal' : ∀ x, x ∈ rr_expected_queue s q ready → alive (processes s) x).
    { intros x [?|?]%Hel; auto. }
    destruct (rr_expected_queue s q ready) as [|r q'] eqn:E; [done|].
    intros [= <- <-]. apply NoDup_cons in Hnd' as [Hr Hq'].
    split; [apply same_run_state_set_variant|].
    split; [apply Hal'; apply elem_of_cons; by left|].
    split; [|split; [done|]].
    + split; [done|]. simpl. apply Forall_forall. intros x Hx.
      apply Hal'. apply elem_of_cons. by right.
    + unfold algorithms. rewrite Hv. simpl. auto.
  - unfold MultilevelQueueScheduler.get_next_process,
      MultilevelQueueScheduler.updated_queues.
    unfold queued in Hnd, Hal. rewrite Hv in Hnd, Hal.
    rewrite Forall_forall in Hal.
    destruct (MultilevelQueueScheduler.enqueue_arrivals qc s qs ready)
      as [qs1|] eqn:E1; simpl; [|done].
    destruct (MultilevelQueueScheduler.requeue_current qc s qs1 ready)
      as [qs2|] eqn:E2; simpl; [|done].
    destruct (enqueue_arrivals_spec _ _ _ _ _ E1 Hnd) as (Hnd1 & Hel1 & Ha1).
    destruct (requeue_current_spec _ _ _ _ _ E2 Hnd1) as (Hnd2 & Hel2 & Ha2).
    assert (Hal2 : ∀ x, x ∈ tiers_queued qs2 → alive (processes s) x).
    { intros x [[?|?]%Hel1|?]%Hel2; auto. }
    destruct (MultilevelQueueScheduler.select_from_queues qs2)
      as [[[r qs3] slice]|] eqn:E3.
    + apply select_from_queues_Some in E3 as (Hq3 & Ha3 & Hs3).
      rewrite Hq3 in Hnd2, Hal2. apply NoDup_cons in Hnd2 as [Hr Hnd3].
      intros [= <- <-].
      assert (Hfr : ∀ s', same_run_state s s' → variant s' = VMultilevel qc qs3 →
                (time_slice s' = time_slice s ∨ RR (time_slice s') ∈ algorithms s) →
                same_run_state s s' ∧ alive (processes s) r ∧ queues_ok s'
                ∧ (r ∉ queued s') ∧ algorithms s' = algorithms s
                ∧ (time_slice s' = time_slice s ∨ RR (time_slice s') ∈ algorithms s)).
      { intros s' Hsame Hv' Hts. split; [done|].
        split; [apply Hal2; apply elem_of_cons; by left|].
        destruct Hsame as (Hps & _).
        split; [|split; [|split; [|done]]].
        - unfold queues_ok, queued. rewrite Hv', Hps.
          split; [done|]. apply Forall_forall. intros x Hx.
          apply Hal2. apply elem_of_cons. by right.
        - unfold queued. by rewrite Hv'.
        - unfold algorithms. rewrite Hv', Hv. congruence. }
      destruct slice as [q|]; apply Hfr; try done; try by repeat split.
      * right. simpl. unfold algorithms. rewrite Hv, <- Ha1, <- Ha2. by apply Hs3.
      * by left.
    + apply select_from_queues_None in E3.
      destruct ready as [|r0 ready']; [done|].
      destruct (py_min _ _) as [r|] eqn:Hm; simpl; [|done]. intros [= <- <-].
      split; [apply same_run_state_set_variant|].
      split; [apply Hready; by eapply py_min_elem|].
      unfold queues_ok, queued, algorithms. simpl. rewrite E3, Hv.
      split; [split; [apply NoDup_nil_2|apply Forall_nil_2]|].
      split; [apply not_elem_of_nil|]. split; [congruence|by left].
Qed.

(** ** One pass through the loop *)

Lemma foldl_min_lower c a l :
  c < a → Forall (λ x, c < x) l → c < foldl Z.min a l.
Proof.
  revert a. induction l as [|x l IH]; intros a Ha Hl; simpl; [done|].
  apply Forall_cons in Hl as [Hx Hl]. apply IH; [lia|done].
Qed.

Lemma next_arrival_gt s t : next_arrival s = Some t → current_time s < t.
Proof.
  unfold next_arrival.
  destruct (filter _ _) as [|p ps] eqn:Hf; [done|]. intros [= <-].
  assert (Hall : Forall (λ p, current_time s < Process.arrival_time p) (p :: ps)).
  { rewrite <- Hf. apply Forall_forall.
    intros x [[_ Hx] _]%list_elem_of_filter. done. }
  apply Forall_cons in Hall as [Hp Hps].
  apply foldl_min_lower; [done|]. by apply Forall_fmap.
Qed.

Lemma reset_variant_tiers qc (qs qs' : list tier) :
  tier_algorithm <$> qs' = tier_algorithm <$> qs →
  reset_variant (VMultilevel qc qs') = reset_variant (VMultilevel qc qs).
Proof.
  intros H. simpl. f_equal.
  change (λ t, mk_tier (tier_algorithm t) [])
    with ((λ a, mk_tier a []) ∘ tier_algorithm).
  by rewrite !list_fmap_compose, H.
Qed.

Lemma get_next_process_variant s ready r s1 :
  get_next_process s ready = Some (r, s1) →
  algorithms s1 = algorithms s →
  reset_variant (variant s1) = reset_variant (variant s).
Proof.
  unfold get_next_process, algorithms.
  destruct (variant s) as [| | |pre|tq q|qc qs] eqn:Hv.
  - unfold FCFSScheduler.get_next_process.
    destruct (py_min _ _); simpl; [|done]. intros [= _ <-]. by rewrite Hv.
  - unfold SJFScheduler.get_next_process.
    destruct (current_still_ready _ _); [by intros [= _ <-]; rewrite Hv|].
    destruct (py_min _ _); simpl; [|done]. intros [= _ <-]. by rewrite Hv.
  - unfold SRTFScheduler.get_next_process.
    destruct (py_min _ _); simpl; [|done]. intros [= _ <-]. by rewrite Hv.
  - unfold PriorityScheduler.get_next_process.
    destruct (_ && _); [by intros [= _ <-]; rewrite Hv|].
    destruct (py_max _ _); simpl; [|done]. intros [= _ <-]. by rewrite Hv.
  - unfold RoundRobinScheduler.get_next_process.
    destruct (RoundRobinScheduler.updated_queue _ _ _); by intros [= _ <-].
  - unfold MultilevelQueueScheduler.get_next_process.
    destruct (MultilevelQueueScheduler.updated_queues _ _ _ _) as [qs1|];
      simpl; [|done].
    destruct (MultilevelQueueScheduler.select_from_queues qs1)
      as [[[r1 qs2] [q|]]|].
    + intros [= _ <-]. simpl. intros H. by apply reset_variant_tiers.
    + intros [= _ <-]. simpl. intros H. by apply reset_variant_tiers.
    + destruct ready; [|destruct (py_min _ _); simpl; [|done]];
        intros [= _ <-]; simpl; intros H; by apply reset_variant_tiers.
Qed.

Lemma iteration_step s s' :
  run_inv s → iteration s = Continue s' → step_rel s s' ∧ run_inv s'.
Proof.
  intros [Hok Hq]. unfold iteration.
  destruct (ready_refs s) as [|r0 ready'] eqn:Hr.
  - destruct (next_arrival s) as [t|] eqn:Hn; [|done]. intros [= <-].
    pose proof (next_arrival_gt _ _ Hn) as Ht.
    rewrite bool_decide_eq_true_2 by done.
    split; [by eapply step_idle|]. by split.
  - rewrite <- Hr.
    destruct (get_next_process s (ready_refs s)) as [[[next|] s1]|] eqn:Hg;
      try done.
    intros [= <-].
    destruct (get_next_process_sound _ _ _ _ Hq (ready_refs_NoDup s)
                (ready_refs_alive s) Hg)
      as (Hsame & Hnext & [Hnd1 Hal1] & Hnq & Halg & Hslice).
    destruct Hsame as (Hps & Hct & Hcso & Hcur & Hcomp & Hlog).
    assert (Hok1 : Forall proc_ok (processes s1)) by by rewrite Hps.
    pose proof (context_switch_spec (ready_refs s) next s1 Hok1) as Hcs.
    set (s2 := context_switch (ready_refs s) next s1) in *. simpl in Hcs.
    destruct Hcs as (Hps2 & Hv2 & Hts2 & Hcur2 & Hcomp2 & Hcso2 & Hcs).
    assert (Hok2 : Forall proc_ok (processes s2)) by by rewrite Hps2.
    assert (Hnext2 : alive (processes s2) next) by by rewrite Hps2, Hps.
    pose proof (dispatch_spec (ready_refs s) next s2 Hok2 Hnext2) as Hd.
    set (s3 := dispatch (ready_refs s) next s2) in *. simpl in Hd.
    destruct Hd as (Hps3 & Hp' & Hv3 & Hts3 & Hcso3 & Hct3 & Hlog3 & Hcur3 & Hcomp3).
    assert (Hderef : deref s2 next = deref s next).
    { unfold deref. by rewrite Hps2, Hps. }
    assert (Hqd : queued s3 = queued s1).
    { unfold queued. by rewrite Hv3, Hv2. }
    rewrite Hderef, Hps2, Hps, Hts2 in *.
    split.
    + apply step_dispatch
        with (cs_log := if decide (current_time s2 = current_time s)
                        then [] else [(CS, current_time s,
                                       current_time s + context_switch_overhead s)])
             (t0 := current_time s2) (next := next); rewrite ?Hts3; try done.
      * destruct Hcs as [[Ht _]|(Hpos & Ht & _)].
        -- left. rewrite decide_True by congruence. split; [done|congruence].
        -- right. rewrite decide_False by lia. split; [lia|]. split; [done|lia].
      * rewrite Hlog3. destruct Hcs as [[Ht Hl]|(Hpos & Ht & Hl)].
        -- rewrite decide_True by congruence. rewrite Hl, Hlog. done.
        -- rewrite decide_False by lia. rewrite Hl, Hlog, Hct, Hcso.
           by rewrite <- app_assoc.
      * unfold algorithms in *. by rewrite Hv3, Hv2.
      * congruence.
      * rewrite Hcomp3, Hcomp2, Hcomp. done.
      * by rewrite Hqd.
      * rewrite Hv3, Hv2. by eapply get_next_process_variant.
    + split; [rewrite Hps3; by apply Forall_insert|].
      unfold queues_ok. rewrite Hqd, Hps3. split; [done|].
      rewrite Forall_forall in Hal1. apply Forall_forall. intros x Hx.
      apply alive_insert_ne; [by intros ->|]. by apply Hal1.
Qed.

(** ** The invariant holds all along a run *)

Lemma tiers_queued_reset (queues : list tier) :
  tiers_queued ((λ t, mk_tier (tier_algorithm t) []) <$> queues) = [].
Proof. unfold tiers_queued. induction queues as [|t qs IH]; csimpl; done. Qed.

Lemma queued_reset s : queued (reset s) = [].
Proof.
  unfold queued. simpl. destruct (variant s); simpl; try done.
  apply tiers_queued_reset.
Qed.

Lemma reset_inv s : run_inv (reset s).
Proof.
  split.
  - simpl. apply Forall_fmap, Forall_forall. intros p _. apply reset_ok.
  - unfold queues_ok. rewrite queued_reset.
    split; [apply NoDup_nil_2|apply Forall_nil_2].
Qed.

(** Induction along a run, with the invariant at hand. *)
Lemma reaches_from_inv until_time (P : Scheduler → Prop) s :
  run_inv s → P s →
  (∀ s1 s2, run_inv s1 → P s1 → step_rel s1 s2 → P s2) →
  ∀ s', reaches until_time s s' → P s' ∧ run_inv s'.
Proof.
  intros Hinv HP Hstep s' Hreach.
  induction Hreach as [|s1 s2 _ [IHP IHinv] _ Hit]; [done|].
  destruct (iteration_step _ _ IHinv Hit) as [Hrel Hinv2].
  split; [by apply (Hstep s1 s2)|done].
Qed.

Lemma reaches_inv until_time s0 s : reaches until_time (reset s0) s → run_inv s.
Proof.
  intros H. by apply (reaches_from_inv until_time (λ _, True) (reset s0)
                        (reset_inv s0) I (λ _ _ _ _ _, I)).
Qed.

Lemma reaches_trans until_time s1 s2 s3 :
  reaches until_time s1 s2 → reaches until_time s2 s3 → reaches until_time s1 s3.
Proof.
  intros H12 H23. induction H23; [done|]. by eapply reaches_step.
Qed.

(** ** Fuel *)

Lemma run_loop_more_fuel n k until_time s s' :
  run_loop n until_time s = Returned s' →
  run_loop (n + k) until_time s = Returned s'.
Proof.
  revert s. induction n as [|n IH]; intros s; simpl.
  - destruct (loop_cond until_time s) eqn:Hc; [done|].
    intros [= <-]. destruct k; simpl; by rewrite Hc.
  - destruct (loop_cond until_time s); [|done].
    destruct (iteration s); auto.
Qed.

Lemma run_loop_returned_unique n m until_time s s1 s2 :
  run_loop n until_time s = Returned s1 →
  run_loop m until_time s = Returned s2 → s1 = s2.
Proof.
  intros H1 H2.
  apply (run_loop_more_fuel _ m) in H1. apply (run_loop_more_fuel _ n) in H2.
  rewrite (Nat.add_comm m n) in H2. congruence.
Qed.

Lemma iteration_Break s s' : iteration s = Break s' → s' = s.
Proof.
  unfold iteration.
  destruct (ready_refs s); [|by destruct (get_next_process _ _) as [[[]]|]].
  destruct (next_arrival s); [done|]. by intros [= <-].
Qed.

Lemma run_loop_reaches n until_time s s' :
  run_loop n until_time s = Returned s' →
  reaches until_time s s' ∧ (loop_cond until_time s' = false ∨ iteration s' = Break s').
Proof.
  revert s. induction n as [|n IH]; intros s; simpl.
  - destruct (loop_cond until_time s) eqn:Hc; [done|].
    intros [= <-]. split; [apply reaches_refl|by left].
  - destruct (loop_cond until_time s) eqn:Hc.
    + destruct (iteration s) as [s1|s1|] eqn:Hi; [| |done].
      * intros [Hr Hend]%IH. split; [|done].
        eapply reaches_trans; [|done].
        eapply reaches_step; [apply reaches_refl|done|done].
      * intros [= <-]. pose proof (iteration_Break _ _ Hi) as ->.
        split; [apply reaches_refl|by right].
    + intros [= <-]. split; [apply reaches_refl|by left].
Qed.

Lemma run_steps_reaches n until_time s s' :
  run_steps n until_time s = Some s' → reaches until_time s s'.
Proof.
  revert s. induction n as [|n IH]; intros s; simpl.
  - intros [= <-]. apply reaches_refl.
  - destruct (loop_cond until_time s) eqn:Hc; [|done].
    destruct (iteration s) as [s1| |] eqn:Hi; try done.
    intros Hr%IH. eapply reaches_trans; [|done].
    eapply reaches_step; [apply reaches_refl|done|done].
Qed.

(** ** Waiting time *)

(** Between two passes of the loop no process is READY or WAITING, which are
    the only states in which [wait] counts: the waiting time of every process
    is 0 all along a run. *)
Lemma waiting_time_never_accrues until_time s0 s :
  reaches until_time (reset s0) s →
  Forall (λ p, Process.waiting_time p = 0) (processes s).
Proof.
  intros [Hok _]%reaches_inv. eapply Forall_impl; [done|]. by intros p [? _].
Qed.

(** C10. [wait] leaves the waiting time of a process in state NEW as it is,
    whatever the duration; hence at every point of a run a process that has
    not been executed yet is still NEW and has accrued no waiting time,
    however long other processes have run since it arrived. *)
Theorem new_process_accrues_no_waiting_time :
  (∀ p d, Process.state p = Process.NEW →
          Process.waiting_time (Process.wait p d) = Process.waiting_time p)
  ∧ (∀ until_time s0 s (r : nat) p,
       reaches until_time (reset s0) s →
       processes s !! r = Some p →
       Process.execution_history p = [] →
       Process.state p = Process.NEW ∧ Process.waiting_time p = 0).
Proof.
  split.
  - intros p d Hs. unfold Process.wait.
    rewrite bool_decide_eq_false_2; [done|]. rewrite Hs. by intros [?|?].
  - intros until_time s0 s r p [Hok _]%reaches_inv Hp Hh.
    destruct (Forall_lookup_1 _ _ _ _ Hok Hp) as [Hw Hst].
    split; [|done].
    destruct (Process.state p); try done.
    + by destruct Hst as (_ & _ & _ & _ & Hne).
    + by destruct Hst as (_ & _ & _ & Hne).
Qed.

(** After two passes of the FCFS scenario, P1 has run from 0 to 2; P2 arrived
    at 1, has not run, and has accrued nothing. *)
Lemma new_process_accrues_no_waiting_time_witness :
  ∃ s p, run_steps 2 None (reset scenario_fcfs) = Some s
         ∧ processes s !! 1%nat = Some p
         ∧ current_time s = 2
         ∧ Process.is_arrived p (current_time s) = true
         ∧ Process.state p = Process.NEW ∧ Process.waiting_time p = 0.
Proof.
  eexists _, _. split; [vm_compute; reflexivity|].
  split; [reflexivity|]. split; [reflexivity|]. split; [reflexivity|].
  eapply (proj2 new_process_accrues_no_waiting_time None scenario_fcfs _ 1%nat).
  - apply (run_steps_reaches 2). vm_compute. reflexivity.
  - reflexivity.
  - reflexivity.
Defined.

(** C1 (the code departs from the claim).  In the FCFS scenario P2 arrives at
    1 and finishes at 8 after 3 ticks of execution: its turnaround time is 7,
    but its waiting time is 0, so that waiting plus executed time is 3. *)
Theorem waiting_time_misses_turnaround :
  ∃ s p, run 9 None scenario_fcfs = Returned s
         ∧ processes s !! 1%nat = Some p
         ∧ Process.is_terminated p = true
         ∧ Process.waiting_time p = 0
         ∧ Process.executed_time p = 3
         ∧ Process.get_turnaround_time p = Some 7
         ∧ Some (Process.waiting_time p + Process.executed_time p)
           ≠ Process.get_turnaround_time p.
Proof.
  eexists _, _. split; [vm_compute; reflexivity|].
  repeat (split; [reflexivity|]). done.
Qed.

(** ** The FCFS scenario *)

Lemma run_more_fuel n k until_time s s' :
  run n until_time s = Returned s' → run (n + k) until_time s = Returned s'.
Proof. apply run_loop_more_fuel. Qed.

Lemma run_returned_unique n m until_time s s1 s2 :
  run n until_time s = Returned s1 → run m until_time s = Returned s2 → s1 = s2.
Proof. apply run_loop_returned_unique. Qed.

(** C2, as stated, fails: no run of the scenario returns with the log of
    three entries and the waiting times 0, 4 and 6. *)
Lemma scenario_fcfs_claim_fails :
  ¬ ∃ fuel s, run fuel None scenario_fcfs = Returned s
              ∧ execution_log s = scenario_fcfs_log
              ∧ Process.waiting_time <$> processes s = scenario_fcfs_waiting_times.
Proof.
  intros (fuel & s & Hrun & Hlog & _).
  assert (H9 : ∃ s9, run 9 None scenario_fcfs = Returned s9
                     ∧ execution_log s9 = scenario_fcfs_tick_log).
  { eexists. split; [vm_compute; reflexivity|reflexivity]. }
  destruct H9 as (s9 & H9 & Hlog9).
  rewrite (run_returned_unique _ _ _ _ _ _ Hrun H9) in Hlog.
  rewrite Hlog9 in Hlog. discriminate Hlog.
Qed.

(** C2 (amended).  With the default time slice of 1 the FCFS run of the
    scenario returns, whatever fuel is left over, with the log of nine
    one-tick entries; merging the consecutive entries of each process gives
    (P1,0,5), (P2,5,8), (P3,8,9). *)
Theorem scenario_fcfs_tick_by_tick k :
  ∃ s, run (9 + k) None scenario_fcfs = Returned s
       ∧ execution_log s = scenario_fcfs_tick_log
       ∧ coalesce (execution_log s) = scenario_fcfs_log
       ∧ completed_processes s = [0; 1; 2]%nat.
Proof.
  eexists. split.
  - apply run_more_fuel. vm_compute. reflexivity.
  - repeat split.
Qed.

(** ** The empty workload *)

(** C9. With no process the run returns at once, before any pass through the
    loop, with nothing completed, an empty log and the clock at 0; and the
    metrics of an empty list of completed processes are all 0, whatever the
    total time, without any division. *)
Theorem empty_workload fuel until_time s0 total_time scheduler_name :
  processes s0 = [] →
  ∃ s, run fuel until_time s0 = Returned s
       ∧ run 0 until_time s0 = Returned s
       ∧ completed_processes s = []
       ∧ execution_log s = []
       ∧ current_time s = 0
       ∧ PerformanceMetrics.calculate_metrics (completed_objects s)
           total_time scheduler_name
         = Some (PerformanceMetrics.mk_metrics scheduler_name 0 0 0 0 0)
       ∧ get_average_waiting_time s = Some 0%Q
       ∧ get_average_turnaround_time s = Some 0%Q
       ∧ get_average_response_time s = Some 0%Q
       ∧ get_cpu_utilization s = 0%Q.
Proof.
  intros Hps. exists (reset s0).
  assert (Hc : loop_cond until_time (reset s0) = false).
  { unfold loop_cond. simpl. rewrite Hps. done. }
  unfold run. split; [destruct fuel; simpl; by rewrite Hc|].
  split; [simpl; by rewrite Hc|]. repeat split.
Qed.

Lemma empty_workload_witness :
  ∃ s, run 5 (Some 3) (RoundRobinScheduler.init 4) = Returned s
       ∧ run 0 (Some 3) (RoundRobinScheduler.init 4) = Returned s
       ∧ completed_processes s = []
       ∧ execution_log s = []
       ∧ current_time s = 0
       ∧ PerformanceMetrics.calculate_metrics (completed_objects s) 0 "Round Robin (TQ=4)"
         = Some (PerformanceMetrics.mk_metrics "Round Robin (TQ=4)" 0 0 0 0 0)
       ∧ get_average_waiting_time s = Some 0%Q
       ∧ get_average_turnaround_time s = Some 0%Q
       ∧ get_average_response_time s = Some 0%Q
       ∧ get_cpu_utilization s = 0%Q.
Proof.
  apply (empty_workload 5 (Some 3) (RoundRobinScheduler.init 4) 0 "Round Robin (TQ=4)").
  reflexivity.
Defined.

(** ** The execution log *)

Lemma contiguous_app a log b log' c :
  contiguous a log b → contiguous b log' c → contiguous a (log ++ log') c.
Proof.
  revert a. induction log as [|[[x u] v] log IH]; intros a; simpl.
  - by intros ->.
  - intros (-> & Hlt & H) H'. auto.
Qed.

Lemma contiguous_le a log b : contiguous a log b → a ≤ b.
Proof.
  revert a. induction log as [|[[x u] v] log IH]; intros a; simpl.
  - intros ->. lia.
  - intros (-> & Hlt & H%IH). lia.
Qed.

Lemma contiguous_adjacent a log b (i : nat) (e1 e2 : log_entry) :
  contiguous a log b →
  log !! i = Some e1 → log !! S i = Some e2 → e1.2 = e2.1.2.
Proof.
  revert a i. induction log as [|[[x u] v] log IH]; intros a i; [done|].
  simpl. intros (-> & Hlt & H). destruct i as [|i]; simpl.
  - intros [= <-]. destruct log as [|[[y u'] v'] log]; [done|].
    simpl in *. intros [= <-]. simpl. by destruct H as (-> & _).
  - by apply (IH _ _ H).
Qed.

Lemma contiguous_from a log b (i : nat) (e : log_entry) :
  contiguous a log b → log !! i = Some e → a ≤ e.1.2 ∧ e.1.2 < e.2 ∧ e.2 ≤ b.
Proof.
  revert a i. induction log as [|[[x u] v] log IH]; intros a i; [done|].
  simpl. intros (-> & Hlt & H). destruct i as [|i]; simpl.
  - intros [= <-]. simpl. apply contiguous_le in H. lia.
  - intros He. destruct (IH _ _ H He). lia.
Qed.

Lemma contiguous_ordered a log b (i j : nat) (e1 e2 : log_entry) :
  contiguous a log b → (i < j)%nat →
  log !! i = Some e1 → log !! j = Some e2 → e1.2 ≤ e2.1.2.
Proof.
  revert a i j. induction log as [|[[x u] v] log IH]; intros a i j; [done|].
  simpl. intros (-> & Hlt & H) Hij. destruct j as [|j]; [lia|].
  destruct i as [|i]; simpl.
  - intros [= <-] He. simpl. by destruct (contiguous_from _ _ _ _ _ H He).
  - apply (IH _ _ _ H). lia.
Qed.

Lemma contiguous_cover a log b t :
  contiguous a log b →
  (a ≤ t < b ↔ ∃ e : log_entry, e ∈ log ∧ e.1.2 ≤ t < e.2).
Proof.
  revert a. induction log as [|[[x u] v] log IH]; intros a; simpl.
  - intros ->. split; [lia|]. by intros (e & ?%elem_of_nil & _).
  - intros (-> & Hlt & H). pose proof (contiguous_le _ _ _ H).
    specialize (IH _ H). split.
    + intros Ht. destruct (decide (t < v)).
      * exists (x, a, v). split; [by left|simpl; lia].
      * destruct (proj1 IH) as (e & He & Hte); [lia|].
        exists e. split; [by right|done].
    + intros (e & [->|He]%elem_of_cons & Hte); simpl in *; [lia|].
      destruct (proj2 IH) as [? ?]; [by exists e|]. lia.
Qed.

Lemma algorithms_reset s : algorithms (reset s) = algorithms s.
Proof.
  unfold algorithms. simpl. destruct (variant s); simpl; try done.
  rewrite <- list_fmap_compose. done.
Qed.

(** What the proof of contiguity carries along a run. *)
Lemma log_inv_step s s' :
  run_inv s →
  contiguous 0 (execution_log s) (current_time s)
  ∧ 0 < time_slice s
  ∧ Forall positive_quantum (algorithms s)
  ∧ Forall (λ p, 0 < Process.burst_time p) (processes s) →
  step_rel s s' →
  contiguous 0 (execution_log s') (current_time s')
  ∧ 0 < time_slice s'
  ∧ Forall positive_quantum (algorithms s')
  ∧ Forall (λ p, 0 < Process.burst_time p) (processes s').
Proof.
  intros [Hok _] (Hlog & Hts & Hq & Hb) [t Hr Ht ->|next cs_log t0 Hnext Hcs Hslice
    Hps Hlog' Htime Halg _ _ _ _].
  - simpl. repeat split; try done.
    eapply contiguous_app; [done|]. by simpl.
  - assert (Hts' : 0 < time_slice s').
    { destruct Hslice as [->|Hin]; [done|].
      rewrite Forall_forall in Hq. by apply (Hq _ Hin). }
    destruct (alive_lookup _ _ Hnext) as [Hl Hst].
    assert (Hrem : 0 < Process.remaining_time (deref s next)).
    { unfold deref.
      pose proof (Forall_lookup_1 _ _ _ _ Hok Hl) as [_ Hp].
      pose proof (Forall_lookup_1 _ _ _ _ Hb Hl) as Hbp. simpl in Hbp.
      destruct (Process.state (processes s !!! next)); try done.
      - destruct Hp as (_ & _ & _ & _ & ->). done.
      - by destruct Hp as (_ & _ & _ & ? & _). }
    split; [|split; [done|split; [by rewrite Halg|]]].
    + rewrite Hlog', Htime. eapply contiguous_app; [done|].
      destruct Hcs as [[-> ->]|(Hpos & -> & ->)]; simpl; repeat split; lia.
    + rewrite Hps. apply Forall_insert; [done|].
      destruct (execute_static (deref s next) t0 (time_slice s')) as (_ & _ & -> & _).
      by apply (Forall_lookup_1 _ _ _ _ Hb Hl).
Qed.

(** ** The timing fields *)

Lemma write_once_refl p : write_once p p.
Proof. by repeat split. Qed.

Lemma write_once_trans p1 p2 p3 :
  write_once p1 p2 → write_once p2 p3 → write_once p1 p3.
Proof. intros (A1 & A2 & A3) (B1 & B2 & B3). repeat split; auto. Qed.

Lemma execute_write_once p t q :
  proc_ok p → Process.state p ≠ Process.TERMINATED →
  write_once p (Process.execute p t q).1.
Proof.
  intros [_ Hok] Hst. unfold write_once, Process.execute.
  destruct (Process.state p) eqn:E; try done.
  - destruct Hok as (-> & -> & -> & _). by repeat split.
  - destruct Hok as ([a ->] & _ & -> & _).
    destruct (_ <=? _); simpl; by repeat split.
Qed.

Lemma step_write_once s s' (r : nat) p :
  run_inv s → step_rel s s' → processes s !! r = Some p →
  ∃ p', processes s' !! r = Some p' ∧ write_once p p'.
Proof.
  intros [Hok _] [t _ _ ->|next cs_log t0 Hnext _ _ Hps _ _ _ _ _ _ _] Hp.
  - exists p. split; [done|apply write_once_refl].
  - rewrite Hps. destruct (decide (r = next)) as [->|Hne].
    + eexists. split.
      * apply list_lookup_insert_eq. by eapply lookup_lt_Some.
      * destruct (alive_lookup _ _ Hnext) as [Hl Hst].
        unfold deref. rewrite Hl in Hp. injection Hp as <-.
        apply execute_write_once; [|done]. by eapply Forall_lookup_1.
    + exists p. split; [by rewrite list_lookup_insert_ne|apply write_once_refl].
Qed.

(** C7. From any point of a run to any later point of the same run, a
    start time, response time or finish time that is set keeps its value. *)
Theorem timing_fields_write_once until_time s0 s s' (r : nat) p p' :
  reaches until_time (reset s0) s →
  reaches until_time s s' →
  processes s !! r = Some p →
  processes s' !! r = Some p' →
  write_once p p'.
Proof.
  intros Hs%reaches_inv Hs' Hp Hp'.
  destruct (reaches_from_inv until_time
              (λ s2, ∃ p2, processes s2 !! r = Some p2 ∧ write_once p p2) s Hs)
    with (s' := s') as [(p2 & Hp2 & Hw) _]; [| |done|].
  - exists p. split; [done|apply write_once_refl].
  - intros s1 s2 Hinv (p1 & Hp1 & Hw1) Hstep.
    destruct (step_write_once _ _ _ _ Hinv Hstep Hp1) as (p2 & Hp2 & Hw2).
    exists p2. split; [done|by eapply write_once_trans].
  - congruence.
Qed.

(** In the Round Robin scenario P1 is first dispatched at 0 and P3 finishes
    at 7; both values are still there when the run is over. *)
Lemma timing_fields_write_once_witness :
  ∃ s s' p1 p1' p3 p3',
    run_steps 4 None (reset scenario_rr) = Some s
    ∧ run_steps 2 None s = Some s'
    ∧ processes s !! 0%nat = Some p1 ∧ processes s' !! 0%nat = Some p1'
    ∧ processes s !! 2%nat = Some p3 ∧ processes s' !! 2%nat = Some p3'
    ∧ Process.start_time p1 = Some 0 ∧ Process.finish_time p3 = Some 7
    ∧ Process.finish_time p1 = None ∧ Process.finish_time p1' = Some 12
    ∧ write_once p1 p1' ∧ write_once p3 p3'.
Proof.
  eexists _, _, _, _, _, _.
  split; [vm_compute; reflexivity|]. split; [vm_compute; reflexivity|].
  do 8 (split; [reflexivity|]).
  split.
  - eapply (timing_fields_write_once None scenario_rr _ _ 0%nat).
    + apply (run_steps_reaches 4). vm_compute. reflexivity.
    + apply (run_steps_reaches 2). vm_compute. reflexivity.
    + reflexivity.
    + reflexivity.
  - eapply (timing_fields_write_once None scenario_rr _ _ 2%nat).
    + apply (run_steps_reaches 4). vm_compute. reflexivity.
    + apply (run_steps_reaches 2). vm_compute. reflexivity.
    + reflexivity.
    + reflexivity.
Defined.

(** ** The discipline of the Round Robin queue *)

Lemma current_not_queued until_time s0 s c :
  reaches until_time (reset s0) s → current_process s = Some c → c ∉ queued s.
Proof.
  intros Hreach.
  destruct (reaches_from_inv until_time
              (λ s, ∀ c, current_process s = Some c → c ∉ queued s)
              (reset s0) (reset_inv s0)) with (s' := s) as [H _]; [| |done|by apply H].
  - by intros c'.
  - intros s1 s2 _ IH [t _ _ ->|next cs_log t0 _ _ _ _ _ _ _ _ Hcur _ Hnq] c'.
    + apply IH.
    + rewrite Hcur. destruct (Process.is_terminated _); [done|].
      by intros [= <-].
Qed.

(** The claim on the order of the newcomers fails: with P3 listed after P2
    but arriving before it, the call made at time 4 appends P1, P2, P3 in the
    order of the list, so that P2 (arrival 3) is queued ahead of P3
    (arrival 2). *)
Lemma rr_arrival_order_fails : ¬ rr_appends_in_arrival_order.
Proof.
  intros H.
  assert (Hs : ∃ s, run_steps 1 None (reset unsorted_rr) = Some s
                    ∧ variant s = VRoundRobin 4 []
                    ∧ RoundRobinScheduler.enqueue_new s ∅ [] (ready_refs s)
                      = [0; 1; 2]%nat
                    ∧ Process.arrival_time (deref s 1%nat) = 3
                    ∧ Process.arrival_time (deref s 2%nat) = 2).
  { eexists. split; [vm_compute; reflexivity|]. repeat split. }
  destruct Hs as (s & Hrun & Hv & Hq & Ha1 & Ha2).
  destruct (H None unsorted_rr s 4 [] (run_steps_reaches _ _ _ _ Hrun) Hv)
    as (fresh & Hfresh & Hord).
  simpl in Hfresh. change (list_to_set []) with (∅ : gset Z) in Hfresh.
  rewrite Hq in Hfresh. subst fresh.
  specialize (Hord 1%nat 2%nat 1%nat 2%nat). rewrite Ha1, Ha2 in Hord.
  specialize (Hord ltac:(lia) eq_refl eq_refl). lia.
Qed.

(** What the code does at every call made in a run, the part of the claim
    that holds included: the queue holds no process twice and does not hold
    the current process; the call brings it to the old queue, followed by the
    ready processes that were not queued, in the order of the ready list,
    with the still unfinished current process moved to the tail; this queue
    again holds no process twice; its head is returned and removed. *)
Lemma round_robin_queue_discipline until_time s0 s tq q :
  reaches until_time (reset s0) s →
  variant s = VRoundRobin tq q →
  let ready := ready_refs s in
  let q1 := RoundRobinScheduler.updated_queue s q ready in
  NoDup q
  ∧ (∀ c, current_process s = Some c → c ∉ q)
  ∧ q1 = rr_expected_queue s q ready
  ∧ sublist (rr_fresh s q ready) (seq 0 (length (processes s)))
  ∧ (∀ c, current_process s = Some c → current_still_ready s ready = true →
          ∃ front, q1 = front ++ [c] ∧ c ∉ front)
  ∧ NoDup q1
  ∧ (∀ r q', q1 = r :: q' →
       get_next_process s ready = Some (Some r, set_variant (VRoundRobin tq q') s)
       ∧ NoDup q' ∧ r ∉ q').
Proof.
  intros Hreach Hv ready q1.
  pose proof (reaches_inv _ _ _ Hreach) as [_ [Hnd _]].
  unfold queued in Hnd. rewrite Hv in Hnd.
  assert (Hq1 : q1 = rr_expected_queue s q ready).
  { apply updated_queue_spec, ready_refs_NoDup. }
  assert (Hnd1 : NoDup q1).
  { rewrite Hq1. apply rr_expected_queue_NoDup; [done|apply ready_refs_NoDup]. }
  split; [done|]. split; [|split; [done|split; [|split; [|split; [done|]]]]].
  - intros c Hc. pose proof (current_not_queued _ _ _ _ Hreach Hc) as Hn.
    unfold queued in Hn. by rewrite Hv in Hn.
  - etrans; [apply sublist_filter|apply sublist_filter].
  - intros c Hc Hready. rewrite Hq1. unfold rr_expected_queue.
    rewrite Hready, Hc. eexists. split; [done|].
    apply deque_remove_not_elem, NoDup_app. split; [done|]. split.
    + intros x Hx [_ Hn]%rr_fresh_elem. done.
    + apply NoDup_filter, ready_refs_NoDup.
  - intros r q' Hrq. rewrite Hrq in Hnd1. apply NoDup_cons in Hnd1 as [? ?].
    split; [|done]. unfold get_next_process. rewrite Hv.
    unfold RoundRobinScheduler.get_next_process. fold ready. fold q1.
    by rewrite Hrq.
Qed.

(** The call made at time 4 on the workload listed out of arrival order. *)
Lemma round_robin_queue_discipline_witness :
  ∃ s, run_steps 1 None (reset unsorted_rr) = Some s
       ∧ current_process s = Some 0%nat
       ∧ RoundRobinScheduler.updated_queue s [] (ready_refs s) = [1; 2; 0]%nat
       ∧ NoDup (RoundRobinScheduler.updated_queue s [] (ready_refs s))
       ∧ get_next_process s (ready_refs s)
         = Some (Some 1%nat, set_variant (VRoundRobin 4 [2; 0]%nat) s).
Proof.
  eexists. split; [vm_compute; reflexivity|].
  match goal with
  | |- current_process ?s = _ ∧ _ =>
      assert (Hr : reaches None (reset unsorted_rr) s)
        by (apply (run_steps_reaches 1); vm_compute; reflexivity);
      pose proof (round_robin_queue_discipline None unsorted_rr s 4 [] Hr eq_refl)
        as Hd
  end.
  cbv zeta in Hd. destruct Hd as (_ & _ & _ & _ & _ & Hnd & Hget).
  split; [reflexivity|]. split; [vm_compute; reflexivity|].
  split; [exact Hnd|]. apply (Hget 1%nat [2; 0]%nat). vm_compute. reflexivity.
Defined.

(** C6 (the code departs from the claim).  Round Robin with quantum 4 on
    P1(arrival 0, burst 10), P2(arrival 3, burst 1), P3(arrival 2, burst 1),
    listed in this order.  At the call made at time 4 the three are ready and
    none is queued: the loop appends them in the order of the list, P2 ahead
    of P3 although P3 arrived first; with P1 moved to the tail the queue is
    [P2, P3, P1], P2 is returned and runs from 4 to 5, P3 from 5 to 6.  The
    sort by (arrival_time, pid) that the same method applies in its fallback
    gives [P1, P3, P2]. *)
Theorem round_robin_enqueues_in_list_order :
  ∃ s,
    run_steps 1 None (reset unsorted_rr) = Some s
    ∧ current_time s = 4
    ∧ variant s = VRoundRobin 4 []
    ∧ current_process s = Some 0%nat
    ∧ ready_refs s = [0; 1; 2]%nat
    ∧ Process.arrival_time (deref s 1%nat) = 3
    ∧ Process.arrival_time (deref s 2%nat) = 2
    ∧ RoundRobinScheduler.enqueue_new s ∅ [] (ready_refs s) = [0; 1; 2]%nat
    ∧ ¬ arrival_ordered s (RoundRobinScheduler.enqueue_new s ∅ [] (ready_refs s))
    ∧ RoundRobinScheduler.updated_queue s [] (ready_refs s) = [1; 2; 0]%nat
    ∧ py_sorted (FCFSScheduler.key s) (ready_refs s) = [0; 2; 1]%nat
    ∧ get_next_process s (ready_refs s)
      = Some (Some 1%nat, set_variant (VRoundRobin 4 [2; 0]%nat) s)
    ∧ ∃ s', run 20 None unsorted_rr = Returned s'
            ∧ execution_log s'
              = [(Pid 1, 0, 4); (Pid 2, 4, 5); (Pid 3, 5, 6); (Pid 1, 6, 10);
                 (Pid 1, 10, 12)].
Proof.
  eexists. split; [vm_compute; reflexivity|].
  do 7 (split; [vm_compute; reflexivity|]).
  split.
  - intros H. specialize (H 1%nat 2%nat 1%nat 2%nat).
    vm_compute in H. by apply H.
  - do 3 (split; [vm_compute; reflexivity|]).
    eexists. split; [vm_compute; reflexivity|reflexivity].
Qed.

(** ** Selection in the multilevel queue *)

Lemma py_index_tier qc p (len : nat) :
  1 ≤ qc → (Z.to_nat qc ≤ len)%nat →
  ∃ i, py_index len (MultilevelQueueScheduler.get_queue_for_process qc p) = Some i
       ∧ (i < len)%nat.
Proof.
  intros Hqc Hlen. unfold MultilevelQueueScheduler.get_queue_for_process, py_index.
  set (i := Z.min _ _).
  assert (Hi : 0 ≤ i < Z.of_nat len) by lia.
  rewrite (proj2 (Z.leb_le 0 i)), (proj2 (Z.ltb_lt i _)) by lia. simpl.
  exists (Z.to_nat i). split; [done|lia].
Qed.

Lemma enqueue_arrivals_total qc s qs ready :
  1 ≤ qc → (Z.to_nat qc ≤ length qs)%nat →
  ∃ qs', MultilevelQueueScheduler.enqueue_arrivals qc s qs ready = Some qs'
         ∧ length qs' = length qs.
Proof.
  intros Hqc. unfold MultilevelQueueScheduler.enqueue_arrivals.
  revert qs. induction ready as [|r ready IH]; intros qs Hlen; simpl; [eauto|].
  destruct (negb _ && _).
  - unfold MultilevelQueueScheduler.append_to_tier.
    destruct (py_index_tier qc (deref s r) _ Hqc Hlen) as (i & -> & Hi). simpl.
    destruct (IH (alter (MultilevelQueueScheduler.tier_append r) i qs))
      as (qs' & Heq & Hl); [by rewrite length_alter|].
    exists qs'. split; [exact Heq|]. by rewrite Hl, length_alter.
  - by apply IH.
Qed.

Lemma requeue_current_total qc s qs ready :
  1 ≤ qc → (Z.to_nat qc ≤ length qs)%nat →
  ∃ qs', MultilevelQueueScheduler.requeue_current qc s qs ready = Some qs'
         ∧ length qs' = length qs.
Proof.
  intros Hqc Hlen. unfold MultilevelQueueScheduler.requeue_current.
  destruct (current_still_ready s ready); [|eauto].
  destruct (current_process s) as [c|]; [|eauto].
  destruct (py_index_tier qc (deref s c) _ Hqc Hlen) as (i & -> & Hi). simpl.
  destruct (lookup_lt_is_Some_2 qs i Hi) as [t ->]. simpl.
  destruct (tier_algorithm t); [|eauto].
  eexists. split; [done|]. by rewrite length_alter, length_fmap.
Qed.

Lemma select_from_queues_first qs (i : nat) t r q' :
  qs !! i = Some t → tier_queue t = r :: q' →
  (∀ (j : nat) t', (j < i)%nat → qs !! j = Some t' → tier_queue t' = []) →
  MultilevelQueueScheduler.select_from_queues qs
  = Some (r, <[i := mk_tier (tier_algorithm t) q']> qs,
          match tier_algorithm t with
          | RR time_quantum => Some time_quantum
          | FCFS => None
          end).
Proof.
  revert i. induction qs as [|t0 qs IH]; intros i; [done|].
  destruct i as [|i]; simpl.
  - intros [= ->] -> _. done.
  - intros Ht Hq Hbefore.
    rewrite (Hbefore 0%nat t0) by (done || lia).
    rewrite (IH i Ht Hq); [done|].
    intros j t' Hj. apply (Hbefore (S j)). lia.
Qed.

Lemma select_from_queues_empty qs :
  tiers_queued qs = [] → MultilevelQueueScheduler.select_from_queues qs = None.
Proof.
  unfold tiers_queued. induction qs as [|t qs IH]; csimpl; [done|].
  intros [-> Hq]%app_eq_nil. by rewrite IH.
Qed.

(** The claim on the selection fails on both counts in the run of one batch
    process of burst 3.  At the first call the process comes from the FCFS tier and the
    time slice after the call is 1, not 3.  At the second call the process
    is the current one, which is in no tier: every tier is empty, and the
    process is returned all the same. *)
Lemma mlq_selection_claim_fails :
  ¬ mlq_grants_quantum 3 (MultilevelQueueScheduler.init_queues 3)
      (reset batch_mlq) (ready_refs (reset batch_mlq))
  ∧ (∃ s queues,
       run_steps 1 None (reset batch_mlq) = Some s
       ∧ variant s = VMultilevel 3 queues
       ∧ ¬ mlq_returns_head 3 queues s (ready_refs s))
  ∧ ¬ mlq_selection_claim.
Proof.
  assert (H1 : ¬ mlq_grants_quantum 3 (MultilevelQueueScheduler.init_queues 3)
                 (reset batch_mlq) (ready_refs (reset batch_mlq))).
  { intros H.
    eapply (H 0%nat _ _ 2%nat (mk_tier FCFS [0%nat]) []).
    - vm_compute. reflexivity.
    - vm_compute. reflexivity.
    - reflexivity.
    - reflexivity.
    - intros [|[|j]] t' Hj; simpl; intros [= <-] || lia; done.
    - vm_compute. reflexivity. }
  split; [done|]. split.
  - eexists _, _. split; [vm_compute; reflexivity|]. split; [reflexivity|].
    intros H. edestruct (H 0%nat) as (qs & i & t & q' & Hqs & Hi & Hq & _).
    { vm_compute. reflexivity. }
    vm_compute in Hqs. injection Hqs as <-.
    destruct i as [|[|[|i]]]; simpl in Hi; try discriminate Hi;
      injection Hi as <-; discriminate Hq.
  - intros H. apply H1.
    by apply (H None batch_mlq (reset batch_mlq) 3
                (MultilevelQueueScheduler.init_queues 3) (reaches_refl _ _)).
Qed.

(** What a call does, as the code has it, with tiers for every index: it
    brings the tiers up to date and then, if some tier is not empty, returns
    the head of the first such tier, removed from it; a Round Robin tier sets
    the time slice to its quantum, the FCFS branch assigns none and leaves
    the time slice as it was.  If every tier is empty, the fallback returns
    the ready process of earliest arrival, then lowest pid. *)
Lemma multilevel_selection qc queues s ready :
  1 ≤ qc → (Z.to_nat qc ≤ length queues)%nat →
  ∃ qs,
    MultilevelQueueScheduler.updated_queues qc s queues ready = Some qs
    ∧ (∀ (i : nat) t r q',
         qs !! i = Some t → tier_queue t = r :: q' →
         (∀ (j : nat) t', (j < i)%nat → qs !! j = Some t' → tier_queue t' = []) →
         ∃ s',
           MultilevelQueueScheduler.get_next_process qc queues s ready
           = Some (Some r, s')
           ∧ variant s' = VMultilevel qc (<[i := mk_tier (tier_algorithm t) q']> qs)
           ∧ time_slice s' = match tier_algorithm t with
                             | RR time_quantum => time_quantum
                             | FCFS => time_slice s
                             end)
    ∧ (tiers_queued qs = [] → ready ≠ [] →
       ∃ r, py_min (FCFSScheduler.key s) ready = Some r
            ∧ MultilevelQueueScheduler.get_next_process qc queues s ready
              = Some (Some r, set_variant (VMultilevel qc qs) s)).
Proof.
  intros Hqc Hlen.
  destruct (enqueue_arrivals_total qc s queues ready Hqc Hlen) as (qs1 & H1 & Hl1).
  destruct (requeue_current_total qc s qs1 ready Hqc) as (qs2 & H2 & Hl2);
    [by rewrite Hl1|].
  exists qs2.
  assert (Hu : MultilevelQueueScheduler.updated_queues qc s queues ready = Some qs2).
  { unfold MultilevelQueueScheduler.updated_queues. rewrite H1. simpl. done. }
  split; [done|]. split.
  - intros i t r q' Hi Hq Hbefore.
    unfold MultilevelQueueScheduler.get_next_process. rewrite Hu. simpl.
    rewrite (select_from_queues_first _ _ _ _ _ Hi Hq Hbefore).
    destruct (tier_algorithm t); eexists; split; done.
  - intros Hempty Hready.
    unfold MultilevelQueueScheduler.get_next_process. rewrite Hu. simpl.
    rewrite (select_from_queues_empty _ Hempty).
    destruct ready as [|r0 ready']; [done|].
    destruct (py_min (FCFSScheduler.key s) (r0 :: ready')) as [r|] eqn:Hm; [|done].
    exists r. done.
Qed.

(** The calls made at times 0 and 1 in the run of a batch process and a
    system process: the batch process is served with slice 1, then the system
    process with the quantum 2 of its tier. *)
Lemma multilevel_selection_witness :
  ∃ s1 s2,
    MultilevelQueueScheduler.get_next_process 3
      (MultilevelQueueScheduler.init_queues 3) (reset mixed_mlq) [0%nat]
    = Some (Some 0%nat, s1)
    ∧ time_slice s1 = 1
    ∧ run_steps 1 None (reset mixed_mlq) = Some s2
    ∧ ∃ s3, MultilevelQueueScheduler.get_next_process 3
              (MultilevelQueueScheduler.init_queues 3) s2 [0; 1]%nat
            = Some (Some 1%nat, s3)
            ∧ time_slice s3 = 2.
Proof.
  destruct (multilevel_selection 3 (MultilevelQueueScheduler.init_queues 3)
              (reset mixed_mlq) [0%nat]) as (qs & Hqs & Hhead & _);
    [lia|simpl; lia|].
  vm_compute in Hqs. injection Hqs as <-.
  destruct (Hhead 2%nat (mk_tier FCFS [0%nat]) 0%nat []) as (s1 & Hg1 & _ & Hs1);
    [reflexivity|reflexivity| |].
  { intros [|[|j]] t' Hj; simpl; intros [= <-] || lia; done. }
  exists s1. eexists. split; [exact Hg1|]. split; [exact Hs1|].
  split; [vm_compute; reflexivity|].
  match goal with
  | |- ∃ s3, MultilevelQueueScheduler.get_next_process _ _ ?s2 _ = _ ∧ _ =>
      destruct (multilevel_selection 3 (MultilevelQueueScheduler.init_queues 3)
                  s2 [0; 1]%nat) as (qs & Hqs & Hhead' & _); [lia|simpl; lia|]
  end.
  vm_compute in Hqs. injection Hqs as <-.
  destruct (Hhead' 0%nat (mk_tier (RR 2) [1%nat]) 1%nat []) as (s3 & Hg3 & _ & Hs3);
    [reflexivity|reflexivity| |].
  { intros j t' Hj. lia. }
  exists s3. split; [exact Hg3|exact Hs3].
Defined.

(** C4 (the code departs from the claim).  Two batch processes P1 and P2
    (priority 0, burst 3, arrival 0) under the default three tiers: both
    belong to the FCFS tier.  The first call returns P1, the head of that
    tier, but the FCFS branch assigns no time slice: the slice stays at 1,
    not the burst of 3, and P1 runs for one tick.  At the next call P1, still
    unfinished, is in no tier, and P2 is returned: the two take turns tick by
    tick until both are done at time 6.  With P1 alone, the second call finds
    every tier empty and returns P1 through the fallback. *)
Theorem multilevel_fcfs_tier_takes_turns :
  MultilevelQueueScheduler.updated_queues 3 (reset two_batch_mlq)
    (MultilevelQueueScheduler.init_queues 3) (ready_refs (reset two_batch_mlq))
  = Some [mk_tier (RR 2) []; mk_tier (RR 4) []; mk_tier FCFS [0; 1]%nat]
  ∧ (∃ s1, get_next_process (reset two_batch_mlq) (ready_refs (reset two_batch_mlq))
           = Some (Some 0%nat, s1)
           ∧ time_slice s1 = 1
           ∧ Process.remaining_time (deref (reset two_batch_mlq) 0%nat) = 3)
  ∧ ¬ mlq_grants_quantum 3 (MultilevelQueueScheduler.init_queues 3)
        (reset two_batch_mlq) (ready_refs (reset two_batch_mlq))
  ∧ (∃ s s2,
       run_steps 1 None (reset two_batch_mlq) = Some s
       ∧ current_process s = Some 0%nat
       ∧ Process.remaining_time (deref s 0%nat) = 2
       ∧ ready_refs s = [0; 1]%nat
       ∧ get_next_process s (ready_refs s) = Some (Some 1%nat, s2)
       ∧ time_slice s2 = 1)
  ∧ (∃ s', run 20 None two_batch_mlq = Returned s'
           ∧ execution_log s'
             = [(Pid 1, 0, 1); (Pid 2, 1, 2); (Pid 1, 2, 3); (Pid 2, 3, 4);
                (Pid 1, 4, 5); (Pid 2, 5, 6)])
  ∧ (∃ s queues s2,
       run_steps 1 None (reset batch_mlq) = Some s
       ∧ variant s = VMultilevel 3 queues
       ∧ MultilevelQueueScheduler.updated_queues 3 s queues (ready_refs s)
         = Some queues
       ∧ tiers_queued queues = []
       ∧ get_next_process s (ready_refs s) = Some (Some 0%nat, s2)).
Proof.
  split; [vm_compute; reflexivity|]. split.
  { eexists. split; [vm_compute; reflexivity|]. split; reflexivity. }
  split.
  { intros H.
    eapply (H 0%nat _ _ 2%nat (mk_tier FCFS [0; 1]%nat) [1%nat]).
    - vm_compute. reflexivity.
    - vm_compute. reflexivity.
    - reflexivity.
    - reflexivity.
    - intros [|[|j]] t' Hj; simpl; intros [= <-] || lia; done.
    - vm_compute. reflexivity. }
  split.
  { eexists _, _. split; [vm_compute; reflexivity|].
    do 3 (split; [vm_compute; reflexivity|]).
    split; [vm_compute; reflexivity|reflexivity]. }
  split.
  { eexists. split; [vm_compute; reflexivity|reflexivity]. }
  eexists _, _, _. split; [vm_compute; reflexivity|].
  split; [reflexivity|]. split; [vm_compute; reflexivity|].
  split; [reflexivity|]. vm_compute. reflexivity.
Qed.

(** ** The tie-break of the Priority policy *)

Lemma tuple_ltb_3 a1 a2 a3 b1 b2 b3 :
  tuple_ltb [a1; a2; a3] [b1; b2; b3] = true
  ↔ a1 < b1 ∨ (a1 = b1 ∧ (a2 < b2 ∨ (a2 = b2 ∧ a3 < b3))).
Proof.
  simpl.
  destruct (a1 <? b1) eqn:H1; [apply Z.ltb_lt in H1; split; [lia|done]|].
  apply Z.ltb_ge in H1.
  destruct (b1 <? a1) eqn:H1'; [apply Z.ltb_lt in H1'; split; [done|lia]|].
  apply Z.ltb_ge in H1'.
  destruct (a2 <? b2) eqn:H2; [apply Z.ltb_lt in H2; split; [lia|done]|].
  apply Z.ltb_ge in H2.
  destruct (b2 <? a2) eqn:H2'; [apply Z.ltb_lt in H2'; split; [done|lia]|].
  apply Z.ltb_ge in H2'.
  destruct (a3 <? b3) eqn:H3; [apply Z.ltb_lt in H3; split; [lia|done]|].
  apply Z.ltb_ge in H3.
  destruct (b3 <? a3) eqn:H3'; [apply Z.ltb_lt in H3'|apply Z.ltb_ge in H3'];
    split; (done || lia).
Qed.

(** What [max] with the key (priority, -arrival_time, pid) returns: a ready
    process that no other ready process beats in the coded order. *)
Lemma priority_selects_maximum s ready r :
  py_max (PriorityScheduler.key s) ready = Some r →
  r ∈ ready ∧ ∀ x, x ∈ ready → coded_priority_order (deref s r) (deref s x).
Proof.
  intros Hm. split; [by eapply py_max_elem|].
  destruct ready as [|b l]; [done|]. simpl in Hm. injection Hm as <-.
  set (f := λ best y, if tuple_ltb (PriorityScheduler.key s best)
                           (PriorityScheduler.key s y) then y else best).
  assert (Hge : ∀ l b, coded_priority_order (deref s (foldl f b l)) (deref s b)
                       ∧ ∀ x, x ∈ l →
                           coded_priority_order (deref s (foldl f b l)) (deref s x)).
  { clear. intros l. induction l as [|y l IH]; intros b; simpl.
    - split; [unfold coded_priority_order; lia|]. by intros x ?%elem_of_nil.
    - destruct (IH (f b y)) as [H1 H2].
      assert (Hf : coded_priority_order (deref s (f b y)) (deref s b)
                   ∧ coded_priority_order (deref s (f b y)) (deref s y)).
      { unfold f, PriorityScheduler.key.
        destruct (tuple_ltb _ _) eqn:Hlt.
        - apply tuple_ltb_3 in Hlt. unfold coded_priority_order. lia.
        - assert (Hn : ¬ (tuple_ltb
                            [Process.priority (deref s b);
                             - Process.arrival_time (deref s b);
                             Process.pid (deref s b)]
                            [Process.priority (deref s y);
                             - Process.arrival_time (deref s y);
                             Process.pid (deref s y)] = true))
            by (by rewrite Hlt).
          rewrite tuple_ltb_3 in Hn. unfold coded_priority_order. lia. }
      destruct Hf as [Hfb Hfy].
      split.
      + unfold coded_priority_order in *. lia.
      + intros x [->|Hx]%elem_of_cons; [|by apply H2].
        unfold coded_priority_order in *. lia. }
  destruct (Hge l b) as [H1 H2].
  intros x [->|Hx]%elem_of_cons; [exact H1|by apply H2].
Qed.

(** C5 (the code departs from the claim).  With two ready processes of equal
    priority and equal arrival time and no current process, the
    non-preemptive Priority policy returns the one of pid 2, and the run
    starts with it; by the claim it is the one of pid 1. *)
Theorem priority_tie_prefers_higher_pid :
  current_process (reset tie_priority) = None
  ∧ ready_refs (reset tie_priority) = [0; 1]%nat
  ∧ PriorityScheduler.get_next_process false (reset tie_priority) [0; 1]%nat
    = Some (Some 1%nat, reset tie_priority)
  ∧ Process.pid (deref (reset tie_priority) 1%nat) = 2
  ∧ ¬ claimed_priority_order (deref (reset tie_priority) 1%nat)
        (deref (reset tie_priority) 0%nat)
  ∧ ∃ s, run_steps 1 None (reset tie_priority) = Some s
         ∧ execution_log s = [(Pid 2, 0, 1)].
Proof.
  split; [reflexivity|]. split; [reflexivity|]. split; [reflexivity|].
  split; [reflexivity|]. split.
  - unfold claimed_priority_order. vm_compute. intros [?|[_ [?|[_ ?]]]]; done.
  - eexists. split; [vm_compute; reflexivity|reflexivity].
Qed.

(** ** Running a scheduler again *)

Lemma reset_execute p t q :
  Process.reset (Process.execute p t q).1 = Process.reset p.
Proof.
  unfold Process.execute.
  destruct (Process.start_time p), (_ <=? _); reflexivity.
Qed.

Lemma reset_idempotent s : reset (reset s) = reset s.
Proof.
  unfold reset. simpl. f_equal.
  - rewrite <- list_fmap_compose. done.
  - destruct (variant s); simpl; try done.
    rewrite <- list_fmap_compose. done.
Qed.

Lemma reset_stable_step s s' :
  run_inv s → step_rel s s' → time_slice s' = time_slice s → reset s' = reset s.
Proof.
  intros _ [t _ _ ->|next cs_log t0 Hnext _ _ Hps _ _ _ Hcso _ _ _ Hvar] Hts;
    [done|].
  unfold reset. rewrite Hts, Hcso, Hvar, Hps. f_equal.
  rewrite list_fmap_insert, reset_execute.
  apply list_insert_id. rewrite list_lookup_fmap.
  destruct (alive_lookup _ _ Hnext) as [-> _]. done.
Qed.

(** All policies but the multilevel queue leave the time slice alone, so
    that [reset] brings the scheduler back to where the run started:
    running again gives the same result. *)
Lemma rerun_same_result n until_time s0 s1 :
  (∀ qc qs, variant s0 ≠ VMultilevel qc qs) →
  run n until_time s0 = Returned s1 →
  run n until_time s1 = Returned s1.
Proof.
  intros Hv Hrun. pose proof Hrun as Hrun'. unfold run in Hrun.
  apply run_loop_reaches in Hrun as [Hreach _].
  destruct (reaches_from_inv until_time
              (λ s, reset s = reset s0
                    ∧ algorithms s = [] ∧ time_slice s = time_slice s0)
              (reset s0) (reset_inv s0)) with (s' := s1)
    as [(Hreset & _) _]; [| |done|].
  - split; [apply reset_idempotent|]. split; [|done].
    rewrite algorithms_reset. unfold algorithms.
    destruct (variant s0); try done. by destruct (Hv queue_count queues).
  - intros s2 s3 Hinv (Hr & Ha & Hts) Hstep.
    assert (Hts' : time_slice s3 = time_slice s2).
    { destruct Hstep as [t _ _ ->|next cs_log t0 _ _ Hslice _ _ _ _ _ _ _ _ _];
        [done|].
      destruct Hslice as [?|Hin]; [done|]. rewrite Ha in Hin.
      by apply elem_of_nil in Hin. }
    split; [by rewrite (reset_stable_step _ _ Hinv Hstep Hts')|].
    split; [|congruence].
    destruct Hstep as [t _ _ ->|next cs_log t0 _ _ _ _ _ _ Halg _ _ _ _ _];
      [done|congruence].
  - unfold run. rewrite Hreset. exact Hrun'.
Qed.

(** C8 (the code departs from the claim).  A multilevel scheduler run twice
    on the same two processes: the first run starts with the time slice 1 of
    a new scheduler, the second with the quantum 2 that the first run left
    in [time_slice], which [reset] does not restore; the two logs differ. *)
Theorem rerun_multilevel_differs :
  ∃ s1 s2,
    run 3 None mixed_mlq = Returned s1
    ∧ run 3 None s1 = Returned s2
    ∧ Process.reset <$> processes s1 = Process.reset <$> processes mixed_mlq
    ∧ execution_log s1 = [(Pid 1, 0, 1); (Pid 2, 1, 3); (Pid 1, 3, 5)]
    ∧ execution_log s2 = [(Pid 1, 0, 2); (Pid 2, 2, 4); (Pid 1, 4, 5)]
    ∧ time_slice mixed_mlq = 1 ∧ time_slice s1 = 2
    ∧ execution_log s1 ≠ execution_log s2.
Proof.
  eexists _, _. split; [vm_compute; reflexivity|].
  split; [vm_compute; reflexivity|].
  do 5 (split; [reflexivity|]). done.
Qed.

(** ** Every run of a valid configuration returns *)

Lemma alive_remaining s next :
  run_inv s → valid_config s → alive (processes s) next →
  0 < Process.remaining_time (deref s next).
Proof.
  intros [Hok _] (Hb & _) Hnext.
  destruct (alive_lookup _ _ Hnext) as [Hl Hst]. unfold deref.
  pose proof (Forall_lookup_1 _ _ _ _ Hok Hl) as [_ Hp].
  pose proof (Forall_lookup_1 _ _ _ _ Hb Hl) as Hbp. simpl in Hbp.
  destruct (Process.state (processes s !!! next)); try done.
  - destruct Hp as (_ & _ & _ & _ & ->). done.
  - by destruct Hp as (_ & _ & _ & ? & _).
Qed.

Lemma valid_config_step s s' :
  valid_config s → step_rel s s' → valid_config s'.
Proof.
  intros (Hb & Hts & Hq) [t _ _ ->|next cs_log t0 Hnext _ Hslice Hps _ _ Halg
    _ _ _ _ _]; [done|].
  split; [|split].
  - rewrite Hps. destruct (alive_lookup _ _ Hnext) as [Hl _].
    apply Forall_insert; [done|].
    destruct (execute_static (deref s next) t0 (time_slice s')) as (_ & _ & -> & _).
    by apply (Forall_lookup_1 _ _ _ _ Hb Hl).
  - destruct Hslice as [->|Hin]; [done|].
    rewrite Forall_forall in Hq. by apply (Hq _ Hin).
  - by rewrite Halg.
Qed.

Lemma valid_config_reset s : valid_config s → valid_config (reset s).
Proof.
  intros (Hb & Hts & Hq). split; [|split; [done|by rewrite algorithms_reset]].
  simpl. apply Forall_fmap. eapply Forall_impl; [done|]. by intros p.
Qed.

Lemma tiers_ok_reset v : tiers_ok (reset_variant v) ↔ tiers_ok v.
Proof. destruct v; simpl; try done. by rewrite length_fmap. Qed.

Lemma tiers_ok_step s s' :
  tiers_ok (variant s) → step_rel s s' → tiers_ok (variant s').
Proof.
  intros Hok [t _ _ ->|next cs_log t0 _ _ _ _ _ _ _ _ _ _ _ Hvar]; [done|].
  apply tiers_ok_reset. rewrite Hvar. by apply tiers_ok_reset.
Qed.

Lemma rr_expected_queue_nonempty s q ready :
  ready ≠ [] → rr_expected_queue s q ready ≠ [].
Proof.
  intros Hready. unfold rr_expected_queue.
  destruct (current_still_ready s ready) eqn:Hc.
  - destruct (current_still_ready_inv _ _ Hc) as (c & -> & _).
    by destruct (deque_remove c _).
  - intros [-> Hfr]%app_eq_nil.
    destruct ready as [|r ready']; [done|].
    unfold rr_fresh in Hfr. rewrite filter_cons_True in Hfr; [done|].
    split; apply not_elem_of_nil.
Qed.

Lemma updated_queues_total qc s queues ready :
  1 ≤ qc → (Z.to_nat qc ≤ length queues)%nat →
  ∃ qs, MultilevelQueueScheduler.updated_queues qc s queues ready = Some qs.
Proof.
  intros Hqc Hlen.
  destruct (enqueue_arrivals_total qc s queues ready Hqc Hlen) as (qs1 & H1 & Hl1).
  destruct (requeue_current_total qc s qs1 ready Hqc) as (qs2 & H2 & Hl2);
    [by rewrite Hl1|].
  exists qs2. unfold MultilevelQueueScheduler.updated_queues. by rewrite H1.
Qed.

(** With something ready, the policy returns a process. *)
Lemma get_next_process_total s :
  tiers_ok (variant s) → ready_refs s ≠ [] →
  ∃ next s1, get_next_process s (ready_refs s) = Some (Some next, s1).
Proof.
  intros Hok Hready. unfold get_next_process.
  assert (Hmin : ∀ key : nat → list Z, ∃ r, py_min key (ready_refs s) = Some r).
  { intros key. destruct (ready_refs s); [done|]. simpl. eauto. }
  assert (Hmax : ∀ key : nat → list Z, ∃ r, py_max key (ready_refs s) = Some r).
  { intros key. destruct (ready_refs s); [done|]. simpl. eauto. }
  destruct (variant s) as [| | |pre|tq q|qc qs] eqn:Hv.
  - unfold FCFSScheduler.get_next_process.
    destruct (Hmin (FCFSScheduler.key s)) as [r ->]. simpl. eauto.
  - unfold SJFScheduler.get_next_process.
    destruct (current_still_ready s (ready_refs s)) eqn:Hc.
    + apply current_still_ready_inv in Hc as (c & -> & _). eauto.
    + destruct (Hmin (SJFScheduler.key s)) as [r ->]. simpl. eauto.
  - unfold SRTFScheduler.get_next_process.
    destruct (Hmin (SJFScheduler.key s)) as [r ->]. simpl. eauto.
  - unfold PriorityScheduler.get_next_process.
    destruct (negb pre && current_still_ready s (ready_refs s)) eqn:Hc.
    + apply andb_true_iff in Hc as [_ Hc].
      apply current_still_ready_inv in Hc as (c & -> & _). eauto.
    + destruct (Hmax (PriorityScheduler.key s)) as [r ->]. simpl. eauto.
  - unfold RoundRobinScheduler.get_next_process.
    rewrite updated_queue_spec by apply ready_refs_NoDup.
    pose proof (rr_expected_queue_nonempty s q _ Hready).
    destruct (rr_expected_queue s q (ready_refs s)); [done|eauto].
  - destruct Hok as [Hqc Hlen].
    destruct (updated_queues_total qc s qs (ready_refs s) Hqc Hlen) as (qs' & Hu).
    unfold MultilevelQueueScheduler.get_next_process. rewrite Hu. simpl.
    destruct (MultilevelQueueScheduler.select_from_queues qs')
      as [[[r qs''] slice]|]; [eauto|].
    destruct (Hmin (FCFSScheduler.key s)) as [r Hr].
    destruct (ready_refs s); [done|]. rewrite Hr. simpl. eauto.
Qed.

Lemma foldl_min_elem a (l : list Z) : foldl Z.min a l ∈ a :: l.
Proof.
  revert a. induction l as [|x l IH]; intros a; simpl; [by left|].
  specialize (IH (Z.min a x)). rewrite !elem_of_cons in *.
  destruct (Z.min_spec a x) as [[_ E]|[_ E]]; rewrite E in *; tauto.
Qed.

(** After an idle pass some process is ready. *)
Lemma next_arrival_ready s t e :
  next_arrival s = Some t →
  ready_refs (set_current_time t (log_append e s)) ≠ [].
Proof.
  unfold next_arrival.
  destruct (filter _ (processes s)) as [|p ps] eqn:Hf; [done|]. intros [= <-].
  pose proof (foldl_min_elem (Process.arrival_time p) (Process.arrival_time <$> ps))
    as Hin.
  change (Process.arrival_time p :: (Process.arrival_time <$> ps))
    with (Process.arrival_time <$> (p :: ps)) in Hin.
  apply list_elem_of_fmap in Hin as (p0 & Heq & Hp0).
  rewrite <- Hf in Hp0. apply list_elem_of_filter in Hp0 as [[Hterm _] Hp0].
  apply list_elem_of_lookup_1 in Hp0 as [i Hi].
  intros Hnil.
  assert (Hi' : i ∈ ready_refs (set_current_time
                                 (foldl Z.min (Process.arrival_time p)
                                    (Process.arrival_time <$> ps))
                                 (log_append e s))).
  { unfold ready_refs. apply list_elem_of_filter. simpl. split.
    - unfold deref. simpl. rewrite (list_lookup_total_correct _ _ _ Hi).
      split; [|done]. unfold Process.is_arrived. rewrite Heq. apply Z.leb_refl.
    - apply elem_of_seq. split; [lia|]. simpl. by eapply lookup_lt_Some. }
  rewrite Hnil in Hi'. by apply elem_of_nil in Hi'.
Qed.

Lemma sum_list_with_insert {A} (f : A → nat) (l : list A) (i : nat) x y :
  l !! i = Some y →
  (sum_list_with f (<[i:=x]> l) + f y = sum_list_with f l + f x)%nat.
Proof.
  revert i. induction l as [|z l IH]; intros [|i]; simpl; try done.
  - intros [= ->]. lia.
  - intros Hi. specialize (IH i Hi). lia.
Qed.

(** A pass that does not leave the loop brings the end closer. *)
Lemma passes_left_step s s' :
  run_inv s → valid_config s → step_rel s s' →
  (passes_left s' < passes_left s)%nat.
Proof.
  intros Hinv Hcfg Hstep. unfold passes_left.
  pose proof (valid_config_step _ _ Hcfg Hstep) as (_ & Hts' & _).
  destruct Hstep as [t Hready Ht -> Harr|next cs_log t0 Hnext _ _ Hps _ _ _ _ _ _ _ _].
  - rewrite Hready.
    assert (Hw : remaining_work (set_current_time t
                                   (log_append (IDLE, current_time s, t) s))
                 = remaining_work s) by done.
    rewrite Hw.
    destruct (ready_refs (set_current_time t _)) eqn:Hr; [|lia].
    by destruct (next_arrival_ready s t (IDLE, current_time s, t) Harr).
  - pose proof (alive_remaining _ _ Hinv Hcfg Hnext) as Hrem.
    destruct (alive_lookup _ _ Hnext) as [Hl _].
    assert (Hw : (remaining_work s' < remaining_work s)%nat).
    { unfold remaining_work. rewrite Hps.
      pose proof (sum_list_with_insert
                    (λ p, Z.to_nat (Process.remaining_time p)) (processes s) next
                    (Process.execute (deref s next) t0 (time_slice s')).1 _ Hl) as Hsum.
      assert (Hlt : (Z.to_nat (Process.remaining_time
                                 (Process.execute (deref s next) t0 (time_slice s')).1)
                     < Z.to_nat (Process.remaining_time (processes s !!! next)))%nat).
      { unfold deref in *. unfold Process.execute.
        destruct (Process.start_time _), (_ <=? _); simpl; lia. }
      simpl in Hsum. lia. }
    destruct (ready_refs s'), (ready_refs s); lia.
Qed.

Lemma iteration_progress s :
  run_inv s → tiers_ok (variant s) →
  iteration s = Break s ∨ ∃ s', iteration s = Continue s'.
Proof.
  intros Hinv Hok. unfold iteration.
  destruct (ready_refs s) as [|r0 ready'] eqn:Hr.
  - destruct (next_arrival s); eauto.
  - rewrite <- Hr.
    destruct (get_next_process_total s Hok) as (next & s1 & ->); [by rewrite Hr|].
    eauto.
Qed.

Lemma run_loop_returns n until_time s :
  run_inv s → valid_config s → tiers_ok (variant s) →
  (passes_left s < n)%nat →
  ∃ s', run_loop n until_time s = Returned s'.
Proof.
  revert s. induction n as [|n IH]; intros s Hinv Hcfg Hok Hn; [lia|].
  simpl. destruct (loop_cond until_time s); [|eauto].
  destruct (iteration_progress s Hinv Hok) as [->|[s' Hit]]; [eauto|].
  rewrite Hit. destruct (iteration_step _ _ Hinv Hit) as [Hstep Hinv'].
  apply IH; [done|by eapply valid_config_step|by eapply tiers_ok_step|].
  pose proof (passes_left_step _ _ Hinv Hcfg Hstep). lia.
Qed.

(** A run of a valid configuration returns, within a number of passes that
    is known beforehand: no exception escapes and the loop ends. *)
Lemma run_returns until_time s0 :
  valid_config s0 → tiers_ok (variant s0) →
  ∃ s, run (S (passes_left (reset s0))) until_time s0 = Returned s.
Proof.
  intros Hcfg Hok. unfold run. apply run_loop_returns.
  - apply reset_inv.
  - by apply valid_config_reset.
  - simpl. by apply tiers_ok_reset.
  - lia.
Qed.

(** ** The execution log of a run *)

Lemma contiguous_accounts s :
  contiguous 0 (execution_log s) (current_time s) → log_accounts_for_clock s.
Proof.
  intros Hc. split; [done|]. split; [|split].
  - intros i e1 e2. by apply (contiguous_adjacent _ _ _ _ _ _ Hc).
  - intros i j e1 e2 Hij H1 H2. split.
    + by destruct (contiguous_from _ _ _ _ _ Hc H1) as (_ & ? & _).
    + by eapply contiguous_ordered.
  - intros t. by apply contiguous_cover.
Qed.

(** C3. In a run of a valid configuration (positive bursts, time slice and
    quanta), under any policy, with or without a time budget: at every pass
    the entries of the execution log, IDLE and CS entries included, follow
    one another from time 0 to the clock, each of positive length and ending
    where the next one starts, so that a time lies in [0, clock) exactly when
    it lies in the span of an entry; and the run returns, with such a log. *)
Theorem execution_log_contiguous until_time s0 :
  valid_config s0 →
  (∀ s, reaches until_time (reset s0) s → log_accounts_for_clock s)
  ∧ (tiers_ok (variant s0) →
     ∃ s, run (S (passes_left (reset s0))) until_time s0 = Returned s
          ∧ log_accounts_for_clock s).
Proof.
  intros Hcfg.
  assert (Hall : ∀ s, reaches until_time (reset s0) s → log_accounts_for_clock s).
  { intros s Hreach. apply contiguous_accounts.
    refine (proj1 (proj1 (reaches_from_inv until_time _ (reset s0) (reset_inv s0)
                            _ log_inv_step s Hreach))).
    destruct (valid_config_reset _ Hcfg) as (Hb & Hts & Hq). by repeat split. }
  split; [done|]. intros Hok.
  destruct (run_returns until_time s0 Hcfg Hok) as [s Hs].
  exists s. split; [done|]. apply Hall.
  unfold run in Hs. by apply run_loop_reaches in Hs as [? _].
Qed.

(** The Round Robin scenario with a context switch of one tick: the log
    after four passes, and the log of the whole run. *)
Lemma execution_log_contiguous_witness :
  ∃ s s',
    run_steps 4 None (reset scenario_rr) = Some s
    ∧ execution_log s
      = [(Pid 1, 0, 2); (CS, 2, 3); (Pid 2, 3, 5); (CS, 5, 6); (Pid 3, 6, 7);
         (Pid 1, 7, 9)]
    ∧ log_accounts_for_clock s
    ∧ run (S (passes_left (reset scenario_rr))) None scenario_rr = Returned s'
    ∧ log_accounts_for_clock s'.
Proof.
  assert (Hcfg : valid_config scenario_rr).
  { split; [|split]; [repeat constructor|reflexivity|constructor]. }
  destruct (execution_log_contiguous None scenario_rr Hcfg) as [Hall Hrun].
  destruct (Hrun I) as (s' & Hs' & Hlog').
  eexists _, s'. split; [vm_compute; reflexivity|]. split; [reflexivity|].
  split; [|split; [exact Hs'|exact Hlog']].
  apply Hall. apply (run_steps_reaches 4). vm_compute. reflexivity.
Defined.

(** * Further properties of the code *)

(** ** One pass through the loop, in full *)

Lemma context_switch_fields ready next s :
  Forall proc_ok (processes s) →
  let s' := context_switch ready next s in
  processes s' = processes s ∧ variant s' = variant s
  ∧ time_slice s' = time_slice s ∧ current_process s' = current_process s
  ∧ completed_processes s' = completed_processes s
  ∧ context_switch_overhead s' = context_switch_overhead s
  ∧ current_time s' = dispatch_time s next
  ∧ execution_log s' =
      execution_log s
      ++ (if switch_charged s next
          then [(CS, current_time s, current_time s + context_switch_overhead s)]
          else []).
Proof.
  intros Hok. unfold context_switch, dispatch_time, switch_charged.
  destruct (_ && _); simpl.
  - rewrite wait_others_id by done. by repeat split.
  - rewrite app_nil_r. by repeat split.
Qed.

Lemma iteration_pass s s' :
  run_inv s → iteration s = Continue s' → pass s s' ∧ run_inv s'.
Proof.
  intros Hinv Hit. split; [|by destruct (iteration_step _ _ Hinv Hit)].
  destruct Hinv as [Hok Hq]. unfold iteration in Hit.
  destruct (ready_refs s) as [|r0 ready'] eqn:Hr.
  - destruct (next_arrival s) as [t|] eqn:Hn; [|done]. injection Hit as <-.
    pose proof (next_arrival_gt _ _ Hn) as Ht.
    rewrite bool_decide_eq_true_2 by done. by eapply pass_idle.
  - rewrite <- Hr in Hit.
    destruct (get_next_process s (ready_refs s)) as [[[next|] s1]|] eqn:Hg;
      try done.
    injection Hit as <-.
    destruct (get_next_process_sound _ _ _ _ Hq (ready_refs_NoDup s)
                (ready_refs_alive s) Hg)
      as (Hsame & Hnext & _).
    destruct Hsame as (Hps & Hct & Hcso & Hcur & Hcomp & Hlog).
    assert (Hok1 : Forall proc_ok (processes s1)) by by rewrite Hps.
    pose proof (context_switch_fields (ready_refs s) next s1 Hok1) as Hcs.
    set (s2 := context_switch (ready_refs s) next s1) in *. simpl in Hcs.
    destruct Hcs as (Hps2 & Hv2 & Hts2 & Hcur2 & Hcomp2 & Hcso2 & Hct2 & Hlog2).
    assert (Hok2 : Forall proc_ok (processes s2)) by by rewrite Hps2.
    assert (Hnext2 : alive (processes s2) next) by by rewrite Hps2, Hps.
    pose proof (dispatch_spec (ready_refs s) next s2 Hok2 Hnext2) as Hd.
    set (s3 := dispatch (ready_refs s) next s2) in *. simpl in Hd.
    destruct Hd as (Hps3 & _ & Hv3 & Hts3 & Hcso3 & Hct3 & Hlog3 & Hcur3 & Hcomp3).
    assert (Hderef : deref s2 next = deref s next).
    { unfold deref. by rewrite Hps2, Hps. }
    assert (Hsw : switch_charged s1 next = switch_charged s next).
    { unfold switch_charged. by rewrite Hcso, Hcur. }
    assert (Hdt : dispatch_time s1 next = dispatch_time s next).
    { unfold dispatch_time. by rewrite Hsw, Hct, Hcso. }
    rewrite Hderef, Hps2, Hps, Hts2, Hct2, Hdt in *.
    apply pass_dispatch with (next := next) (s1 := s1); try done.
    + by rewrite Hr.
    + by rewrite Hv3.
    + congruence.
    + rewrite Hlog3, Hlog2, Hsw, Hlog, Hct, Hcso. by rewrite <- app_assoc.
    + by rewrite Hcomp3, Hcomp2, Hcomp.
Qed.

(** Induction along a run, one pass at a time. *)
Lemma reaches_pass_ind until_time (P : Scheduler → Prop) s :
  run_inv s → P s →
  (∀ s1 s2, run_inv s1 → P s1 → pass s1 s2 → P s2) →
  ∀ s', reaches until_time s s' → P s'.
Proof.
  intros Hinv HP Hstep s' Hreach.
  assert (H : P s' ∧ run_inv s'); [|by destruct H].
  induction Hreach as [|s1 s2 _ [IHP IHinv] _ Hit]; [done|].
  destruct (iteration_pass _ _ IHinv Hit) as [Hpass Hinv2].
  split; [by apply (Hstep s1 s2)|done].
Qed.

Lemma selection_slice_positive s next s1 :
  run_inv s → valid_config s →
  get_next_process s (ready_refs s) = Some (Some next, s1) →
  0 < time_slice s1 ∧ algorithms s1 = algorithms s.
Proof.
  intros [_ Hq] (_ & Hts & Hpos) Hsel.
  destruct (get_next_process_sound _ _ _ _ Hq (ready_refs_NoDup s)
              (ready_refs_alive s) Hsel) as (_ & _ & _ & _ & Halg & Hslice).
  split; [|done]. destruct Hslice as [->|Hin]; [done|].
  rewrite Forall_forall in Hpos. by apply (Hpos _ Hin).
Qed.

Lemma valid_config_pass s s' :
  run_inv s → valid_config s → pass s s' → valid_config s'.
Proof.
  intros Hinv Hcfg [t _ _ _ ->|next s1 _ Hsel Hnext Hps Hvar Hslice _ _ _ _ _];
    [done|].
  destruct (selection_slice_positive _ _ _ Hinv Hcfg Hsel) as [Hts Halg].
  destruct Hcfg as (Hb & _ & Hpos). split; [|split].
  - rewrite Hps. destruct (alive_lookup _ _ Hnext) as [Hl _].
    apply Forall_insert; [done|].
    destruct (execute_static (deref s next) (dispatch_time s next) (time_slice s1))
      as (_ & _ & -> & _).
    by apply (Forall_lookup_1 _ _ _ _ Hb Hl).
  - by rewrite Hslice.
  - unfold algorithms in *. by rewrite Hvar, Halg.
Qed.

(** Induction along a run of a valid configuration. *)
Lemma reaches_valid_ind until_time (P : Scheduler → Prop) s0 :
  valid_config s0 → P (reset s0) →
  (∀ s1 s2, run_inv s1 → valid_config s1 → P s1 → pass s1 s2 → P s2) →
  ∀ s, reaches until_time (reset s0) s → P s ∧ valid_config s.
Proof.
  intros Hcfg HP Hstep s Hreach.
  apply (reaches_pass_ind until_time (λ s, P s ∧ valid_config s) (reset s0));
    [apply reset_inv|by split; [|apply valid_config_reset]| |done].
  intros s1 s2 Hinv [HP1 Hcfg1] Hpass.
  split; [by apply (Hstep s1 s2)|by eapply valid_config_pass].
Qed.

(** ** CPU time is neither lost nor invented *)

Lemma executed_time_execute p t q :
  Process.executed_time (Process.execute p t q).1
  = Process.executed_time p + Z.min q (Process.remaining_time p).
Proof.
  assert (H : ∀ (h : list (Z * Z)) a b,
            foldr (λ iv acc, iv.2 - iv.1 + acc) 0 (h ++ [(a, b)])
            = foldr (λ iv acc, iv.2 - iv.1 + acc) 0 h + (b - a)).
  { induction h as [|iv h IH]; intros a b; simpl; [lia|]. rewrite IH. lia. }
  unfold Process.executed_time, Process.execute.
  destruct (Process.start_time p), (_ <=? _); simpl; rewrite H; lia.
Qed.

Lemma remaining_time_execute p t q :
  Process.remaining_time (Process.execute p t q).1
  = Process.remaining_time p - Z.min q (Process.remaining_time p).
Proof.
  unfold Process.execute. destruct (Process.start_time p), (_ <=? _); reflexivity.
Qed.

Lemma state_execute p t q :
  Process.state (Process.execute p t q).1 = Process.TERMINATED
  ↔ Process.remaining_time p - Z.min q (Process.remaining_time p) ≤ 0.
Proof.
  unfold Process.execute.
  destruct (Process.start_time p), (_ <=? _) eqn:Hle; simpl;
    try (apply Z.leb_le in Hle); try (apply Z.leb_gt in Hle);
    destruct (Process.state p); simpl; split; intros; (done || lia).
Qed.

Lemma pass_lookup s s' (r : nat) p' :
  pass s s' → processes s' !! r = Some p' →
  processes s !! r = Some p'
  ∨ ∃ p s1, processes s !! r = Some p
            ∧ get_next_process s (ready_refs s) = Some (Some r, s1)
            ∧ Process.state p ≠ Process.TERMINATED
            ∧ p' = (Process.execute p (dispatch_time s r) (time_slice s1)).1.
Proof.
  intros [t _ _ _ ->|next s1 _ Hsel Hnext Hps _ _ _ _ _ _ _]; [by left|].
  rewrite Hps. destruct (decide (r = next)) as [->|Hne].
  - destruct (alive_lookup _ _ Hnext) as [Hl Hst].
    rewrite list_lookup_insert_eq by (by eapply lookup_lt_Some).
    intros [= <-]. right. exists (processes s !!! next), s1. by repeat split.
  - rewrite list_lookup_insert_ne by done. by left.
Qed.

Lemma cpu_time_sum_inv until_time s0 s :
  reaches until_time (reset s0) s →
  Forall (λ p, Process.remaining_time p + Process.executed_time p
               = Process.burst_time p) (processes s).
Proof.
  intros Hs.
  apply (reaches_pass_ind until_time
           (λ s, Forall (λ p, Process.remaining_time p + Process.executed_time p
                              = Process.burst_time p) (processes s))
           (reset s0)); [apply reset_inv| | |done].
  - simpl. apply Forall_fmap, Forall_forall. intros p _. simpl.
    unfold Process.executed_time. simpl. lia.
  - intros s1 s2 _ IH Hpass. apply Forall_forall. intros p' Hp'.
    apply list_elem_of_lookup_1 in Hp' as [i Hi].
    destruct (pass_lookup _ _ _ _ Hpass Hi) as [Hi1|(p & s' & Hi1 & _ & _ & ->)].
    + by apply (Forall_lookup_1 _ _ _ _ IH Hi1).
    + pose proof (Forall_lookup_1 _ _ _ _ IH Hi1) as Hp. simpl in Hp.
      rewrite executed_time_execute, remaining_time_execute.
      destruct (execute_static p (dispatch_time s1 i) (time_slice s'))
        as (_ & _ & -> & _). lia.
Qed.

Lemma remaining_time_inv until_time s0 s :
  valid_config s0 → reaches until_time (reset s0) s →
  Forall (λ p, 0 ≤ Process.remaining_time p
               ∧ 0 ≤ Process.executed_time p
               ∧ (Process.state p = Process.TERMINATED →
                  Process.remaining_time p = 0)) (processes s).
Proof.
  intros Hcfg Hreach.
  refine (proj1 (reaches_valid_ind until_time
                   (λ s, Forall (λ p, 0 ≤ Process.remaining_time p
                                      ∧ 0 ≤ Process.executed_time p
                                      ∧ (Process.state p = Process.TERMINATED →
                                         Process.remaining_time p = 0))
                           (processes s))
                   s0 Hcfg _ _ s Hreach)).
  - simpl. apply Forall_fmap. destruct Hcfg as (Hb & _).
    eapply Forall_impl; [done|]. intros q Hq. simpl in *.
    split; [lia|]. split; [|done]. by unfold Process.executed_time.
  - intros s1 s2 Hinv Hcfg1 IH Hpass. apply Forall_forall. intros p' Hp'.
    apply list_elem_of_lookup_1 in Hp' as [i Hi].
    destruct (pass_lookup _ _ _ _ Hpass Hi)
      as [Hi1|(q & s' & Hi1 & Hsel & Hst & ->)].
    + by apply (Forall_lookup_1 _ _ _ _ IH Hi1).
    + pose proof (Forall_lookup_1 _ _ _ _ IH Hi1) as (Hq & He & _).
      destruct (selection_slice_positive _ _ _ Hinv Hcfg1 Hsel) as [Hts _].
      rewrite remaining_time_execute, executed_time_execute, state_execute.
      lia.
Qed.

Lemma scenario_rr_valid : valid_config scenario_rr.
Proof. split; [|split]; [repeat constructor|reflexivity|constructor]. Qed.

(** X1. At every pass of every run, under every policy, the time a process
    has executed (the sum of its history) and the time it still needs add up
    to its burst.  In a valid configuration the remaining time never goes
    below 0, and is exactly 0 once the process is terminated, which has then
    executed its whole burst. *)
Theorem cpu_time_conserved until_time s0 s (r : nat) p :
  reaches until_time (reset s0) s →
  processes s !! r = Some p →
  Process.remaining_time p + Process.executed_time p = Process.burst_time p
  ∧ (valid_config s0 →
     0 ≤ Process.remaining_time p ≤ Process.burst_time p
     ∧ (Process.state p = Process.TERMINATED →
        Process.remaining_time p = 0
        ∧ Process.executed_time p = Process.burst_time p)).
Proof.
  intros Hreach Hp.
  pose proof (Forall_lookup_1 _ _ _ _ (cpu_time_sum_inv _ _ _ Hreach) Hp) as Hs.
  simpl in Hs. split; [done|]. intros Hcfg.
  pose proof (Forall_lookup_1 _ _ _ _ (remaining_time_inv _ _ _ Hcfg Hreach) Hp)
    as (H0 & He & Ht).
  split; [lia|]. intros Hst. specialize (Ht Hst). lia.
Qed.

(** P1 after four passes of the Round Robin scenario: 4 ticks executed, 1
    left, of a burst of 5. *)
Lemma cpu_time_conserved_witness :
  ∃ s p, run_steps 4 None (reset scenario_rr) = Some s
         ∧ processes s !! 0%nat = Some p
         ∧ Process.executed_time p = 4
         ∧ Process.remaining_time p + Process.executed_time p = Process.burst_time p
         ∧ 0 ≤ Process.remaining_time p ≤ Process.burst_time p.
Proof.
  eexists _, _. split; [vm_compute; reflexivity|].
  match goal with
  | |- processes ?s !! _ = _ ∧ _ =>
      assert (Hreach : reaches None (reset scenario_rr) s)
        by (apply (run_steps_reaches 4); vm_compute; reflexivity)
  end.
  split; [reflexivity|]. split; [reflexivity|].
  destruct (cpu_time_conserved None scenario_rr _ 0%nat _ Hreach eq_refl)
    as [Hsum Hrest].
  split; [exact Hsum|]. exact (proj1 (Hrest scenario_rr_valid)).
Defined.

(** ** Every process completes *)

Lemma length_processes_inv until_time s0 s :
  reaches until_time (reset s0) s → length (processes s) = length (processes s0).
Proof.
  intros Hs.
  apply (reaches_pass_ind until_time
           (λ s, length (processes s) = length (processes s0)) (reset s0));
    [apply reset_inv| | |done].
  - simpl. by rewrite length_fmap.
  - intros s1 s2 _ IH [t _ _ _ ->|next s1' _ _ _ Hps _ _ _ _ _ _ _]; [done|].
    by rewrite Hps, length_insert.
Qed.

(** The completed list holds the terminated processes, each once. *)
Lemma completed_inv until_time s0 s :
  reaches until_time (reset s0) s →
  NoDup (completed_processes s)
  ∧ ∀ r : nat, r ∈ completed_processes s
               ↔ ∃ p, processes s !! r = Some p
                      ∧ Process.state p = Process.TERMINATED.
Proof.
  intros Hs.
  apply (reaches_pass_ind until_time
           (λ s, NoDup (completed_processes s)
                 ∧ ∀ r : nat, r ∈ completed_processes s
                              ↔ ∃ p, processes s !! r = Some p
                                     ∧ Process.state p = Process.TERMINATED)
           (reset s0)); [apply reset_inv| | |done].
  - simpl. split; [apply NoDup_nil_2|]. intros r. split; [by intros ?%elem_of_nil|].
    intros (p & Hp & Hst). apply list_lookup_fmap_Some in Hp as (q & -> & _).
    done.
  - intros s1 s2 _ [Hnd Hiff]
      [t _ _ _ ->|next s1' _ _ Hnext Hps _ _ _ _ _ _ Hcomp]; [done|].
    destruct (alive_lookup _ _ Hnext) as [Hl Hst].
    assert (Hnc : next ∉ completed_processes s1).
    { intros (p & Hp & Hterm)%Hiff. congruence. }
    set (p' := (Process.execute (deref s1 next) (dispatch_time s1 next)
                  (time_slice s1')).1) in *.
    assert (Hlook : ∀ r : nat, processes s2 !! r
                     = if decide (r = next) then Some p' else processes s1 !! r).
    { intros r. rewrite Hps. case_decide as Hr.
      - subst r. apply list_lookup_insert_eq. by eapply lookup_lt_Some.
      - by apply list_lookup_insert_ne. }
    unfold Process.is_terminated in Hcomp. rewrite Hcomp.
    case_bool_decide as Hterm.
    + split.
      * apply NoDup_app. split; [done|]. split; [|apply NoDup_singleton].
        intros x Hx ->%list_elem_of_singleton. done.
      * intros r. rewrite elem_of_app, list_elem_of_singleton, Hlook, Hiff.
        case_decide as Hr.
        -- subst r. split; [intros _; by exists p'|by right].
        -- split; [by intros [?|?]|by left].
    + split; [done|]. intros r. rewrite Hlook, Hiff. case_decide as Hr; [|done].
      subst r. split.
      * intros (p & Hp & Hpt). congruence.
      * intros (p & [= <-] & Hpt). done.
Qed.

(** When the loop breaks, nothing is left to run. *)
Lemma break_all_terminated s :
  iteration s = Break s →
  Forall (λ p, Process.state p = Process.TERMINATED) (processes s).
Proof.
  unfold iteration.
  destruct (ready_refs s) as [|r0 ready'] eqn:Hr;
    [|by destruct (get_next_process _ _) as [[[]]|]].
  destruct (next_arrival s) as [t|] eqn:Hn; [done|]. intros _.
  apply Forall_lookup_2. intros i p Hi.
  destruct (decide (Process.state p = Process.TERMINATED)) as [|Hst]; [done|].
  exfalso. destruct (decide (Process.arrival_time p ≤ current_time s)) as [Ha|Ha].
  - assert (Hin : i ∈ ready_refs s).
    { unfold ready_refs. apply list_elem_of_filter. split.
      - unfold deref. rewrite (list_lookup_total_correct _ _ _ Hi).
        split; [by apply Z.leb_le|].
        unfold Process.is_terminated. by apply bool_decide_eq_false.
      - apply elem_of_seq. split; [lia|]. simpl. by eapply lookup_lt_Some. }
    rewrite Hr in Hin. by apply elem_of_nil in Hin.
  - unfold next_arrival in Hn.
    assert (Hin : p ∈ filter (λ p, Process.is_terminated p = false
                                   ∧ current_time s < Process.arrival_time p)
                         (processes s)).
    { apply list_elem_of_filter. split; [|by eapply list_elem_of_lookup_2].
      split; [|lia]. unfold Process.is_terminated. by apply bool_decide_eq_false. }
    destruct (filter _ (processes s)); [by apply elem_of_nil in Hin|done].
Qed.

Lemma current_alive_inv until_time s0 s c :
  reaches until_time (reset s0) s → current_process s = Some c →
  alive (processes s) c.
Proof.
  intros Hs. revert c.
  apply (reaches_pass_ind until_time
           (λ s, ∀ c, current_process s = Some c → alive (processes s) c)
           (reset s0)); [apply reset_inv|done| |done].
  intros s1 s2 _ IH [t _ _ _ ->|next s1' _ _ Hnext Hps _ _ _ _ _ Hcur _] c;
    [apply IH|].
  rewrite Hcur. unfold Process.is_terminated. case_bool_decide as Hterm; [done|].
  intros [= <-]. eexists. split; [|exact Hterm].
  rewrite Hps. apply list_lookup_insert_eq.
  destruct (alive_lookup _ _ Hnext) as [Hl _]. by eapply lookup_lt_Some.
Qed.

Lemma completed_all s0 until_time s :
  valid_config s0 → reaches until_time (reset s0) s →
  completed_processes s ≡ₚ seq 0 (length (processes s)) → all_completed s.
Proof.
  intros Hcfg Hreach Hperm.
  destruct (completed_inv _ _ _ Hreach) as [Hnd Hiff].
  destruct (reaches_inv _ _ _ Hreach) as [Hok _].
  assert (Hall : ∀ (i : nat) p, processes s !! i = Some p →
                                Process.state p = Process.TERMINATED).
  { intros i p Hi.
    assert (Hin : i ∈ completed_processes s).
    { rewrite Hperm. apply elem_of_seq. split; [lia|]. simpl.
      by eapply lookup_lt_Some. }
    apply Hiff in Hin as (q & Hq & Hst). congruence. }
  split; [done|]. split.
  - destruct (current_process s) as [c|] eqn:Hc; [|done].
    destruct (current_alive_inv _ _ _ _ Hreach Hc) as (p & Hp & Hst).
    by destruct Hst; eapply Hall.
  - apply Forall_lookup_2. intros i p Hi. pose proof (Hall i p Hi) as Hst.
    pose proof (Forall_lookup_1 _ _ _ _ (cpu_time_sum_inv _ _ _ Hreach) Hi) as Hsum.
    pose proof (Forall_lookup_1 _ _ _ _ (remaining_time_inv _ _ _ Hcfg Hreach) Hi)
      as (_ & _ & Hrem).
    pose proof (Forall_lookup_1 _ _ _ _ Hok Hi) as [_ Hp].
    simpl in *. specialize (Hrem Hst). rewrite Hst in Hp.
    split; [done|]. split; [done|]. split; [lia|]. by destruct Hp as (_ & _ & ? & _).
Qed.

(** X2. A run of a valid configuration returns, and when it returns either
    every process is terminated, has executed exactly its burst and stands
    once in the completed list, with no current process left, or the time
    budget is used up.  Without a budget every process completes. *)
Theorem run_completes until_time s0 :
  valid_config s0 → tiers_ok (variant s0) →
  ∃ s, run (S (passes_left (reset s0))) until_time s0 = Returned s
       ∧ length (processes s) = length (processes s0)
       ∧ (all_completed s
          ∨ ∃ u, until_time = Some u ∧ u ≤ current_time s
                 ∧ (length (completed_processes s) < length (processes s))%nat).
Proof.
  intros Hcfg Hok.
  destruct (run_returns until_time s0 Hcfg Hok) as [s Hs].
  exists s. split; [done|]. unfold run in Hs.
  apply run_loop_reaches in Hs as [Hreach Hend].
  split; [by eapply length_processes_inv|].
  destruct (completed_inv _ _ _ Hreach) as [Hnd Hiff].
  assert (Hsub : ∀ x, x ∈ completed_processes s
                      → x ∈ seq 0 (length (processes s))).
  { intros x (p & Hp & _)%Hiff. apply elem_of_seq. split; [lia|]. simpl.
    by eapply lookup_lt_Some. }
  destruct (decide (length (completed_processes s) < length (processes s))%nat)
    as [Hlt|Hge].
  - destruct Hend as [Hc|Hb].
    + right. unfold loop_cond in Hc. rewrite bool_decide_eq_true_2 in Hc by done.
      simpl in Hc. destruct until_time as [u|]; [|done].
      apply bool_decide_eq_false in Hc. exists u. split; [done|]. split; [lia|done].
    + left. eapply completed_all; [done|done|].
      apply NoDup_Permutation; [done|apply NoDup_seq|].
      intros x. split; [apply Hsub|].
      intros [_ Hx]%elem_of_seq. simpl in Hx. apply Hiff.
      destruct (lookup_lt_is_Some_2 (processes s) x Hx) as [p Hp].
      exists p. split; [done|].
      by apply (Forall_lookup_1 _ _ _ _ (break_all_terminated _ Hb) Hp).
  - left. eapply completed_all; [done|done|].
    apply submseteq_length_Permutation; [by apply NoDup_submseteq|].
    rewrite length_seq. lia.
Qed.

(** The Round Robin scenario runs to the end: three processes, all done. *)
Lemma run_completes_witness :
  ∃ s, run (S (passes_left (reset scenario_rr))) None scenario_rr = Returned s
       ∧ length (processes s) = 3%nat
       ∧ all_completed s.
Proof.
  destruct (run_completes None scenario_rr scenario_rr_valid I)
    as (s & Hrun & Hlen & [Hall|(u & Hu & _)]); [|discriminate Hu].
  exists s. split; [exact Hrun|]. split; [exact Hlen|exact Hall].
Defined.

(** ** What the log adds up to *)

Lemma py_sum_shift a (l : list Z) : foldl Z.add a l = a + py_sum l.
Proof.
  unfold py_sum. revert a. induction l as [|x l IH]; intros a; simpl; [lia|].
  rewrite (IH (a + x)), (IH (0 + x)). lia.
Qed.

Lemma py_sum_cons x (l : list Z) : py_sum (x :: l) = x + py_sum l.
Proof. unfold py_sum at 1. simpl. apply py_sum_shift. Qed.

Lemma py_sum_app (l k : list Z) : py_sum (l ++ k) = py_sum l + py_sum k.
Proof.
  induction l as [|x l IH]; simpl; [by unfold py_sum at 2|].
  rewrite !py_sum_cons, IH. lia.
Qed.

Lemma py_sum_insert (l : list Z) (i : nat) x y :
  l !! i = Some y → py_sum (<[i:=x]> l) = py_sum l + (x - y).
Proof.
  revert i. induction l as [|z l IH]; intros [|i]; simpl; try done.
  - intros [= ->]. rewrite !py_sum_cons. lia.
  - intros Hi. rewrite !py_sum_cons, (IH i Hi). lia.
Qed.

Lemma span_of_app x (l k : list log_entry) :
  span_of x (l ++ k) = span_of x l + span_of x k.
Proof. unfold span_of. by rewrite filter_app, fmap_app, py_sum_app. Qed.

Lemma busy_time_app (l k : list log_entry) :
  busy_time (l ++ k) = busy_time l + busy_time k.
Proof. unfold busy_time. by rewrite filter_app, fmap_app, py_sum_app. Qed.

Lemma spans_single y a b :
  span_of IDLE [(y, a, b)] = match y with IDLE => b - a | _ => 0 end
  ∧ span_of CS [(y, a, b)] = match y with CS => b - a | _ => 0 end
  ∧ busy_time [(y, a, b)] = match y with Pid _ => b - a | _ => 0 end.
Proof. destruct y; repeat split. Qed.

(** IDLE, CS and process entries share out the span of a contiguous log. *)
Lemma contiguous_spans a log b :
  contiguous a log b →
  span_of IDLE log + span_of CS log + busy_time log = b - a
  ∧ 0 ≤ span_of IDLE log ∧ 0 ≤ span_of CS log ∧ 0 ≤ busy_time log.
Proof.
  revert a. induction log as [|[[x u] v] log IH]; intros a; simpl.
  - intros ->. unfold span_of, busy_time, py_sum. simpl. lia.
  - intros (-> & Hlt & H). destruct (IH _ H) as (Hsum & Hi & Hc & Hb).
    change ((x, a, v) :: log) with ([(x, a, v)] ++ log).
    rewrite !span_of_app, busy_time_app.
    pose proof (spans_single x a v) as Hs.
    destruct x; destruct Hs as (-> & -> & ->); lia.
Qed.

Lemma Q_percent x t :
  0 ≤ x ≤ t → 0 < t →
  (0 <= inject_Z x / inject_Z t * 100 <= 100)%Q.
Proof.
  intros Hx Ht. destruct t as [|t|t]; try lia.
  unfold Qle, Qdiv, Qmult, Qinv, inject_Z. simpl. split; nia.
Qed.

Lemma log_contiguous_inv until_time s0 s :
  valid_config s0 → reaches until_time (reset s0) s →
  contiguous 0 (execution_log s) (current_time s).
Proof.
  intros Hcfg Hreach.
  refine (proj1 (proj1 (reaches_from_inv until_time _ (reset s0) (reset_inv s0)
                          _ log_inv_step s Hreach))).
  destruct (valid_config_reset _ Hcfg) as (Hb & Hts & Hq). by repeat split.
Qed.

Lemma busy_time_inv until_time s0 s :
  reaches until_time (reset s0) s →
  busy_time (execution_log s) = executed_total s.
Proof.
  intros Hs.
  apply (reaches_pass_ind until_time
           (λ s, busy_time (execution_log s) = executed_total s) (reset s0));
    [apply reset_inv| | |done].
  - unfold executed_total. simpl. rewrite <- list_fmap_compose.
    induction (processes s0) as [|p ps IH]; [done|].
    csimpl. rewrite py_sum_cons, <- IH. done.
  - intros s1 s2 _ IH [t _ _ _ ->|next s1' _ _ Hnext Hps _ _ _ _ Hlog _ _].
    + assert (Hl : execution_log (set_current_time t
                                    (log_append (IDLE, current_time s1, t) s1))
                   = execution_log s1 ++ [(IDLE, current_time s1, t)]) by done.
      assert (He : executed_total (set_current_time t
                                     (log_append (IDLE, current_time s1, t) s1))
                   = executed_total s1) by done.
      rewrite Hl, He, busy_time_app, IH.
      destruct (spans_single IDLE (current_time s1) t) as (_ & _ & ->). lia.
    + destruct (alive_lookup _ _ Hnext) as [Hl _].
      rewrite Hlog, !busy_time_app, IH.
      unfold executed_total. rewrite Hps, list_fmap_insert.
      rewrite (py_sum_insert _ _ _ (Process.executed_time (processes s1 !!! next)))
        by (by rewrite list_lookup_fmap, Hl).
      rewrite executed_time_execute.
      match goal with
      | |- context [busy_time [(Pid ?n, ?a, ?b)]] =>
          destruct (spans_single (Pid n) a b) as (_ & _ & ->)
      end.
      destruct (switch_charged s1 next).
      * match goal with
        | |- context [busy_time [(CS, ?a, ?b)]] =>
            destruct (spans_single CS a b) as (_ & _ & ->)
        end.
        unfold deref. lia.
      * unfold deref. change (busy_time []) with 0. lia.
Qed.

(** X3. In a run of a valid configuration the idle time, the context-switch
    time and the time the processes have executed add up to the clock, at
    every pass; and the CPU utilization the scheduler reports is the share
    of the executed time in the clock, a rational between 0 and 100. *)
Theorem cpu_utilization_accounts until_time s0 s :
  valid_config s0 → reaches until_time (reset s0) s →
  span_of IDLE (execution_log s) + span_of CS (execution_log s)
  + executed_total s = current_time s
  ∧ 0 ≤ span_of IDLE (execution_log s)
  ∧ 0 ≤ span_of CS (execution_log s)
  ∧ 0 ≤ executed_total s
  ∧ get_cpu_utilization s
    = (if decide (current_time s = 0) then 0%Q
       else (inject_Z (executed_total s) / inject_Z (current_time s) * 100)%Q)
  ∧ (0 <= get_cpu_utilization s <= 100)%Q.
Proof.
  intros Hcfg Hreach.
  pose proof (log_contiguous_inv _ _ _ Hcfg Hreach) as Hc.
  pose proof (contiguous_le _ _ _ Hc) as Hle.
  destruct (contiguous_spans _ _ _ Hc) as (Hsum & Hi & Hcs & Hb).
  rewrite (busy_time_inv _ _ _ Hreach) in Hsum, Hb.
  assert (Hu : get_cpu_utilization s
               = (if decide (current_time s = 0) then 0%Q
                  else (inject_Z (executed_total s) / inject_Z (current_time s)
                        * 100)%Q)).
  { unfold get_cpu_utilization. case_decide; [done|]. do 3 f_equal. lia. }
  split; [lia|]. split; [done|]. split; [done|]. split; [done|].
  split; [done|]. rewrite Hu. case_decide; [done|].
  apply Q_percent; lia.
Qed.

(** The Round Robin scenario after four passes: clock 9, of which 2 in
    context switches and 7 executed. *)
Lemma cpu_utilization_accounts_witness :
  ∃ s, run_steps 4 None (reset scenario_rr) = Some s
       ∧ current_time s = 9
       ∧ span_of CS (execution_log s) = 2
       ∧ executed_total s = 7
       ∧ (0 <= get_cpu_utilization s <= 100)%Q.
Proof.
  eexists. split; [vm_compute; reflexivity|].
  split; [reflexivity|]. split; [reflexivity|]. split; [reflexivity|].
  eapply (cpu_utilization_accounts None scenario_rr); [exact scenario_rr_valid|].
  apply (run_steps_reaches 4). vm_compute. reflexivity.
Defined.

(** ** Context switches in the log *)

Lemma context_switch_inv until_time s0 s :
  reaches until_time (reset s0) s →
  context_switch_overhead s = context_switch_overhead s0
  ∧ (current_process s ≠ None → execution_log s ≠ [])
  ∧ ∀ (i : nat) a b,
      execution_log s !! i = Some (CS, a, b) →
      0 < context_switch_overhead s0
      ∧ b - a = context_switch_overhead s0
      ∧ (0 < i)%nat
      ∧ ∃ pid c, execution_log s !! S i = Some (Pid pid, b, c).
Proof.
  intros Hs.
  apply (reaches_pass_ind until_time
           (λ s, context_switch_overhead s = context_switch_overhead s0
                 ∧ (current_process s ≠ None → execution_log s ≠ [])
                 ∧ ∀ (i : nat) a b,
                     execution_log s !! i = Some (CS, a, b) →
                     0 < context_switch_overhead s0
                     ∧ b - a = context_switch_overhead s0
                     ∧ (0 < i)%nat
                     ∧ ∃ pid c, execution_log s !! S i = Some (Pid pid, b, c))
           (reset s0)); [apply reset_inv| | |done].
  - simpl. split; [done|]. split; [done|]. by intros i a b.
  - intros s1 s2 _ (Hcso1 & Hne & IH)
      [t _ _ _ ->|next s1' _ _ _ _ _ _ Hcso _ Hlog _ _].
    + assert (Hl : execution_log (set_current_time t
                                    (log_append (IDLE, current_time s1, t) s1))
                   = execution_log s1 ++ [(IDLE, current_time s1, t)]) by done.
      rewrite Hl. split; [done|]. split; [by destruct (execution_log s1)|].
      intros i a b Hi. unfold log_entry in *.
      destruct (decide (i < length (execution_log s1))%nat) as [Hlt|Hge].
      * rewrite lookup_app_l in Hi by done.
        destruct (IH _ _ _ Hi) as (H1 & H2 & H3 & pid & c & H4).
        repeat split; try done. exists pid, c.
        rewrite lookup_app_l; [done|]. by eapply lookup_lt_Some.
      * assert (Hge' : (length (execution_log s1) <= i)%nat) by lia.
        rewrite lookup_app_r in Hi by done.
        match type of Hi with _ !! ?n = _ => destruct n as [|k] end;
          by inversion Hi.
    + split; [congruence|]. rewrite Hlog.
      split; [intros _; by destruct (execution_log s1), (switch_charged s1 next)|].
      intros i a b Hi. unfold log_entry in *.
      destruct (decide (i < length (execution_log s1))%nat) as [Hlt|Hge].
      * rewrite lookup_app_l in Hi by done.
        destruct (IH _ _ _ Hi) as (H1 & H2 & H3 & pid & c & H4).
        repeat split; try done. exists pid, c.
        rewrite lookup_app_l; [done|]. by eapply lookup_lt_Some.
      * assert (Hge' : (length (execution_log s1) <= i)%nat) by lia.
        rewrite lookup_app_r in Hi by done.
        rewrite lookup_app_r by (unfold log_entry in *; lia).
        match type of Hi with _ !! ?n = _ => remember n as k eqn:Hk end.
        match goal with
        | |- context [_ !! ?m] =>
            replace m with (S k) by (unfold log_entry in *; lia)
        end.
        unfold dispatch_time in *.
        destruct (switch_charged s1 next) eqn:Hsw; simpl in *.
        -- destruct k as [|[|k]]; try by inversion Hi.
           injection Hi as <- <-.
           unfold switch_charged in Hsw.
           apply andb_true_iff in Hsw as [Hsw Hcur].
           apply andb_true_iff in Hsw as [Hpos _].
           apply bool_decide_eq_true in Hpos, Hcur.
           rewrite Hcso1 in *.
           split; [done|]. split; [lia|]. split.
           ++ specialize (Hne Hcur). unfold log_entry in *.
              destruct (execution_log s1); [done|]. simpl in *. lia.
           ++ simpl. eauto.
        -- destruct k as [|k]; by inversion Hi.
Qed.

(** X4. Every CS entry of the log of a run has the configured overhead as
    its length, which is then positive (with an overhead of 0 or less there
    is no CS entry); it is never the first entry, and it is followed at once
    by the entry of the process switched to. *)
Theorem context_switch_entries until_time s0 s (i : nat) a b :
  reaches until_time (reset s0) s →
  execution_log s !! i = Some (CS, a, b) →
  0 < context_switch_overhead s0
  ∧ b - a = context_switch_overhead s0
  ∧ (0 < i)%nat
  ∧ ∃ pid c, execution_log s !! S i = Some (Pid pid, b, c).
Proof.
  intros Hreach Hi. by apply (context_switch_inv _ _ _ Hreach).
Qed.

(** The first context switch of the Round Robin scenario: from 2 to 3,
    between P1 and P2. *)
Lemma context_switch_entries_witness :
  ∃ s, run_steps 4 None (reset scenario_rr) = Some s
       ∧ execution_log s !! 1%nat = Some (CS, 2, 3)
       ∧ 3 - 2 = context_switch_overhead scenario_rr
       ∧ ∃ pid c, execution_log s !! 2%nat = Some (Pid pid, 3, c).
Proof.
  eexists. split; [vm_compute; reflexivity|].
  match goal with
  | |- execution_log ?s !! _ = _ ∧ _ =>
      assert (Hreach : reaches None (reset scenario_rr) s)
        by (apply (run_steps_reaches 4); vm_compute; reflexivity);
      destruct (context_switch_entries None scenario_rr s 1%nat 2 3 Hreach eq_refl)
        as (_ & Hlen & _ & Hnext)
  end.
  split; [reflexivity|]. split; [exact Hlen|exact Hnext].
Defined.

(** ** No process runs before it arrives *)

Lemma get_next_process_origin s ready next s1 :
  queues_ok s → NoDup ready →
  get_next_process s ready = Some (Some next, s1) →
  (next ∈ ready ∨ next ∈ queued s)
  ∧ ∀ x, x ∈ queued s1 → x ∈ ready ∨ x ∈ queued s.
Proof.
  intros [Hnd _] Hrnd.
  assert (Hsimple : ∀ r, r ∈ ready →
            (r ∈ ready ∨ r ∈ queued s) ∧ ∀ x, x ∈ queued s → x ∈ ready ∨ x ∈ queued s).
  { intros r Hr. split; [by left|]. intros x Hx. by right. }
  unfold get_next_process. destruct (variant s) as [| | |pre|tq q|qc qs] eqn:Hv.
  - unfold FCFSScheduler.get_next_process.
    destruct (py_min _ _) as [r|] eqn:Hm; simpl; [|done]. intros [= <- <-].
    apply Hsimple. by eapply py_min_elem.
  - unfold SJFScheduler.get_next_process.
    destruct (current_still_ready s ready) eqn:Hc.
    + apply current_still_ready_inv in Hc as (c & Hcur & Hc).
      rewrite Hcur. intros [= <- <-]. by apply Hsimple.
    + destruct (py_min _ _) as [r|] eqn:Hm; simpl; [|done]. intros [= <- <-].
      apply Hsimple. by eapply py_min_elem.
  - unfold SRTFScheduler.get_next_process.
    destruct (py_min _ _) as [r|] eqn:Hm; simpl; [|done]. intros [= <- <-].
    apply Hsimple. by eapply py_min_elem.
  - unfold PriorityScheduler.get_next_process.
    destruct (negb pre && current_still_ready s ready) eqn:Hc.
    + apply andb_true_iff in Hc as [_ Hc].
      apply current_still_ready_inv in Hc as (c & Hcur & Hc).
      rewrite Hcur. intros [= <- <-]. by apply Hsimple.
    + destruct (py_max _ _) as [r|] eqn:Hm; simpl; [|done]. intros [= <- <-].
      apply Hsimple. by eapply py_max_elem.
  - unfold RoundRobinScheduler.get_next_process.
    rewrite updated_queue_spec by done.
    pose proof (rr_expected_queue_elem s q ready) as Hel.
    destruct (rr_expected_queue s q ready) as [|r q'] eqn:E; [done|].
    intros [= <- <-]. unfold queued. rewrite Hv. simpl. split.
    + destruct (Hel r) as [?|?]; [by left|by right|by left].
    + intros x Hx. destruct (Hel x) as [?|?]; [by right|by right|by left].
  - unfold MultilevelQueueScheduler.get_next_process,
      MultilevelQueueScheduler.updated_queues.
    unfold queued in *. rewrite Hv in *.
    destruct (MultilevelQueueScheduler.enqueue_arrivals qc s qs ready)
      as [qs1|] eqn:E1; simpl; [|done].
    destruct (MultilevelQueueScheduler.requeue_current qc s qs1 ready)
      as [qs2|] eqn:E2; simpl; [|done].
    destruct (enqueue_arrivals_spec _ _ _ _ _ E1 Hnd) as (Hnd1 & Hel1 & _).
    destruct (requeue_current_spec _ _ _ _ _ E2 Hnd1) as (_ & Hel2 & _).
    assert (Hel : ∀ x, x ∈ tiers_queued qs2 → x ∈ ready ∨ x ∈ tiers_queued qs).
    { intros x [[?|?]%Hel1|?]%Hel2; auto. }
    destruct (MultilevelQueueScheduler.select_from_queues qs2)
      as [[[r qs3] slice]|] eqn:E3.
    + apply select_from_queues_Some in E3 as (Hq3 & _ & _).
      rewrite Hq3 in Hel.
      assert (Hres : (r ∈ ready ∨ r ∈ tiers_queued qs)
                     ∧ ∀ x, x ∈ tiers_queued qs3 → x ∈ ready ∨ x ∈ tiers_queued qs).
      { split; [apply Hel; by left|]. intros x Hx. apply Hel. by right. }
      destruct slice; by intros [= <- <-].
    + apply select_from_queues_None in E3.
      destruct ready as [|r0 ready']; [done|].
      destruct (py_min _ _) as [r|] eqn:Hm; simpl; [|done]. intros [= <- <-].
      simpl. rewrite E3. split; [left; by eapply py_min_elem|].
      by intros x ?%elem_of_nil.
Qed.

Lemma ready_refs_arrived s (r : nat) :
  r ∈ ready_refs s → Process.arrival_time (deref s r) ≤ current_time s.
Proof.
  unfold ready_refs. intros [[Ha _] _]%list_elem_of_filter.
  by apply Z.leb_le in Ha.
Qed.

Lemma dispatch_time_ge s next :
  current_time s ≤ dispatch_time s next.
Proof.
  unfold dispatch_time, switch_charged.
  destruct (bool_decide (0 < context_switch_overhead s)) eqn:Hpos; simpl; [|lia].
  apply bool_decide_eq_true in Hpos. destruct (_ && _); lia.
Qed.

Lemma spaced_snoc from (h : list (Z * Z)) a b :
  spaced from h → Forall (λ iv, iv.2 ≤ a) h → from ≤ a → a < b →
  spaced from (h ++ [(a, b)]).
Proof.
  revert from. induction h as [|[a0 b0] h IH]; intros from; simpl; [done|].
  intros (H1 & H2 & H3) Hall Hfrom Hab. apply Forall_cons in Hall as [Hb0 Hall].
  repeat split; [done..|]. by apply IH.
Qed.

Lemma spaced_elem from (h : list (Z * Z)) a b :
  spaced from h → (a, b) ∈ h → from ≤ a ∧ a < b.
Proof.
  revert from. induction h as [|[a0 b0] h IH]; intros from; simpl;
    [by intros _ ?%elem_of_nil|].
  intros (H1 & H2 & H3) [[= -> ->]|Hin]%elem_of_cons; [done|].
  destruct (IH _ H3 Hin). lia.
Qed.

(** The intervals of a chronological history fit between its start and the
    end of its last interval. *)
Lemma spaced_sum from (h : list (Z * Z)) a f :
  spaced from h → last h = Some (a, f) →
  from + foldr (λ iv acc, (iv.2 - iv.1) + acc) 0 h ≤ f.
Proof.
  revert from. induction h as [|[a0 b0] h IH]; intros from; [done|].
  intros (H1 & H2 & H3). destruct h as [|iv h'].
  - simpl. intros [= -> ->]. lia.
  - change (last ((a0, b0) :: iv :: h')) with (last (iv :: h')).
    intros Hl. specialize (IH _ H3 Hl).
    change (foldr _ 0 ((a0, b0) :: iv :: h'))
      with ((b0 - a0) + foldr (λ iv acc, (iv.2 - iv.1) + acc) 0 (iv :: h')).
    lia.
Qed.

Lemma timing_consistent_mono c c' p :
  c ≤ c' → timing_consistent c p → timing_consistent c' p.
Proof.
  intros Hc (H1 & H2 & H3). split; [done|]. split; [|done].
  eapply Forall_impl; [done|]. simpl. intros. lia.
Qed.

Lemma execute_timing c p t q :
  timing_consistent c p → Process.state p ≠ Process.TERMINATED →
  Process.arrival_time p ≤ t → c ≤ t → 0 < q → 0 < Process.remaining_time p →
  timing_consistent (t + Z.min q (Process.remaining_time p))
    (Process.execute p t q).1.
Proof.
  intros (Hsp & Hend & Hst & Hrs & Hfin) Hnt Harr Hc Hq Hrem.
  rewrite decide_False in Hfin by done.
  assert (Hall : Forall (λ iv : Z * Z, iv.2 ≤ t) (Process.execution_history p)).
  { eapply Forall_impl; [done|]. simpl. intros. lia. }
  unfold timing_consistent, Process.execute.
  destruct (Process.execution_history p) as [|iv h] eqn:Hh.
  - simpl in Hst, Hrs. rewrite Hst.
    destruct (_ <=? _); simpl; repeat split; try done; try lia.
    + repeat constructor. simpl. lia.
    + repeat constructor. simpl. lia.
    + by destruct (decide (Process.state p = Process.NEW)), (Process.state p).
  - simpl in Hst, Hrs. rewrite Hst.
    destruct (_ <=? _); simpl; rewrite ?Hh; csimpl.
    + split; [by apply (spaced_snoc _ (iv :: h)); [| |lia|lia]|].
      split; [|split; [done|split; [done|]]].
      * apply (Forall_app_2 _ (iv :: h)).
        -- eapply Forall_impl; [exact Hall|]. simpl. intros. lia.
        -- repeat constructor. simpl. lia.
      * change (iv :: h ++ [(t, t + Z.min q (Process.remaining_time p))])
          with ((iv :: h) ++ [(t, t + Z.min q (Process.remaining_time p))]).
        by rewrite last_snoc.
    + split; [by apply (spaced_snoc _ (iv :: h)); [| |lia|lia]|].
      split; [|split; [done|split; [done|]]].
      * apply (Forall_app_2 _ (iv :: h)).
        -- eapply Forall_impl; [exact Hall|]. simpl. intros. lia.
        -- repeat constructor. simpl. lia.
      * rewrite Hfin.
        by destruct (decide (Process.state p = Process.NEW)), (Process.state p).
Qed.

Lemma arrival_insert_execute (ps : list Process.t) (n x : nat) t q :
  Process.arrival_time (<[n := (Process.execute (ps !!! n) t q).1]> ps !!! x)
  = Process.arrival_time (ps !!! x).
Proof.
  destruct (decide (n < length ps)%nat) as [Hlt|Hge].
  - destruct (decide (x = n)) as [->|Hne].
    + rewrite list_lookup_total_insert_eq by done.
      by destruct (execute_static (ps !!! n) t q) as (_ & -> & _).
    + by rewrite list_lookup_total_insert_ne.
  - by rewrite list_insert_ge by lia.
Qed.

(** Along a run the timing fields of every process agree with its history,
    and every queued process has arrived. *)
Lemma timing_inv until_time s0 s :
  valid_config s0 → reaches until_time (reset s0) s →
  Forall (timing_consistent (current_time s)) (processes s)
  ∧ ∀ r : nat, r ∈ queued s →
               Process.arrival_time (deref s r) ≤ current_time s.
Proof.
  intros Hcfg Hreach.
  refine (proj1 (reaches_valid_ind until_time
                   (λ s, Forall (timing_consistent (current_time s)) (processes s)
                         ∧ ∀ r : nat, r ∈ queued s →
                             Process.arrival_time (deref s r) ≤ current_time s)
                   s0 Hcfg _ _ s Hreach)).
  - split.
    + simpl. apply Forall_fmap, Forall_forall. intros p _.
      by repeat split.
    + rewrite queued_reset. by intros r ?%elem_of_nil.
  - clear s Hreach. intros s s' Hinv Hcfg1 [Htim Hq] Hpass.
    destruct Hpass as [t _ _ Ht ->
                      |next s1 _ Hsel Hnext Hps Hvar _ _ Htime _ _ _].
    + split.
      * simpl. eapply Forall_impl; [exact Htim|]. intros p.
        apply timing_consistent_mono. lia.
      * intros r Hr. specialize (Hq r Hr). simpl in *. unfold deref in *.
        simpl. lia.
    + destruct (selection_slice_positive _ _ _ Hinv Hcfg1 Hsel) as [Hts _].
      pose proof (alive_remaining _ _ Hinv Hcfg1 Hnext) as Hrem.
      pose proof (dispatch_time_ge s next) as Hd.
      destruct (alive_lookup _ _ Hnext) as [Hl Hst].
      destruct Hinv as [_ Hqok].
      destruct (get_next_process_origin _ _ _ _ Hqok (ready_refs_NoDup s) Hsel)
        as [Hon Hoq].
      assert (Harrived : ∀ x : nat, x ∈ ready_refs s ∨ x ∈ queued s →
                Process.arrival_time (deref s x) ≤ current_time s).
      { intros x [Hx|Hx]; [by apply ready_refs_arrived|by apply Hq]. }
      split.
      * rewrite Hps, Htime. apply Forall_insert.
        -- eapply Forall_impl; [exact Htim|]. intros p.
           apply timing_consistent_mono. lia.
        -- apply (execute_timing (current_time s)); try done.
           ++ by apply (Forall_lookup_1 _ _ _ _ Htim Hl).
           ++ specialize (Harrived _ Hon). unfold deref in *. lia.
      * intros r Hr. unfold queued in Hr. rewrite Hvar in Hr.
        specialize (Harrived r (Hoq r Hr)).
        unfold deref in *. rewrite Hps, arrival_insert_execute, Htime. lia.
Qed.

(** X5. No process runs before it arrives.  At every pass of a run of a
    valid configuration, under every policy, the history of a process is
    chronological: every interval has positive length, starts at or after the
    arrival and after the end of the interval before it, and ends by the
    current time.  The start time is the start of the first interval, so the
    response time is never negative; the finish time is set exactly when the
    process is terminated, to the end of the last interval, and is then at
    least arrival plus burst (the turnaround is never less than the burst). *)
Theorem no_run_before_arrival until_time s0 s (r : nat) p :
  valid_config s0 →
  reaches until_time (reset s0) s →
  processes s !! r = Some p →
  timing_consistent (current_time s) p
  ∧ (∀ a b, (a, b) ∈ Process.execution_history p →
            Process.arrival_time p ≤ a ∧ a < b ∧ b ≤ current_time s)
  ∧ (∀ t, Process.response_time p = Some t → 0 ≤ t)
  ∧ (∀ f, Process.finish_time p = Some f →
          Process.state p = Process.TERMINATED
          ∧ Process.arrival_time p + Process.burst_time p ≤ f
          ∧ f ≤ current_time s).
Proof.
  intros Hcfg Hreach Hp.
  destruct (timing_inv _ _ _ Hcfg Hreach) as [Htim _].
  pose proof (Forall_lookup_1 _ _ _ _ Htim Hp) as Hc. split; [done|].
  destruct Hc as (Hsp & Hend & Hst & Hrs & Hfin).
  split; [|split].
  - intros a b Hin. destruct (spaced_elem _ _ _ _ Hsp Hin).
    rewrite Forall_forall in Hend. specialize (Hend _ Hin). simpl in Hend. lia.
  - intros t. rewrite Hrs.
    destruct (Process.execution_history p) as [|[a b] h] eqn:Hh; [done|].
    simpl. intros [= <-].
    destruct (spaced_elem _ ((a, b) :: h) a b Hsp); [by left|]. lia.
  - intros f Hf. rewrite Hf in Hfin.
    destruct (decide (Process.state p = Process.TERMINATED)) as [Ht|]; [|done].
    split; [done|].
    destruct (last (Process.execution_history p)) as [[a f']|] eqn:Hl; [|done].
    injection Hfin as ->.
    pose proof (spaced_sum _ _ _ _ Hsp Hl) as Hsum.
    pose proof (Forall_lookup_1 _ _ _ _ (cpu_time_sum_inv _ _ _ Hreach) Hp) as Hb.
    pose proof (Forall_lookup_1 _ _ _ _ (remaining_time_inv _ _ _ Hcfg Hreach) Hp)
      as (_ & _ & Hz).
    simpl in Hb. specialize (Hz Ht). unfold Process.executed_time in Hb.
    split; [lia|].
    rewrite Forall_forall in Hend. apply last_Some_elem_of in Hl.
    by apply (Hend _ Hl).
Qed.

Lemma no_run_before_arrival_witness :
  ∃ s p, run_steps 4 None (reset scenario_rr) = Some s
         ∧ processes s !! 1%nat = Some p
         ∧ Process.execution_history p = [(3, 5)]
         ∧ Process.arrival_time p = 1
         ∧ timing_consistent (current_time s) p
         ∧ ∀ t, Process.response_time p = Some t → 0 ≤ t.
Proof.
  eexists _, _. split; [vm_compute; reflexivity|].
  match goal with
  | |- processes ?s !! _ = _ ∧ _ =>
      assert (Hreach : reaches None (reset scenario_rr) s)
        by (apply (run_steps_reaches 4); vm_compute; reflexivity)
  end.
  split; [reflexivity|]. split; [reflexivity|]. split; [reflexivity|].
  destruct (no_run_before_arrival None scenario_rr _ 1%nat _ scenario_rr_valid
              Hreach eq_refl) as (H1 & _ & H3 & _).
  split; [exact H1|exact H3].
Defined.

(** ** The histories are the log, process by process *)

Lemma history_execute p t q :
  Process.execution_history (Process.execute p t q).1
  = Process.execution_history p ++ [(t, t + Z.min q (Process.remaining_time p))].
Proof.
  unfold Process.execute. by destruct (Process.start_time p), (_ <=? _).
Qed.

Lemma pids_inv until_time s0 s :
  reaches until_time (reset s0) s →
  Process.pid <$> processes s = Process.pid <$> processes s0.
Proof.
  intros Hs.
  apply (reaches_pass_ind until_time
           (λ s, Process.pid <$> processes s = Process.pid <$> processes s0)
           (reset s0)); [apply reset_inv| | |done].
  - simpl. rewrite <- list_fmap_compose. by apply list_fmap_ext.
  - intros s1 s2 _ IH [t _ _ _ ->|next s1' _ _ Hnext Hps _ _ _ _ _ _ _]; [done|].
    rewrite Hps, list_fmap_insert, <- IH.
    destruct (alive_lookup _ _ Hnext) as [Hl _].
    destruct (execute_static (deref s1 next) (dispatch_time s1 next) (time_slice s1'))
      as (-> & _).
    apply list_insert_id. by rewrite list_lookup_fmap, Hl.
Qed.

Lemma log_of_pid_app pid (l1 l2 : list log_entry) :
  log_of_pid pid (l1 ++ l2) = log_of_pid pid l1 ++ log_of_pid pid l2.
Proof. apply omap_app. Qed.

Lemma history_log_inv until_time s0 s :
  NoDup (Process.pid <$> processes s0) →
  reaches until_time (reset s0) s →
  Forall (λ p, Process.execution_history p
               = log_of_pid (Process.pid p) (execution_log s)) (processes s).
Proof.
  intros Hnd Hs.
  assert (H : Forall (λ p, Process.execution_history p
                           = log_of_pid (Process.pid p) (execution_log s))
                (processes s)
              ∧ Process.pid <$> processes s = Process.pid <$> processes s0);
    [|by destruct H].
  apply (reaches_pass_ind until_time
           (λ s, Forall (λ p, Process.execution_history p
                              = log_of_pid (Process.pid p) (execution_log s))
                   (processes s)
                 ∧ Process.pid <$> processes s = Process.pid <$> processes s0)
           (reset s0)); [apply reset_inv| | |done].
  - split.
    + simpl. apply Forall_fmap, Forall_forall. by intros p _.
    + apply (pids_inv until_time). apply reaches_refl.
  - clear s Hs. intros s s' Hinv [IH Hpids] Hpass. split.
    2:{ destruct Hpass as [t _ _ _ ->|next s1 _ _ Hnext Hps _ _ _ _ _ _ _]; [done|].
        rewrite Hps, list_fmap_insert, <- Hpids.
        destruct (alive_lookup _ _ Hnext) as [Hl _].
        destruct (execute_static (deref s next) (dispatch_time s next) (time_slice s1))
          as (-> & _).
        apply list_insert_id. by rewrite list_lookup_fmap, Hl. }
    destruct Hpass as [t _ _ _ ->|next s1 _ _ Hnext Hps _ _ _ _ Hlog _ _].
    + simpl. eapply Forall_impl; [exact IH|]. intros p Hp. simpl in *.
      rewrite log_of_pid_app, <- Hp. simpl. by rewrite app_nil_r.
    + destruct (alive_lookup _ _ Hnext) as [Hl _].
      assert (Hcs : ∀ pid,
                log_of_pid pid
                  (if switch_charged s next
                   then [(CS, current_time s,
                          current_time s + context_switch_overhead s)]
                   else []) = []).
      { intros pid. by destruct (switch_charged s next). }
      rewrite Hps, Hlog. apply Forall_forall. intros p' Hp'.
      apply list_elem_of_lookup_1 in Hp' as [i Hi].
      rewrite !log_of_pid_app, Hcs. simpl.
      destruct (decide (i = next)) as [->|Hne].
      * rewrite list_lookup_insert_eq in Hi by (by eapply lookup_lt_Some).
        injection Hi as <-. rewrite history_execute.
        destruct (execute_static (deref s next) (dispatch_time s next) (time_slice s1))
          as (-> & _).
        pose proof (Forall_lookup_1 _ _ _ _ IH Hl) as Hh. simpl in Hh.
        unfold deref. rewrite Hh. by rewrite decide_True.
      * rewrite list_lookup_insert_ne in Hi by done.
        pose proof (Forall_lookup_1 _ _ _ _ IH Hi) as Hh. simpl in Hh.
        unfold deref. rewrite Hh.
        rewrite decide_False; [by rewrite app_nil_r|].
        intros Heq. apply Hne. rewrite <- Hpids in Hnd.
        apply (NoDup_lookup _ _ _ (Process.pid p') Hnd).
        -- by rewrite list_lookup_fmap, Hi.
        -- rewrite list_lookup_fmap, Hl. simpl. by rewrite Heq.
Qed.

(** X6. When the pids of the workload are distinct, the execution history of
    every process is, at every pass of every run and under every policy, the
    list of the intervals that the execution log gives to its pid, in the
    same order: the log and the histories never disagree. *)
Theorem history_is_log_projection until_time s0 s (r : nat) p :
  NoDup (Process.pid <$> processes s0) →
  reaches until_time (reset s0) s →
  processes s !! r = Some p →
  Process.execution_history p = log_of_pid (Process.pid p) (execution_log s).
Proof.
  intros Hnd Hreach Hp.
  by apply (Forall_lookup_1 _ _ _ _ (history_log_inv _ _ _ Hnd Hreach) Hp).
Qed.

Lemma history_is_log_projection_witness :
  ∃ s p, run_steps 6 None (reset scenario_rr) = Some s
         ∧ processes s !! 0%nat = Some p
         ∧ Process.execution_history p = [(0, 2); (7, 9); (11, 12)]
         ∧ Process.execution_history p
           = log_of_pid (Process.pid p) (execution_log s).
Proof.
  eexists _, _. split; [vm_compute; reflexivity|].
  match goal with
  | |- processes ?s !! _ = _ ∧ _ =>
      assert (Hreach : reaches None (reset scenario_rr) s)
        by (apply (run_steps_reaches 6); vm_compute; reflexivity)
  end.
  split; [reflexivity|]. split; [reflexivity|].
  apply (history_is_log_projection None scenario_rr _ 0%nat _); [|exact Hreach|reflexivity].
  apply (bool_decide_unpack _). vm_compute. exact I.
Defined.

(** ** The policies that never preempt *)

(** Induction along a run of a valid configuration, with the run so far. *)
Lemma reaches_run_ind until_time (P : Scheduler → Prop) s0 :
  valid_config s0 → P (reset s0) →
  (∀ s1 s2, reaches until_time (reset s0) s1 → run_inv s1 → valid_config s1 →
            P s1 → pass s1 s2 → P s2) →
  ∀ s, reaches until_time (reset s0) s → P s.
Proof.
  intros Hcfg HP Hstep s Hreach.
  assert (H : P s ∧ run_inv s ∧ valid_config s); [|by destruct H].
  induction Hreach as [|s1 s2 Hr1 (IHP & IHinv & IHcfg) _ Hit].
  - split; [done|]. split; [apply reset_inv|by apply valid_config_reset].
  - destruct (iteration_pass _ _ IHinv Hit) as [Hpass Hinv2].
    split; [exact (Hstep s1 s2 Hr1 IHinv IHcfg IHP Hpass)|]. split; [done|].
    exact (valid_config_pass _ _ IHinv IHcfg Hpass).
Qed.

(** The process on the CPU between two passes is RUNNING. *)
Lemma current_running_inv until_time s0 s c :
  reaches until_time (reset s0) s → current_process s = Some c →
  ∃ p, processes s !! c = Some p ∧ Process.state p = Process.RUNNING.
Proof.
  intros Hs. revert c.
  apply (reaches_pass_ind until_time
           (λ s, ∀ c, current_process s = Some c →
                      ∃ p, processes s !! c = Some p
                           ∧ Process.state p = Process.RUNNING)
           (reset s0)); [apply reset_inv|done| |done].
  intros s1 s2 _ IH [t _ _ _ ->|next s1' _ _ Hnext Hps _ _ _ _ _ Hcur _] c;
    [apply IH|].
  rewrite Hcur. unfold Process.is_terminated. case_bool_decide as Hterm; [done|].
  intros [= <-]. eexists. split.
  - rewrite Hps. apply list_lookup_insert_eq.
    destruct (alive_lookup _ _ Hnext) as [Hl _]. by eapply lookup_lt_Some.
  - revert Hterm. unfold Process.execute.
    destruct (Process.start_time _), (_ <=? _); simpl; try done;
      by destruct (decide (Process.state _ = Process.NEW)), (Process.state _).
Qed.

Lemma ready_refs_elem s (r : nat) :
  r ∈ ready_refs s
  ↔ (r < length (processes s))%nat
    ∧ Process.arrival_time (deref s r) ≤ current_time s
    ∧ Process.state (deref s r) ≠ Process.TERMINATED.
Proof.
  unfold ready_refs. rewrite list_elem_of_filter, elem_of_seq.
  unfold Process.is_arrived, Process.is_terminated.
  rewrite Z.leb_le, bool_decide_eq_false. simpl.
  split; [intros [[? ?] [? ?]]|intros (? & ? & ?)]; repeat split; (done || lia).
Qed.

(** The process on the CPU between two passes is ready. *)
Lemma current_ready_inv until_time s0 s c :
  valid_config s0 → reaches until_time (reset s0) s →
  current_process s = Some c → c ∈ ready_refs s.
Proof.
  intros Hcfg Hreach Hcur.
  destruct (current_running_inv _ _ _ _ Hreach Hcur) as (p & Hp & Hst).
  destruct (timing_inv _ _ _ Hcfg Hreach) as [Htim _].
  destruct (reaches_inv _ _ _ Hreach) as [Hok _].
  pose proof (Forall_lookup_1 _ _ _ _ Htim Hp) as (Hsp & Hend & _).
  pose proof (Forall_lookup_1 _ _ _ _ Hok Hp) as [_ Hpo].
  rewrite Hst in Hpo. destruct Hpo as (_ & _ & _ & _ & Hne).
  apply ready_refs_elem. unfold deref.
  rewrite (list_lookup_total_correct _ _ _ Hp).
  split; [by eapply lookup_lt_Some|]. split; [|by rewrite Hst].
  destruct (Process.execution_history p) as [|[a b] h]; [done|].
  destruct Hsp as (Ha & Hab & _). apply Forall_cons in Hend as [Hb _].
  simpl in Hb. lia.
Qed.

Lemma tuple_ltb_2 a1 a2 b1 b2 :
  tuple_ltb [a1; a2] [b1; b2] = true ↔ a1 < b1 ∨ (a1 = b1 ∧ a2 < b2).
Proof.
  simpl.
  destruct (a1 <? b1) eqn:H1; [apply Z.ltb_lt in H1; split; [lia|done]|].
  apply Z.ltb_ge in H1.
  destruct (b1 <? a1) eqn:H1'; [apply Z.ltb_lt in H1'; split; [done|lia]|].
  apply Z.ltb_ge in H1'.
  destruct (a2 <? b2) eqn:H2; [apply Z.ltb_lt in H2; split; [lia|done]|].
  apply Z.ltb_ge in H2.
  destruct (b2 <? a2) eqn:H2'; [apply Z.ltb_lt in H2'|apply Z.ltb_ge in H2'];
    split; (done || lia).
Qed.

(** [min] returns the first of the elements with the least key, when the
    keys are compared by a strict weak order. *)
Lemma py_min_split {A} (key : A → list Z) :
  (∀ x y z, tuple_ltb (key x) (key y) = true → tuple_ltb (key y) (key z) = true →
            tuple_ltb (key x) (key z) = true) →
  (∀ x y z, tuple_ltb (key x) (key y) = true →
            tuple_ltb (key x) (key z) = true ∨ tuple_ltb (key z) (key y) = true) →
  ∀ l c, py_min key l = Some c →
  ∃ l1 l2, l = l1 ++ c :: l2
           ∧ (∀ x, x ∈ l1 → tuple_ltb (key c) (key x) = true)
           ∧ (∀ x, x ∈ l2 → tuple_ltb (key x) (key c) = false).
Proof.
  intros lt_trans lt_neg_trans l c.
  destruct l as [|b l]; [done|]. simpl. intros [= <-].
  set (f := λ best y : A, if tuple_ltb (key y) (key best) then y else best).
  assert (H : ∀ l b pre mid,
            (∀ x, x ∈ pre → tuple_ltb (key b) (key x) = true) →
            (∀ x, x ∈ mid → tuple_ltb (key x) (key b) = false) →
            ∃ l1 l2, pre ++ b :: mid ++ l = l1 ++ foldl f b l :: l2
                     ∧ (∀ x, x ∈ l1 → tuple_ltb (key (foldl f b l)) (key x) = true)
                     ∧ (∀ x, x ∈ l2 → tuple_ltb (key x) (key (foldl f b l)) = false)).
  { clear b l. intros l. induction l as [|y l IH]; intros b pre mid Hpre Hmid.
    - exists pre, mid. by rewrite app_nil_r.
    - simpl. unfold f at 2 4 6.
      destruct (tuple_ltb (key y) (key b)) eqn:Hyb.
      + destruct (IH y (pre ++ b :: mid) [])
          as (l1 & l2 & Heq & H1 & H2).
        * intros x [Hx|[->|Hx]%elem_of_cons]%elem_of_app.
          -- eapply lt_trans; [done|by apply Hpre].
          -- done.
          -- destruct (lt_neg_trans _ _ x Hyb) as [?|Hc]; [done|].
             by rewrite (Hmid x Hx) in Hc.
        * by intros x ?%elem_of_nil.
        * exists l1, l2. split; [|done]. rewrite <- Heq.
          by rewrite <- !app_assoc.
      + destruct (IH b pre (mid ++ [y])) as (l1 & l2 & Heq & H1 & H2).
        * done.
        * intros x [Hx|[->|[]%elem_of_nil]%elem_of_cons]%elem_of_app;
            [by apply Hmid|done].
        * exists l1, l2. split; [|done]. rewrite <- Heq.
          by rewrite <- !app_assoc. }
  destruct (H l b [] []) as (l1 & l2 & Heq & H1 & H2);
    [by intros x ?%elem_of_nil..|].
  by exists l1, l2.
Qed.

Lemma py_min_of_split {A} (key : A → list Z) l1 c l2 :
  (∀ x, x ∈ l1 → tuple_ltb (key c) (key x) = true) →
  (∀ x, x ∈ l2 → tuple_ltb (key x) (key c) = false) →
  py_min key (l1 ++ c :: l2) = Some c.
Proof.
  intros H1 H2.
  set (f := λ best y : A, if tuple_ltb (key y) (key best) then y else best).
  assert (Hstay : ∀ l, (∀ x, x ∈ l → tuple_ltb (key x) (key c) = false) →
                       foldl f c l = c).
  { induction l as [|y l IH]; intros Hl; [done|]. simpl. unfold f at 2.
    rewrite (Hl y) by (by left). apply IH. intros x Hx. apply Hl. by right. }
  assert (Hin : ∀ l b, foldl f b l ∈ b :: l).
  { induction l as [|y l IH]; intros b; simpl; [by left|].
    unfold f at 2. destruct (tuple_ltb _ _); [specialize (IH y)|specialize (IH b)];
      rewrite !elem_of_cons in *; tauto. }
  destruct l1 as [|b l1]; simpl; f_equal; fold f.
  - by apply Hstay.
  - rewrite foldl_app. simpl. unfold f at 2.
    rewrite (H1 (foldl f b l1)) by apply Hin. by apply Hstay.
Qed.

Lemma NoDup_split_unique {A} (c : A) l1 l2 k1 k2 :
  NoDup (l1 ++ c :: l2) → l1 ++ c :: l2 = k1 ++ c :: k2 → l1 = k1 ∧ l2 = k2.
Proof.
  revert k1. induction l1 as [|x l1 IH]; intros k1 Hnd Heq.
  - destruct k1 as [|y k1]; simpl in *; [by injection Heq|].
    injection Heq as <- ->. apply NoDup_cons in Hnd as [Hc _].
    destruct Hc. apply elem_of_app. right. by left.
  - destruct k1 as [|y k1]; simpl in *.
    + injection Heq as -> <-. apply NoDup_cons in Hnd as [Hc _].
      destruct Hc. apply elem_of_app. right. by left.
    + injection Heq as <- Heq. apply NoDup_cons in Hnd as [_ Hnd].
      destruct (IH _ Hnd Heq) as [-> ->]. done.
Qed.

(** The ready list is in the order of [processes]: it splits at each of its
    elements into the ready processes before and after it. *)
Lemma ready_refs_split s (c : nat) :
  c ∈ ready_refs s →
  ∃ l1 l2, ready_refs s = l1 ++ c :: l2
           ∧ (∀ x : nat, x ∈ l1 → (x < c)%nat)
           ∧ (∀ x : nat, x ∈ l2 → (c < x)%nat).
Proof.
  intros Hc. pose proof Hc as Hc'. unfold ready_refs in Hc' |- *.
  apply list_elem_of_filter in Hc' as [HP Hlt]. apply elem_of_seq in Hlt.
  set (P := λ r : nat, Process.is_arrived (deref s r) (current_time s) = true
                       ∧ Process.is_terminated (deref s r) = false) in *.
  assert (Hseq : seq 0 (length (processes s))
                 = seq 0 c ++ c :: seq (S c) (length (processes s) - S c)).
  { replace (length (processes s)) with (c + S (length (processes s) - S c))%nat
      at 1 by lia.
    by rewrite seq_app. }
  exists (filter P (seq 0 c)), (filter P (seq (S c) (length (processes s) - S c))).
  split; [|split].
  - rewrite Hseq, filter_app. by rewrite filter_cons_True.
  - intros x [_ Hx%elem_of_seq]%list_elem_of_filter. lia.
  - intros x [_ Hx%elem_of_seq]%list_elem_of_filter. lia.
Qed.

Lemma fcfs_key_trans (s : Scheduler) (x y z : nat) :
  tuple_ltb (FCFSScheduler.key s x) (FCFSScheduler.key s y) = true →
  tuple_ltb (FCFSScheduler.key s y) (FCFSScheduler.key s z) = true →
  tuple_ltb (FCFSScheduler.key s x) (FCFSScheduler.key s z) = true.
Proof. unfold FCFSScheduler.key. rewrite !tuple_ltb_2. lia. Qed.

Lemma fcfs_key_neg_trans (s : Scheduler) (x y z : nat) :
  tuple_ltb (FCFSScheduler.key s x) (FCFSScheduler.key s y) = true →
  tuple_ltb (FCFSScheduler.key s x) (FCFSScheduler.key s z) = true
  ∨ tuple_ltb (FCFSScheduler.key s z) (FCFSScheduler.key s y) = true.
Proof. unfold FCFSScheduler.key. rewrite !tuple_ltb_2. lia. Qed.

(** What [min] with the key (arrival_time, pid) returns, and the converse. *)
Lemma fcfs_selection_first s c :
  py_min (FCFSScheduler.key s) (ready_refs s) = Some c
  ↔ c ∈ ready_refs s ∧ fcfs_first s c.
Proof.
  split.
  - intros Hm. pose proof (py_min_elem _ _ _ Hm) as Hc. split; [done|].
    destruct (py_min_split _ (fcfs_key_trans s) (fcfs_key_neg_trans s) _ _ Hm)
      as (l1 & l2 & Heq & H1 & H2).
    destruct (ready_refs_split _ _ Hc) as (k1 & k2 & Heq' & Hk1 & Hk2).
    pose proof (ready_refs_NoDup s) as Hnd. rewrite Heq in Hnd.
    destruct (NoDup_split_unique _ _ _ k1 k2 Hnd) as [-> ->]; [congruence|].
    intros x Hx. rewrite Heq in Hx.
    apply elem_of_app in Hx as [Hx|[->|Hx]%elem_of_cons].
    + split; [intros _; by apply H1|]. specialize (Hk1 _ Hx). lia.
    + split; lia.
    + split; [|intros _; by apply H2]. specialize (Hk2 _ Hx). lia.
  - intros [Hc Hfirst].
    destruct (ready_refs_split _ _ Hc) as (k1 & k2 & Heq & Hk1 & Hk2).
    rewrite Heq. apply py_min_of_split.
    + intros x Hx. apply Hfirst; [|by apply Hk1].
      rewrite Heq. apply elem_of_app. by left.
    + intros x Hx. apply Hfirst; [|by apply Hk2].
      rewrite Heq. apply elem_of_app. right. by right.
Qed.

Lemma non_preemptive_selection s ready r s1 :
  non_preemptive (variant s) →
  get_next_process s ready = Some (r, s1) → s1 = s.
Proof.
  unfold get_next_process. intros [Hv|[Hv|Hv]]; rewrite Hv.
  - unfold FCFSScheduler.get_next_process.
    destruct (py_min _ _); simpl; [|done]. by intros [= _ <-].
  - unfold SJFScheduler.get_next_process.
    destruct (current_still_ready _ _); [by intros [= _ <-]|].
    destruct (py_min _ _); simpl; [|done]. by intros [= _ <-].
  - unfold PriorityScheduler.get_next_process.
    destruct (_ && _); [by intros [= _ <-]|].
    destruct (py_max _ _); simpl; [|done]. by intros [= _ <-].
Qed.

Lemma fcfs_key_insert_execute (ps : list Process.t) (n x : nat) t q :
  Process.pid (<[n := (Process.execute (ps !!! n) t q).1]> ps !!! x)
  = Process.pid (ps !!! x).
Proof.
  destruct (decide (n < length ps)%nat) as [Hlt|Hge].
  - destruct (decide (x = n)) as [->|Hne].
    + rewrite list_lookup_total_insert_eq by done.
      by destruct (execute_static (ps !!! n) t q) as (-> & _).
    + by rewrite list_lookup_total_insert_ne.
  - by rewrite list_insert_ge by lia.
Qed.

(** Under FCFS the process that stays on the CPU is still the first of the
    earliest ready processes at the next pass: who arrives in between arrives
    later than it did. *)
Lemma fcfs_first_pass s s' next s1 :
  valid_config s → run_inv s →
  py_min (FCFSScheduler.key s) (ready_refs s) = Some next →
  get_next_process s (ready_refs s) = Some (Some next, s1) →
  pass s s' → fcfs_first s' next.
Proof.
  intros Hcfg Hinv Hmin Hsel Hpass.
  apply fcfs_selection_first in Hmin as [Hnext Hfirst].
  destruct Hpass as [t Hready _ _ _|next' s1' _ Hsel' _ Hps _ _ _ Htime _ _ _];
    [by rewrite Hready in Hnext; apply elem_of_nil in Hnext|].
  rewrite Hsel in Hsel'. injection Hsel' as <- <-.
  assert (Hkey : ∀ y : nat, FCFSScheduler.key s' y = FCFSScheduler.key s y).
  { intros y. unfold FCFSScheduler.key, deref in *. rewrite Hps.
    by rewrite arrival_insert_execute, fcfs_key_insert_execute. }
  intros x Hx. rewrite !Hkey.
  destruct (decide (x = next)) as [->|Hne]; [split; lia|].
  apply ready_refs_elem in Hx as (Hlen & Harr & Hst).
  unfold deref in Harr, Hst. rewrite Hps in Hlen, Harr, Hst.
  rewrite length_insert in Hlen.
  rewrite list_lookup_total_insert_ne in Harr, Hst by done.
  destruct (decide (Process.arrival_time (deref s x) ≤ current_time s))
    as [Hold|Hnew].
  - apply Hfirst. apply ready_refs_elem. by repeat split.
  - pose proof (ready_refs_arrived _ _ Hnext) as Hn.
    assert (Hlt : tuple_ltb (FCFSScheduler.key s next) (FCFSScheduler.key s x)
                  = true).
    { unfold FCFSScheduler.key. apply tuple_ltb_2. lia. }
    split; [done|]. intros _.
    destruct (tuple_ltb (FCFSScheduler.key s x) (FCFSScheduler.key s next))
      eqn:Hgt; [|done].
    unfold FCFSScheduler.key in Hlt, Hgt. apply tuple_ltb_2 in Hlt, Hgt. lia.
Qed.

Lemma non_preemptive_inv until_time s0 s :
  non_preemptive (variant s0) → valid_config s0 →
  reaches until_time (reset s0) s →
  variant s = variant s0
  ∧ ∀ c, current_process s = Some c →
         get_next_process s (ready_refs s) = Some (Some c, s).
Proof.
  intros Hnp Hcfg Hreach.
  assert (H : variant s = variant s0
              ∧ ∀ c, current_process s = Some c → variant s = VFCFS →
                     fcfs_first s c).
  { apply (reaches_run_ind until_time
             (λ s, variant s = variant s0
                   ∧ ∀ c, current_process s = Some c → variant s = VFCFS →
                          fcfs_first s c) s0); [done| | |done].
    - split; [|done]. simpl. by destruct Hnp as [->|[->| ->]].
    - clear s Hreach. intros s s' Hreach Hinv Hcfg1 [Hv IH] Hpass.
      pose proof Hpass as Hpass'.
      destruct Hpass as [t Hready _ _ ->
                        |next s1 _ Hsel Hnext _ Hvar _ _ _ _ Hcur _].
      + split; [done|]. intros c Hc _. exfalso.
        pose proof (current_ready_inv _ _ _ _ Hcfg Hreach Hc) as Hin.
        rewrite Hready in Hin. by apply elem_of_nil in Hin.
      + assert (Hs1 : s1 = s).
        { eapply non_preemptive_selection; [|done]. by rewrite Hv. }
        subst s1. split; [congruence|]. intros c Hc Hfc. rewrite Hcur in Hc.
        destruct (Process.is_terminated _); [done|]. injection Hc as <-.
        eapply fcfs_first_pass; [done..| |done|done].
        rewrite Hvar in Hfc. unfold get_next_process in Hsel.
        rewrite Hfc in Hsel. unfold FCFSScheduler.get_next_process in Hsel.
        destruct (py_min _ _) as [r|]; simpl in Hsel; [|done].
        by injection Hsel as ->. }
  destruct H as [Hv Hfirst]. split; [done|]. intros c Hc.
  pose proof (current_ready_inv _ _ _ _ Hcfg Hreach Hc) as Hin.
  assert (Hcsr : current_still_ready s (ready_refs s) = true).
  { unfold current_still_ready. rewrite Hc.
    rewrite bool_decide_eq_true_2 by done.
    apply ready_refs_elem in Hin as (_ & _ & Hst).
    unfold Process.is_terminated. by rewrite bool_decide_eq_false_2. }
  unfold get_next_process. rewrite Hv.
  destruct Hnp as [Hv0|[Hv0|Hv0]]; rewrite Hv0.
  - unfold FCFSScheduler.get_next_process.
    assert (Hm : py_min (FCFSScheduler.key s) (ready_refs s) = Some c).
    { apply fcfs_selection_first. split; [done|]. apply Hfirst; congruence. }
    by rewrite Hm.
  - unfold SJFScheduler.get_next_process. by rewrite Hcsr, Hc.
  - unfold PriorityScheduler.get_next_process. by rewrite Hcsr, Hc.
Qed.

(** X7. FCFS, SJF and the Priority policy with [preemptive=False] never take
    the CPU from a process: in a run of a valid configuration, as long as the
    process that was executed last is not terminated, the policy selects it
    again at the next pass, whoever has arrived in the meantime. *)
Theorem non_preemptive_keeps_cpu until_time s0 s c :
  non_preemptive (variant s0) → valid_config s0 →
  reaches until_time (reset s0) s →
  current_process s = Some c →
  c ∈ ready_refs s
  ∧ get_next_process s (ready_refs s) = Some (Some c, s).
Proof.
  intros Hnp Hcfg Hreach Hc. split.
  - by eapply current_ready_inv.
  - by apply (non_preemptive_inv until_time s0 s Hnp Hcfg Hreach).
Qed.

Lemma scenario_sjf_valid : valid_config scenario_sjf.
Proof. split; [|split]; [repeat constructor|reflexivity|constructor]. Qed.

Lemma non_preemptive_keeps_cpu_witness :
  ∃ s, run_steps 2 None (reset scenario_sjf) = Some s
       ∧ current_process s = Some 0%nat
       ∧ ready_refs s = [0%nat; 1%nat; 2%nat]
       ∧ get_next_process s (ready_refs s) = Some (Some 0%nat, s).
Proof.
  eexists. split; [vm_compute; reflexivity|].
  match goal with
  | |- current_process ?s = _ ∧ _ =>
      assert (Hreach : reaches None (reset scenario_sjf) s)
        by (apply (run_steps_reaches 2); vm_compute; reflexivity)
  end.
  split; [reflexivity|]. split; [vm_compute; reflexivity|].
  refine (proj2 (non_preemptive_keeps_cpu None scenario_sjf _ 0%nat _
                   scenario_sjf_valid Hreach eq_refl)).
  right. left. reflexivity.
Defined.

(** X8. Under FCFS, SJF and the Priority policy with [preemptive=False] the
    context switch overhead is never charged, whatever its value: a switch is
    charged only when a process is taken off the CPU, and these policies let
    every process run until it terminates, after which the CPU counts as
    free.  No entry of the log of such a run is a CS entry. *)
Theorem non_preemptive_no_switch_cost until_time s0 s a b :
  non_preemptive (variant s0) → valid_config s0 →
  reaches until_time (reset s0) s →
  (CS, a, b) ∉ execution_log s.
Proof.
  intros Hnp Hcfg Hreach. revert a b.
  apply (reaches_run_ind until_time
           (λ s, ∀ a b, (CS, a, b) ∉ execution_log s) s0); [done| | |done].
  - intros a b. simpl. apply not_elem_of_nil.
  - clear s Hreach. intros s s' Hreach Hinv Hcfg1 IH Hpass a b.
    destruct Hpass as [t _ _ _ ->|next s1 _ Hsel _ _ _ _ _ _ Hlog _ _].
    + simpl. intros [Hin|[[=]|[]%elem_of_nil]%elem_of_cons]%elem_of_app.
      by apply (IH a b).
    + assert (Hsw : switch_charged s next = false).
      { unfold switch_charged. destruct (current_process s) as [c|] eqn:Hc.
        - destruct (non_preemptive_inv _ _ _ Hnp Hcfg Hreach) as [_ Hkeep].
          rewrite (Hkeep c Hc) in Hsel. injection Hsel as <- _.
          rewrite (bool_decide_eq_false_2 (Some c ≠ Some c)) by (by intros H).
          by rewrite andb_false_r.
        - rewrite (bool_decide_eq_false_2 (None ≠ None)) by (by intros H).
          by rewrite andb_false_r. }
      rewrite Hlog, Hsw. simpl.
      intros [Hin|[[=]|[]%elem_of_nil]%elem_of_cons]%elem_of_app.
      by apply (IH a b).
Qed.

Lemma non_preemptive_no_switch_cost_witness :
  ∃ s, run_steps 9 None (reset scenario_sjf) = Some s
       ∧ context_switch_overhead s = 1
       ∧ current_time s = 9
       ∧ (CS, 5, 6) ∉ execution_log s.
Proof.
  eexists. split; [vm_compute; reflexivity|].
  match goal with
  | |- context_switch_overhead ?s = _ ∧ _ =>
      assert (Hreach : reaches None (reset scenario_sjf) s)
        by (apply (run_steps_reaches 9); vm_compute; reflexivity)
  end.
  split; [reflexivity|]. split; [reflexivity|].
  refine (non_preemptive_no_switch_cost None scenario_sjf _ 5 6 _
            scenario_sjf_valid Hreach).
  right. left. reflexivity.
Defined.

(** ** The Round Robin queue and the ready list *)

Lemma deque_remove_elem_ne (x c : nat) q :
  x ∈ q → x ≠ c → x ∈ deque_remove c q.
Proof.
  induction q as [|y q IH]; simpl; [done|].
  intros [->|Hx]%elem_of_cons Hne.
  - rewrite decide_False by done. by left.
  - case_decide; [done|]. right. by apply IH.
Qed.

(** Distinct pids make distinct processes. *)
Lemma pid_inj (ps : list Process.t) (x y : nat) :
  NoDup (Process.pid <$> ps) →
  (x < length ps)%nat → (y < length ps)%nat →
  Process.pid (ps !!! x) = Process.pid (ps !!! y) → x = y.
Proof.
  intros Hnd Hx Hy Heq.
  destruct (lookup_lt_is_Some_2 ps x Hx) as [px Hpx].
  destruct (lookup_lt_is_Some_2 ps y Hy) as [py Hpy].
  rewrite (list_lookup_total_correct _ _ _ Hpx),
    (list_lookup_total_correct _ _ _ Hpy) in Heq.
  apply (NoDup_lookup _ _ _ (Process.pid px) Hnd).
  - by rewrite list_lookup_fmap, Hpx.
  - rewrite list_lookup_fmap, Hpy. simpl. by rewrite Heq.
Qed.

(** X9. In a Round Robin run on a workload of distinct pids, the queue that
    a call of [get_next_process] builds before it pops the head holds
    exactly the ready processes, each once: nobody who is ready is left out
    of the rotation, and nobody is in it who has not arrived or is done. *)
Theorem round_robin_queue_is_ready_list until_time s0 s tq q :
  valid_config s0 →
  NoDup (Process.pid <$> processes s0) →
  reaches until_time (reset s0) s →
  variant s = VRoundRobin tq q →
  RoundRobinScheduler.updated_queue s q (ready_refs s) ≡ₚ ready_refs s.
Proof.
  intros Hcfg Hpids Hreach Hv.
  destruct (reaches_inv _ _ _ Hreach) as [_ [Hnd Hal]].
  destruct (timing_inv _ _ _ Hcfg Hreach) as [_ Harr].
  unfold queued in Hnd, Hal, Harr. rewrite Hv in Hnd, Hal, Harr.
  rewrite <- (pids_inv _ _ _ Hreach) in Hpids.
  rewrite updated_queue_spec by apply ready_refs_NoDup.
  assert (Hq : ∀ x : nat, x ∈ q → x ∈ ready_refs s).
  { intros x Hx. rewrite Forall_forall in Hal.
    destruct (alive_lookup _ _ (Hal x Hx)) as [Hl Hst].
    apply ready_refs_elem. split; [by eapply lookup_lt_Some|].
    split; [by apply Harr|done]. }
  apply NoDup_Permutation;
    [by apply rr_expected_queue_NoDup; [|apply ready_refs_NoDup]
    |apply ready_refs_NoDup|].
  intros x. split.
  - intros [Hx|Hx]%rr_expected_queue_elem; [by apply Hq|done].
  - intros Hx.
    assert (H1 : x ∈ q ++ rr_fresh s q (ready_refs s)).
    { apply elem_of_app. destruct (decide (x ∈ q)) as [|Hnq]; [by left|right].
      unfold rr_fresh. apply list_elem_of_filter. split; [|done].
      split; [|done]. intros (y & Hpid & Hy)%list_elem_of_fmap.
      apply Hnq. replace x with y; [done|]. symmetry.
      apply (pid_inj (processes s)); [done| | |done].
      - by apply ready_refs_elem in Hx as [? _].
      - by apply ready_refs_elem, Hq. }
    unfold rr_expected_queue.
    destruct (current_still_ready s (ready_refs s)); [|done].
    destruct (current_process s) as [c|]; [|done].
    apply elem_of_app. destruct (decide (x = c)) as [->|Hne].
    + right. by left.
    + left. by apply deque_remove_elem_ne.
Qed.

Lemma round_robin_queue_is_ready_list_witness :
  ∃ s, run_steps 2 None (reset scenario_rr) = Some s
       ∧ variant s = VRoundRobin 2 [2%nat; 0%nat]
       ∧ ready_refs s = [0%nat; 1%nat; 2%nat]
       ∧ RoundRobinScheduler.updated_queue s [2%nat; 0%nat] (ready_refs s)
         ≡ₚ ready_refs s.
Proof.
  eexists. split; [vm_compute; reflexivity|].
  match goal with
  | |- variant ?s = _ ∧ _ =>
      assert (Hreach : reaches None (reset scenario_rr) s)
        by (apply (run_steps_reaches 2); vm_compute; reflexivity)
  end.
  split; [reflexivity|]. split; [vm_compute; reflexivity|].
  refine (round_robin_queue_is_ready_list None scenario_rr _ 2 [2%nat; 0%nat]
            scenario_rr_valid _ Hreach eq_refl).
  apply (bool_decide_unpack _). vm_compute. exact I.
Defined.

(** ** What the policies select *)

(** [min] returns an element that is least in every total preorder that the
    comparison of the keys decides. *)
Lemma py_min_least {A} (key : A → list Z) (le : A → A → Prop) :
  (∀ x, le x x) →
  (∀ x y z, le x y → le y z → le x z) →
  (∀ x y, if tuple_ltb (key x) (key y) then le x y else le y x) →
  ∀ l c, py_min key l = Some c → c ∈ l ∧ ∀ x, x ∈ l → le c x.
Proof.
  intros Hrefl Htrans Hdec l c Hm. split; [by eapply py_min_elem|].
  destruct l as [|b l]; [done|]. simpl in Hm. injection Hm as <-.
  set (f := λ best y : A, if tuple_ltb (key y) (key best) then y else best).
  assert (H : ∀ l b, le (foldl f b l) b ∧ ∀ x, x ∈ l → le (foldl f b l) x).
  { clear b l. intros l. induction l as [|y l IH]; intros b; simpl.
    - split; [done|]. by intros x ?%elem_of_nil.
    - destruct (IH (f b y)) as [H1 H2].
      assert (Hf : le (f b y) b ∧ le (f b y) y).
      { unfold f. pose proof (Hdec y b) as Hyb.
        destruct (tuple_ltb (key y) (key b)); by split. }
      destruct Hf as [Hfb Hfy]. split; [by eapply Htrans|].
      intros x [->|Hx]%elem_of_cons; [by eapply Htrans|by apply H2]. }
  destruct (H l b) as [H1 H2].
  intros x [->|Hx]%elem_of_cons; [done|by apply H2].
Qed.

(** X10. FCFS selects, whatever the current process and whatever the
    remaining times and priorities, a ready process that arrived no later
    than every other ready process, and with the lowest pid among those that
    arrived with it; it leaves the scheduler as it is, and raises only on an
    empty ready list. *)
Theorem fcfs_selects_earliest s ready :
  match FCFSScheduler.get_next_process s ready with
  | Some (Some r, s1) =>
      s1 = s ∧ r ∈ ready
      ∧ ∀ x : nat, x ∈ ready → earliest_first (deref s r) (deref s x)
  | Some (None, _) => False
  | None => ready = []
  end.
Proof.
  unfold FCFSScheduler.get_next_process.
  destruct (py_min (FCFSScheduler.key s) ready) as [r|] eqn:Hm; simpl.
  - split; [done|].
    apply (py_min_least (FCFSScheduler.key s)
             (λ a b : nat, earliest_first (deref s a) (deref s b))); [| | |done].
    + intros x. unfold earliest_first. lia.
    + intros x y z. unfold earliest_first. lia.
    + intros x y. unfold FCFSScheduler.key.
      destruct (tuple_ltb _ _) eqn:Hlt.
      * apply tuple_ltb_2 in Hlt. unfold earliest_first. lia.
      * assert (Hn : ¬ (Process.arrival_time (deref s x)
                          < Process.arrival_time (deref s y)
                        ∨ (Process.arrival_time (deref s x)
                           = Process.arrival_time (deref s y)
                           ∧ Process.pid (deref s x) < Process.pid (deref s y)))).
        { rewrite <- tuple_ltb_2, Hlt. done. }
        unfold earliest_first. lia.
  - by destruct ready.
Qed.

Lemma sjf_key_least s ready r :
  py_min (SJFScheduler.key s) ready = Some r →
  r ∈ ready ∧ ∀ x : nat, x ∈ ready → shortest_first (deref s r) (deref s x).
Proof.
  apply (py_min_least (SJFScheduler.key s)
           (λ a b : nat, shortest_first (deref s a) (deref s b))).
  - intros x. unfold shortest_first, earliest_first. lia.
  - intros x y z. unfold shortest_first, earliest_first. lia.
  - intros x y. unfold SJFScheduler.key.
    destruct (tuple_ltb _ _) eqn:Hlt.
    + apply tuple_ltb_3 in Hlt. unfold shortest_first, earliest_first. lia.
    + assert (Hn : ¬ (Process.remaining_time (deref s x)
                        < Process.remaining_time (deref s y)
                      ∨ (Process.remaining_time (deref s x)
                         = Process.remaining_time (deref s y)
                         ∧ (Process.arrival_time (deref s x)
                              < Process.arrival_time (deref s y)
                            ∨ (Process.arrival_time (deref s x)
                               = Process.arrival_time (deref s y)
                               ∧ Process.pid (deref s x)
                                 < Process.pid (deref s y)))))).
      { rewrite <- tuple_ltb_3, Hlt. done. }
      unfold shortest_first, earliest_first. lia.
Qed.

(** X11. SRTF selects at every call a ready process with the least
    remaining time (then earliest arrival, then lowest pid), whoever is on
    the CPU; SJF selects the same process whenever the current process is
    not ready any more, and otherwise keeps the current process, even when a
    shorter one is ready.  Neither changes the scheduler, and both raise only
    on an empty ready list. *)
Theorem srtf_selects_shortest s ready :
  match SRTFScheduler.get_next_process s ready with
  | Some (Some r, s1) =>
      s1 = s ∧ r ∈ ready
      ∧ (∀ x : nat, x ∈ ready → shortest_first (deref s r) (deref s x))
      ∧ SJFScheduler.get_next_process s ready
        = (if current_still_ready s ready
           then Some (current_process s, s) else Some (Some r, s))
  | Some (None, _) => False
  | None => ready = [] ∧ SJFScheduler.get_next_process s ready = None
  end.
Proof.
  unfold SRTFScheduler.get_next_process, SJFScheduler.get_next_process.
  destruct (py_min (SJFScheduler.key s) ready) as [r|] eqn:Hm; simpl.
  - split; [done|]. destruct (sjf_key_least _ _ _ Hm) as [Hr Hle].
    split; [done|]. split; [done|]. by destruct (current_still_ready s ready).
  - destruct ready; [|done]. split; [done|].
    unfold current_still_ready. destruct (current_process s); [|done].
    rewrite bool_decide_eq_false_2; [done|apply not_elem_of_nil].
Qed.

(** X12. The Priority policy with [preemptive=True] selects at every call,
    whoever is on the CPU, a ready process of the highest priority value
    (then earliest arrival, then highest pid); with [preemptive=False] it
    selects the same process whenever the current process is not ready any
    more, and otherwise keeps the current process. *)
Theorem priority_selects_highest s ready :
  match PriorityScheduler.get_next_process true s ready with
  | Some (Some r, s1) =>
      s1 = s ∧ r ∈ ready
      ∧ (∀ x : nat, x ∈ ready → coded_priority_order (deref s r) (deref s x))
      ∧ PriorityScheduler.get_next_process false s ready
        = (if current_still_ready s ready
           then Some (current_process s, s) else Some (Some r, s))
  | Some (None, _) => False
  | None => ready = [] ∧ PriorityScheduler.get_next_process false s ready = None
  end.
Proof.
  unfold PriorityScheduler.get_next_process. simpl.
  destruct (py_max (PriorityScheduler.key s) ready) as [r|] eqn:Hm; simpl.
  - split; [done|]. destruct (priority_selects_maximum _ _ _ Hm) as [Hr Hle].
    split; [done|]. split; [done|]. by destruct (current_still_ready s ready).
  - destruct ready; [|done]. split; [done|].
    unfold current_still_ready. destruct (current_process s); [|done].
    rewrite bool_decide_eq_false_2; [done|apply not_elem_of_nil].
Qed.

(** ** The two ways of computing the metrics *)

Lemma py_sum_Permutation (l k : list Z) : l ≡ₚ k → py_sum l = py_sum k.
Proof.
  induction 1 as [|x l k _ IH|x y l|l k m _ IH1 _ IH2];
    rewrite ?py_sum_cons; lia.
Qed.

Lemma lookup_total_seq (ps : list Process.t) :
  (λ r : nat, ps !!! r) <$> seq 0 (length ps) = ps.
Proof.
  induction ps as [|p ps IH]; [done|].
  simpl. f_equal. rewrite <- fmap_S_seq, <- list_fmap_compose.
  rewrite <- IH at 2. by apply list_fmap_ext.
Qed.

Lemma completed_objects_all s :
  all_completed s → completed_objects s ≡ₚ processes s.
Proof.
  intros [Hperm _]. unfold completed_objects, deref.
  rewrite Hperm. by rewrite lookup_total_seq.
Qed.

(** A run without a time budget ends with every process completed. *)
Lemma returned_all_completed n s0 s :
  valid_config s0 → run n None s0 = Returned s →
  reaches None (reset s0) s ∧ all_completed s.
Proof.
  intros Hcfg Hs. unfold run in Hs.
  apply run_loop_reaches in Hs as [Hreach Hend]. split; [done|].
  destruct (completed_inv _ _ _ Hreach) as [Hnd Hiff].
  assert (Hsub : ∀ x, x ∈ completed_processes s
                      → x ∈ seq 0 (length (processes s))).
  { intros x (p & Hp & _)%Hiff. apply elem_of_seq. split; [lia|]. simpl.
    by eapply lookup_lt_Some. }
  destruct (decide (length (completed_processes s) < length (processes s))%nat)
    as [Hlt|Hge].
  - destruct Hend as [Hc|Hb].
    + unfold loop_cond in Hc. by rewrite bool_decide_eq_true_2 in Hc.
    + eapply completed_all; [done|done|].
      apply NoDup_Permutation; [done|apply NoDup_seq|].
      intros x. split; [apply Hsub|].
      intros [_ Hx]%elem_of_seq. simpl in Hx. apply Hiff.
      destruct (lookup_lt_is_Some_2 (processes s) x Hx) as [p Hp].
      exists p. split; [done|].
      by apply (Forall_lookup_1 _ _ _ _ (break_all_terminated _ Hb) Hp).
  - eapply completed_all; [done|done|].
    apply submseteq_length_Permutation; [by apply NoDup_submseteq|].
    rewrite length_seq. lia.
Qed.

Lemma valid_config_reached until_time s0 s :
  valid_config s0 → reaches until_time (reset s0) s → valid_config s.
Proof.
  intros Hcfg Hreach.
  exact (proj2 (reaches_valid_ind until_time (λ _, True) s0 Hcfg I
                  (λ _ _ _ _ _ _, I) s Hreach)).
Qed.

(** *** The division *)

Lemma float_limit_ge : 2 ≤ float_limit.
Proof. apply Z.leb_le. vm_compute. reflexivity. Qed.

Lemma py_truediv_None a b :
  py_truediv a b = None ↔ b = 0 ∨ float_overflow a b = true.
Proof.
  unfold py_truediv. destruct (decide (b = 0)) as [Hb|Hb]; [by split; auto|].
  destruct (float_overflow a b); [by split; auto|].
  split; [done|]. by intros [?|?].
Qed.

Lemma py_truediv_Some a b :
  b ≠ 0 → float_overflow a b = false →
  py_truediv a b = Some (inject_Z a / inject_Z b)%Q.
Proof. intros Hb Ho. unfold py_truediv. by rewrite decide_False, Ho. Qed.

Lemma py_truediv_value a b q :
  py_truediv a b = Some q →
  q = (inject_Z a / inject_Z b)%Q ∧ b ≠ 0 ∧ float_overflow a b = false.
Proof.
  unfold py_truediv. destruct (decide (b = 0)); [done|].
  destruct (float_overflow a b); [done|]. by intros [= <-].
Qed.

(** A quotient of a numerator within [c] times the divisor does not
    overflow, for [c] below the limit. *)
Lemma float_overflow_false a b c :
  0 ≤ a → 0 < b → a ≤ c * b → c < float_limit → float_overflow a b = false.
Proof.
  intros Ha Hb Hab Hc. unfold float_overflow. apply Z.leb_gt.
  rewrite !Z.abs_eq by lia. revert Hc. generalize float_limit. intros L HL. nia.
Qed.

Lemma py_sum_bounds (l : list Z) lo hi :
  Forall (λ v, lo ≤ v ≤ hi) l →
  lo * Z.of_nat (length l) ≤ py_sum l ≤ hi * Z.of_nat (length l).
Proof.
  induction 1 as [|v l Hv _ IH]; [unfold py_sum; simpl; lia|].
  rewrite py_sum_cons. simpl length. lia.
Qed.

(** *** What the completed processes carry *)

Lemma arrivals_inv until_time s0 s :
  reaches until_time (reset s0) s →
  Process.arrival_time <$> processes s = Process.arrival_time <$> processes s0.
Proof.
  intros Hs.
  apply (reaches_pass_ind until_time
           (λ s, Process.arrival_time <$> processes s
                 = Process.arrival_time <$> processes s0)
           (reset s0)); [apply reset_inv| | |done].
  - simpl. rewrite <- list_fmap_compose. by apply list_fmap_ext.
  - intros s1 s2 _ IH [t _ _ _ ->|next s1' _ _ Hnext Hps _ _ _ _ _ _ _]; [done|].
    rewrite Hps, list_fmap_insert, <- IH.
    destruct (alive_lookup _ _ Hnext) as [Hl _].
    destruct (execute_static (deref s1 next) (dispatch_time s1 next) (time_slice s1'))
      as (_ & -> & _).
    apply list_insert_id. by rewrite list_lookup_fmap, Hl.
Qed.

(** Every completed process has a finish time and a response time; its
    turnaround is positive and its response time is not negative, and both
    are at most the clock less the arrival time. *)
Lemma completed_times until_time s0 s p :
  valid_config s0 → reaches until_time (reset s0) s →
  p ∈ completed_objects s →
  p ∈ processes s
  ∧ Process.waiting_time p = 0
  ∧ (∃ v, Process.get_turnaround_time p = Some v
          ∧ 0 < v ≤ current_time s - Process.arrival_time p)
  ∧ (∃ v, Process.get_response_time p = Some v
          ∧ 0 ≤ v ≤ current_time s - Process.arrival_time p).
Proof.
  intros Hcfg Hreach (c & -> & Hc)%list_elem_of_fmap.
  destruct (completed_inv _ _ _ Hreach) as [_ Hiff].
  destruct (reaches_inv _ _ _ Hreach) as [Hok _].
  destruct (timing_inv _ _ _ Hcfg Hreach) as [Htim _].
  pose proof (valid_config_reached _ _ _ Hcfg Hreach) as (Hb & _).
  apply Hiff in Hc as (p & Hp & Hst).
  unfold deref. rewrite (list_lookup_total_correct _ _ _ Hp).
  split; [by eapply list_elem_of_lookup_2|].
  pose proof (Forall_lookup_1 _ _ _ _ Hok Hp) as [Hw Hpo].
  pose proof (Forall_lookup_1 _ _ _ _ Htim Hp) as (Hsp & Hend & _ & Hrs & Hf).
  pose proof (Forall_lookup_1 _ _ _ _ Hb Hp) as Hbp.
  pose proof (Forall_lookup_1 _ _ _ _ (cpu_time_sum_inv _ _ _ Hreach) Hp) as Hs.
  pose proof (Forall_lookup_1 _ _ _ _ (remaining_time_inv _ _ _ Hcfg Hreach) Hp)
    as (_ & _ & Hz).
  simpl in Hbp, Hs. specialize (Hz Hst).
  rewrite Hst in Hpo. destruct Hpo as (_ & _ & _ & Hne).
  rewrite decide_True in Hf by done.
  split; [done|]. unfold Process.get_turnaround_time, Process.get_response_time.
  rewrite Hf, Hrs.
  destruct (last (Process.execution_history p)) as [[a f]|] eqn:Hl;
    [|by apply last_None in Hl].
  pose proof (spaced_sum _ _ _ _ Hsp Hl) as Hle.
  unfold Process.executed_time in Hs.
  rewrite Forall_forall in Hend.
  pose proof (Hend _ (last_Some_elem_of _ _ Hl)) as Hfc. simpl in Hfc.
  split.
  - exists (f - Process.arrival_time p). split; [done|]. lia.
  - destruct (Process.execution_history p) as [|[a0 b0] h]; [done|].
    exists (a0 - Process.arrival_time p). split; [done|].
    destruct Hsp as (? & ? & _). simpl.
    pose proof (Hend (a0, b0) ltac:(by left)) as Hb0. simpl in Hb0. lia.
Qed.

Lemma mapM_bounds (f : Process.t → option Z) (P : Z → Prop) l :
  (∀ p, p ∈ l → ∃ v, f p = Some v ∧ P v) →
  ∃ vs, mapM f l = Some vs ∧ Forall P vs ∧ length vs = length l.
Proof.
  induction l as [|p l IH]; intros Hl.
  - by exists [].
  - destruct (Hl p) as (v & Hv & HP); [by left|].
    destruct IH as (vs & Hvs & HPs & Hlen); [intros q Hq; apply Hl; by right|].
    apply mapM_Some in Hvs. exists (v :: vs).
    split; [apply mapM_Some; by constructor|].
    split; [by constructor|simpl; by rewrite Hlen].
Qed.

(** The lists of turnaround and response times of the completed
    processes.  With arrival times that are not negative, no entry exceeds
    the clock. *)
Lemma completed_lists until_time s0 s :
  valid_config s0 → reaches until_time (reset s0) s →
  py_sum (Process.get_waiting_time <$> completed_objects s) = 0
  ∧ ∃ ts rs,
      mapM Process.get_turnaround_time (completed_objects s) = Some ts
      ∧ mapM Process.get_response_time (completed_objects s) = Some rs
      ∧ length ts = length (completed_objects s)
      ∧ length rs = length (completed_objects s)
      ∧ Forall (λ v, 0 < v) ts ∧ Forall (λ v, 0 ≤ v) rs
      ∧ ((∀ p, p ∈ processes s0 → 0 ≤ Process.arrival_time p) →
         Forall (λ v, 0 ≤ v ≤ current_time s) ts
         ∧ Forall (λ v, 0 ≤ v ≤ current_time s) rs).
Proof.
  intros Hcfg Hreach.
  pose proof (λ p, completed_times until_time s0 s p Hcfg Hreach) as Hfin.
  assert (Harr : ∀ p, p ∈ processes s →
                      Process.arrival_time p ∈ Process.arrival_time <$> processes s0).
  { intros p Hp. rewrite <- (arrivals_inv _ _ _ Hreach).
    by apply list_elem_of_fmap_2. }
  split.
  { clear Harr. induction (completed_objects s) as [|p ps IH]; [done|].
    csimpl. rewrite py_sum_cons.
    destruct (Hfin p) as (_ & Hp & _); [by left|].
    unfold Process.get_waiting_time at 1. rewrite Hp, IH; [done|].
    intros q Hq. apply Hfin. by right. }
  destruct (mapM_bounds Process.get_turnaround_time
              (λ v, 0 < v ∧ ((∀ p, p ∈ processes s0 → 0 ≤ Process.arrival_time p)
                             → v ≤ current_time s))
              (completed_objects s)) as (ts & Hts & Htp & Htl).
  { intros p Hp. destruct (Hfin p Hp) as (Hin & _ & (v & Hv & Hb) & _).
    exists v. split; [done|]. split; [lia|]. intros H0.
    apply Harr, list_elem_of_fmap in Hin as (p0 & Heq & Hp0).
    specialize (H0 p0 Hp0). lia. }
  destruct (mapM_bounds Process.get_response_time
              (λ v, 0 ≤ v ∧ ((∀ p, p ∈ processes s0 → 0 ≤ Process.arrival_time p)
                             → v ≤ current_time s))
              (completed_objects s)) as (rs & Hrs & Hrp & Hrl).
  { intros p Hp. destruct (Hfin p Hp) as (Hin & _ & _ & (v & Hv & Hb)).
    exists v. split; [done|]. split; [lia|]. intros H0.
    apply Harr, list_elem_of_fmap in Hin as (p0 & Heq & Hp0).
    specialize (H0 p0 Hp0). lia. }
  exists ts, rs. split; [done|]. split; [done|]. split; [done|]. split; [done|].
  split; [eapply Forall_impl; [exact Htp|]; by intros v [? _]|].
  split; [eapply Forall_impl; [exact Hrp|]; by intros v [? _]|].
  intros H0. split.
  - eapply Forall_impl; [exact Htp|]. intros v [? Hv]. specialize (Hv H0). lia.
  - eapply Forall_impl; [exact Hrp|]. intros v [? Hv]. specialize (Hv H0). lia.
Qed.

Lemma average_unfold s (f : Process.t → option Z) vs :
  mapM f (completed_objects s) = Some vs →
  match completed_objects s with
  | [] => Some 0%Q
  | ps => ts ← mapM f ps; py_truediv (py_sum ts) (Z.of_nat (length ps))
  end
  = if decide (completed_processes s = []) then Some 0%Q
    else py_truediv (py_sum vs) (Z.of_nat (length (completed_processes s))).
Proof.
  assert (Hlen : length (completed_objects s) = length (completed_processes s)).
  { unfold completed_objects. by rewrite length_fmap. }
  rewrite <- Hlen. clear Hlen.
  assert (Hnil : completed_processes s = [] ↔ completed_objects s = []).
  { unfold completed_objects. by destruct (completed_processes s). }
  destruct (completed_objects s) as [|p ps]; intros Hm.
  - by rewrite decide_True by (by apply Hnil).
  - rewrite decide_False by (by rewrite Hnil). cbv beta iota zeta. by rewrite Hm.
Qed.

(** *** [calculate_metrics] *)

Lemma calculate_metrics_body ps total_time scheduler_name :
  ps ≠ [] →
  PerformanceMetrics.calculate_metrics ps total_time scheduler_name
  = (turnaround_times ← mapM Process.get_turnaround_time ps;
     response_times ← mapM Process.get_response_time ps;
     avg_waiting_time ← py_truediv (py_sum (Process.get_waiting_time <$> ps))
                          (Z.of_nat (length ps));
     avg_turnaround_time ← py_truediv (py_sum turnaround_times)
                             (Z.of_nat (length ps));
     avg_response_time ← py_truediv (py_sum response_times) (Z.of_nat (length ps));
     throughput ← py_truediv (Z.of_nat (length ps)) total_time;
     cpu_utilization ←
       (if bool_decide (0 < total_time)
        then ratio ← py_truediv (py_sum (Process.executed_time <$> ps)) total_time;
             Some (ratio * 100)%Q
        else Some 0%Q);
     Some (PerformanceMetrics.mk_metrics scheduler_name avg_waiting_time
             avg_turnaround_time avg_response_time throughput cpu_utilization)).
Proof. by destruct ps. Qed.

(** X13. [calculate_metrics] raises on a list that is not empty exactly
    when the total time is 0 (the throughput is divided by it without the
    guard that the CPU utilization has), or some process of the list has no
    finish time or no response time, or one of its five quotients is too
    large for a float. *)
Theorem calculate_metrics_raises ps total_time scheduler_name :
  ps ≠ [] →
  PerformanceMetrics.calculate_metrics ps total_time scheduler_name = None
  ↔ total_time = 0
    ∨ (∃ p, p ∈ ps ∧ (Process.finish_time p = None
                      ∨ Process.response_time p = None))
    ∨ metrics_overflow ps total_time.
Proof.
  intros Hne.
  assert (Hn : Z.of_nat (length ps) ≠ 0) by (destruct ps; simpl; [done|lia]).
  rewrite (calculate_metrics_body ps total_time scheduler_name Hne).
  unfold metrics_overflow.
  destruct (mapM Process.get_turnaround_time ps) as [ts|] eqn:Hts.
  2:{ split; [intros _|done]. right. left.
      apply mapM_None, Exists_exists in Hts as (p & Hp & Hf).
      exists p. split; [done|left]. unfold Process.get_turnaround_time in Hf.
      by destruct (Process.finish_time p). }
  destruct (mapM Process.get_response_time ps) as [rs|] eqn:Hrs.
  2:{ split; [intros _|done]. right. left.
      apply mapM_None, Exists_exists in Hrs as (p & Hp & Hf).
      exists p. split; [done|by right]. }
  assert (Hall : ∀ p, p ∈ ps → Process.finish_time p ≠ None
                               ∧ Process.response_time p ≠ None).
  { intros p Hp.
    assert (His : is_Some (mapM Process.get_turnaround_time ps)) by eauto.
    assert (His' : is_Some (mapM Process.get_response_time ps)) by eauto.
    apply mapM_is_Some in His, His'. rewrite Forall_forall in His, His'.
    destruct (His p Hp) as [v Hv]. destruct (His' p Hp) as [v' Hv'].
    simpl in Hv, Hv'. unfold Process.get_turnaround_time in Hv.
    unfold Process.get_response_time in Hv'.
    split; [by destruct (Process.finish_time p)|congruence]. }
  change (Some ts ≫= ?f) with (f ts). cbv beta.
  change (Some rs ≫= ?f) with (f rs). cbv beta.
  destruct (py_truediv (py_sum (Process.get_waiting_time <$> ps))
              (Z.of_nat (length ps))) as [w|] eqn:Hw.
  2:{ split; [intros _|done]. right. right. left.
      apply py_truediv_None in Hw as [?|?]; done. }
  destruct (py_truediv (py_sum ts) (Z.of_nat (length ps))) as [t|] eqn:Ht.
  2:{ split; [intros _|done]. right. right. right. left.
      apply py_truediv_None in Ht as [?|?]; [done|]. by exists ts. }
  destruct (py_truediv (py_sum rs) (Z.of_nat (length ps))) as [r|] eqn:Hr.
  2:{ split; [intros _|done]. right. right. right. right. left.
      apply py_truediv_None in Hr as [?|?]; [done|]. by exists rs. }
  destruct (py_truediv (Z.of_nat (length ps)) total_time) as [th|] eqn:Hth.
  2:{ split; [intros _|done].
      apply py_truediv_None in Hth as [?|?]; [by left|]. do 5 right. by left. }
  change (Some w ≫= ?f) with (f w). cbv beta.
  change (Some t ≫= ?f) with (f t). cbv beta.
  change (Some r ≫= ?f) with (f r). cbv beta.
  change (Some th ≫= ?f) with (f th). cbv beta.
  apply py_truediv_value in Hw as (_ & _ & Hw), Ht as (_ & _ & Ht),
    Hr as (_ & _ & Hr), Hth as (_ & Hth0 & Hth).
  assert (Hrest : ¬ (total_time = 0
                     ∨ (∃ p, p ∈ ps ∧ (Process.finish_time p = None
                                       ∨ Process.response_time p = None))
                     ∨ float_overflow (py_sum (Process.get_waiting_time <$> ps))
                         (Z.of_nat (length ps)) = true
                     ∨ (∃ ts0, Some ts = Some ts0
                               ∧ float_overflow (py_sum ts0)
                                   (Z.of_nat (length ps)) = true)
                     ∨ (∃ rs0, Some rs = Some rs0
                               ∧ float_overflow (py_sum rs0)
                                   (Z.of_nat (length ps)) = true)
                     ∨ float_overflow (Z.of_nat (length ps)) total_time = true)).
  { intros [?|[(p & Hp & Hf)|[?|[(ts0 & [= <-] & ?)|[(rs0 & [= <-] & ?)|?]]]]];
      try congruence.
    destruct (Hall p Hp). by destruct Hf. }
  case_bool_decide as Hpos.
  - destruct (py_truediv (py_sum (Process.executed_time <$> ps)) total_time)
      as [c|] eqn:Hc.
    + split; [done|]. apply py_truediv_value in Hc as (_ & _ & Hc).
      intros [H|[H|[H|[H|[H|[H|[_ H]]]]]]]; [| | | | | |congruence];
        exfalso; apply Hrest; auto 10.
    + split; [intros _|done]. do 6 right.
      apply py_truediv_None in Hc as [?|?]; [done|]. by split.
  - split; [done|].
    intros [H|[H|[H|[H|[H|[H|[H _]]]]]]]; [| | | | | |done];
      exfalso; apply Hrest; auto 10.
Qed.

(** A finished process and a total time of 0: the division raises. *)
Lemma calculate_metrics_raises_witness :
  Process.finish_time (Process.execute (Process.init 1 "P1" 0 5 0) 0 5).1 = Some 5
  ∧ PerformanceMetrics.calculate_metrics
      [(Process.execute (Process.init 1 "P1" 0 5 0) 0 5).1] 0 "FCFS" = None.
Proof.
  split; [reflexivity|].
  apply (calculate_metrics_raises
           [(Process.execute (Process.init 1 "P1" 0 5 0) 0 5).1] 0 "FCFS");
    [done|by left].
Defined.

Lemma py_sum_lower (l : list Z) lo :
  Forall (λ v, lo ≤ v) l → lo * Z.of_nat (length l) ≤ py_sum l.
Proof.
  induction 1 as [|v l Hv _ IH]; [unfold py_sum; simpl; lia|].
  rewrite py_sum_cons. simpl length. lia.
Qed.

Lemma average_waiting_zero until_time s0 s :
  valid_config s0 → reaches until_time (reset s0) s →
  ∃ w, get_average_waiting_time s = Some w ∧ (w == 0)%Q.
Proof.
  intros Hcfg Hreach.
  destruct (completed_lists _ _ _ Hcfg Hreach) as [Hw _].
  revert Hw. unfold get_average_waiting_time.
  destruct (completed_objects s) as [|p ps]; [by exists 0%Q|]. intros ->.
  rewrite py_truediv_Some.
  - eexists. split; [done|]. unfold Qeq, Qdiv, Qmult, inject_Z. simpl. lia.
  - simpl. lia.
  - apply (float_overflow_false _ _ 0); [done|simpl; lia|lia|].
    pose proof float_limit_ge. lia.
Qed.

(** X14. When a run without a time budget of a valid configuration with at
    least one process has returned, the clock is positive and
    [calculate_metrics], given the completed processes and the clock, agrees
    with the scheduler: it raises exactly when one of the scheduler's three
    averages raises, and otherwise returns the same three averages and, from
    the histories of the processes, the CPU utilization that the scheduler
    computes from its log; the throughput and the CPU utilization never
    raise.  The average waiting time is 0.  When no arrival time is negative
    and the clock is below the float range nothing raises. *)
Theorem metrics_agree_on_finished_run n s0 s scheduler_name :
  valid_config s0 → processes s0 ≠ [] →
  run n None s0 = Returned s →
  0 < current_time s
  ∧ (∃ w, get_average_waiting_time s = Some w ∧ (w == 0)%Q)
  ∧ PerformanceMetrics.calculate_metrics (completed_objects s)
      (current_time s) scheduler_name
    = (w ← get_average_waiting_time s;
       t ← get_average_turnaround_time s;
       r ← get_average_response_time s;
       Some (PerformanceMetrics.mk_metrics scheduler_name w t r
               (inject_Z (Z.of_nat (length (completed_processes s)))
                / inject_Z (current_time s))%Q
               (get_cpu_utilization s)))
  ∧ ((∀ p, p ∈ processes s0 → 0 ≤ Process.arrival_time p) →
     current_time s < float_limit →
     ∃ m, PerformanceMetrics.calculate_metrics (completed_objects s)
            (current_time s) scheduler_name = Some m
          ∧ PerformanceMetrics.cpu_utilization m = get_cpu_utilization s).
Proof.
  intros Hcfg Hne Hrun.
  destruct (returned_all_completed _ _ _ Hcfg Hrun) as [Hreach Hall].
  pose proof (completed_objects_all _ Hall) as Hperm.
  destruct Hall as (_ & _ & Hdone).
  pose proof (length_processes_inv _ _ _ Hreach) as Hlen.
  pose proof float_limit_ge as Hfl.
  assert (Hps : processes s ≠ []).
  { intros Hnil. rewrite Hnil in Hlen. by destruct (processes s0). }
  assert (Hco : completed_objects s ≠ []).
  { intros Hnil. rewrite Hnil in Hperm. symmetry in Hperm.
    by apply Permutation_nil_r in Hperm. }
  assert (Hcl : length (completed_objects s) = length (completed_processes s)).
  { unfold completed_objects. by rewrite length_fmap. }
  assert (Hcp : completed_processes s ≠ []).
  { intros Hnil. rewrite Hnil in Hcl. by destruct (completed_objects s). }
  (* the clock covers what the processes have executed, one unit each at least *)
  pose proof (log_contiguous_inv _ _ _ Hcfg Hreach) as Hc.
  destruct (contiguous_spans _ _ _ Hc) as (Hsum & Hi & Hcs & _).
  rewrite (busy_time_inv _ _ _ Hreach) in Hsum.
  assert (Hexec : py_sum (Process.executed_time <$> completed_objects s)
                  = executed_total s).
  { unfold executed_total. apply py_sum_Permutation. by rewrite Hperm. }
  assert (Hcount : Z.of_nat (length (completed_objects s)) ≤ executed_total s).
  { destruct (valid_config_reached _ _ _ Hcfg Hreach) as (Hb & _).
    rewrite (Permutation_length Hperm).
    rewrite <- (length_fmap Process.executed_time (processes s)).
    unfold executed_total.
    pose proof (py_sum_lower (Process.executed_time <$> processes s) 1) as Hlow.
    rewrite Z.mul_1_l in Hlow. apply Hlow, Forall_fmap, Forall_forall.
    intros p Hp. rewrite Forall_forall in Hdone, Hb.
    destruct (Hdone p Hp) as (_ & _ & Hex & _). specialize (Hb p Hp).
    simpl in *. lia. }
  assert (Hn : 0 < Z.of_nat (length (completed_objects s))).
  { destruct (completed_objects s); simpl; [done|lia]. }
  assert (Htime : 0 < current_time s) by lia.
  split; [done|].
  destruct (average_waiting_zero _ _ _ Hcfg Hreach) as (w & Haw & Hw0).
  split; [by exists w|].
  destruct (completed_lists _ _ _ Hcfg Hreach)
    as (Hwsum & ts & rs & Hts & Hrs & Htl & Hrl & Htp & Hrp & Hbound).
  assert (Hawd : py_truediv (py_sum (Process.get_waiting_time <$> completed_objects s))
                   (Z.of_nat (length (completed_objects s))) = Some w).
  { rewrite <- Haw. revert Hco. unfold get_average_waiting_time.
    by destruct (completed_objects s). }
  assert (Hat : get_average_turnaround_time s
                = py_truediv (py_sum ts) (Z.of_nat (length (completed_objects s)))).
  { etrans; [exact (average_unfold _ _ _ Hts)|].
    by rewrite decide_False, Hcl. }
  assert (Har : get_average_response_time s
                = py_truediv (py_sum rs) (Z.of_nat (length (completed_objects s)))).
  { etrans; [exact (average_unfold _ _ _ Hrs)|].
    by rewrite decide_False, Hcl. }
  assert (Hth : py_truediv (Z.of_nat (length (completed_objects s))) (current_time s)
                = Some (inject_Z (Z.of_nat (length (completed_processes s)))
                        / inject_Z (current_time s))%Q).
  { rewrite <- Hcl. apply py_truediv_Some; [lia|].
    apply (float_overflow_false _ _ 1); lia. }
  assert (Hcpu : py_truediv (py_sum (Process.executed_time <$> completed_objects s))
                   (current_time s)
                 = Some (inject_Z (executed_total s) / inject_Z (current_time s))%Q).
  { rewrite Hexec. apply py_truediv_Some; [lia|].
    apply (float_overflow_false _ _ 1); lia. }
  assert (Hu : get_cpu_utilization s
               = (inject_Z (executed_total s) / inject_Z (current_time s) * 100)%Q).
  { unfold get_cpu_utilization. rewrite decide_False by lia. do 3 f_equal. lia. }
  assert (Heq : PerformanceMetrics.calculate_metrics (completed_objects s)
                  (current_time s) scheduler_name
                = (w ← get_average_waiting_time s;
                   t ← get_average_turnaround_time s;
                   r ← get_average_response_time s;
                   Some (PerformanceMetrics.mk_metrics scheduler_name w t r
                           (inject_Z (Z.of_nat (length (completed_processes s)))
                            / inject_Z (current_time s))%Q
                           (get_cpu_utilization s)))).
  { rewrite (calculate_metrics_body _ _ _ Hco), Hts, Hrs, Haw, Hat, Har, Hu.
    change (Some ts ≫= ?f) with (f ts). cbv beta.
    change (Some rs ≫= ?f) with (f rs). cbv beta.
    rewrite Hawd, Hth, Hcpu, bool_decide_eq_true_2 by done.
    destruct (py_truediv (py_sum ts) _) as [t|]; [|reflexivity].
    destruct (py_truediv (py_sum rs) _) as [r|]; reflexivity. }
  split; [exact Heq|].
  intros Harr Hclock. specialize (Hbound Harr). destruct Hbound as [Htb Hrb].
  pose proof (py_sum_bounds _ _ _ Htb) as Hts_sum.
  pose proof (py_sum_bounds _ _ _ Hrb) as Hrs_sum.
  rewrite Htl in Hts_sum. rewrite Hrl in Hrs_sum.
  rewrite Heq, Haw, Hat, Har, Hu.
  rewrite (py_truediv_Some (py_sum ts)), (py_truediv_Some (py_sum rs));
    [|lia|apply (float_overflow_false _ _ (current_time s)); lia
     |lia|apply (float_overflow_false _ _ (current_time s)); lia].
  eexists. split; reflexivity.
Qed.

(** The Round Robin scenario, run to its end at time 12. *)
Lemma metrics_agree_on_finished_run_witness :
  ∃ s, run 20 None scenario_rr = Returned s
       ∧ current_time s = 12
       ∧ ∃ m, PerformanceMetrics.calculate_metrics (completed_objects s)
                (current_time s) "Round Robin" = Some m
              ∧ PerformanceMetrics.cpu_utilization m = get_cpu_utilization s.
Proof.
  eexists. split; [vm_compute; reflexivity|].
  match goal with
  | |- current_time ?s = _ ∧ _ =>
      assert (Hrun : run 20 None scenario_rr = Returned s)
        by (vm_compute; reflexivity)
  end.
  split; [reflexivity|].
  destruct (metrics_agree_on_finished_run 20 scenario_rr _ "Round Robin"
              scenario_rr_valid ltac:(done) Hrun)
    as (_ & _ & _ & Hm).
  apply Hm.
  - apply (Forall_forall (λ p, 0 ≤ Process.arrival_time p)).
    repeat (constructor; [vm_compute; discriminate|]). constructor.
  - apply Z.ltb_lt. vm_compute. reflexivity.
Defined.

(** ** The tier of a process *)

Lemma tier_assigned_append qc s qs (r i : nat) :
  tier_assigned qc s qs →
  py_index (length qs)
    (MultilevelQueueScheduler.get_queue_for_process qc (deref s r)) = Some i →
  tier_assigned qc s (alter (MultilevelQueueScheduler.tier_append r) i qs).
Proof.
  intros Hta Hi j t x Hj Hx. rewrite length_alter.
  destruct (decide (j = i)) as [->|Hne].
  - rewrite list_lookup_alter_eq in Hj.
    apply fmap_Some in Hj as (t0 & Ht0 & ->). simpl in Hx.
    apply elem_of_app in Hx as [Hx|Hx%list_elem_of_singleton].
    + by apply (Hta i t0).
    + by subst x.
  - rewrite list_lookup_alter_ne in Hj by done. by apply (Hta j t).
Qed.

Lemma tier_assigned_within qc s (qs qs' : list tier) :
  tier_assigned qc s qs →
  Forall2 (λ t t', ∀ x, x ∈ tier_queue t' → x ∈ tier_queue t) qs qs' →
  tier_assigned qc s qs'.
Proof.
  intros Hta Hf i t' x Hi Hx. rewrite <- (Forall2_length _ _ _ Hf).
  destruct (Forall2_lookup_r _ _ _ _ _ Hf Hi) as (t & Ht & Hsub).
  apply (Hta i t); [done|by apply Hsub].
Qed.

Lemma enqueue_arrivals_assigned qc s qs ready qs' :
  MultilevelQueueScheduler.enqueue_arrivals qc s qs ready = Some qs' →
  tier_assigned qc s qs → tier_assigned qc s qs'.
Proof.
  unfold MultilevelQueueScheduler.enqueue_arrivals.
  revert qs. induction ready as [|r ready IH]; intros qs; simpl.
  - by intros [= <-].
  - destruct (negb _ && _); [|apply IH].
    destruct (MultilevelQueueScheduler.append_to_tier qc s r qs) as [qs1|] eqn:Ha;
      [|by rewrite enqueue_arrivals_None].
    intros Hf Hta. apply (IH qs1 Hf).
    unfold MultilevelQueueScheduler.append_to_tier in Ha.
    destruct (py_index _ _) as [i|] eqn:Hi; simpl in Ha; [|done].
    injection Ha as <-. by apply tier_assigned_append.
Qed.

Lemma requeue_current_assigned qc s qs ready qs' :
  MultilevelQueueScheduler.requeue_current qc s qs ready = Some qs' →
  tier_assigned qc s qs → tier_assigned qc s qs'.
Proof.
  unfold MultilevelQueueScheduler.requeue_current.
  destruct (current_still_ready s ready); [|by intros [= <-]].
  destruct (current_process s) as [c|]; [|by intros [= <-]].
  destruct (py_index _ _) as [i|] eqn:Hi; simpl; [|done].
  destruct (qs !! i) as [t|]; simpl; [|done].
  destruct (tier_algorithm t); [|by intros [= <-]].
  intros [= <-] Hta. apply tier_assigned_append.
  - apply (tier_assigned_within _ _ qs); [done|].
    apply Forall2_fmap_r, Forall_Forall2_diag, Forall_forall.
    intros t0 _ x Hx. by apply deque_remove_elem in Hx.
  - by rewrite length_fmap.
Qed.

Lemma select_from_queues_within qs r qs' slice :
  MultilevelQueueScheduler.select_from_queues qs = Some (r, qs', slice) →
  Forall2 (λ t t', ∀ x, x ∈ tier_queue t' → x ∈ tier_queue t) qs qs'.
Proof.
  revert qs'. induction qs as [|t qs IH]; intros qs'; simpl; [done|].
  destruct (tier_queue t) as [|x q'] eqn:Hq.
  - destruct (MultilevelQueueScheduler.select_from_queues qs)
      as [[[r1 rest'] slice1]|]; simpl; [|done].
    intros [= -> <- ->]. constructor; [done|by apply IH].
  - intros [= -> <- <-]. constructor.
    + simpl. rewrite Hq. intros y Hy. by right.
    + by apply Forall_Forall2_diag, Forall_forall.
Qed.

Lemma get_next_process_assigned qc qs s ready r s1 :
  variant s = VMultilevel qc qs → tier_assigned qc s qs →
  get_next_process s ready = Some (r, s1) →
  ∃ qs', variant s1 = VMultilevel qc qs' ∧ tier_assigned qc s qs'.
Proof.
  intros Hv Hta. unfold get_next_process. rewrite Hv.
  unfold MultilevelQueueScheduler.get_next_process,
    MultilevelQueueScheduler.updated_queues.
  destruct (MultilevelQueueScheduler.enqueue_arrivals qc s qs ready)
    as [qs1|] eqn:E1; simpl; [|done].
  destruct (MultilevelQueueScheduler.requeue_current qc s qs1 ready)
    as [qs2|] eqn:E2; simpl; [|done].
  pose proof (requeue_current_assigned _ _ _ _ _ E2
                (enqueue_arrivals_assigned _ _ _ _ _ E1 Hta)) as Hta2.
  destruct (MultilevelQueueScheduler.select_from_queues qs2)
    as [[[x qs3] slice]|] eqn:E3.
  - apply select_from_queues_within in E3.
    pose proof (tier_assigned_within _ _ _ _ Hta2 E3) as Hta3.
    destruct slice; intros [= _ <-]; by exists qs3.
  - destruct ready as [|r0 ready']; [by intros [= _ <-]; exists qs2|].
    destruct (py_min _ _); simpl; [|done]. intros [= _ <-]. by exists qs2.
Qed.

Lemma priority_insert_execute (ps : list Process.t) (n x : nat) t q :
  Process.priority (<[n := (Process.execute (ps !!! n) t q).1]> ps !!! x)
  = Process.priority (ps !!! x).
Proof.
  destruct (decide (n < length ps)%nat) as [Hlt|Hge].
  - destruct (decide (x = n)) as [->|Hne].
    + rewrite list_lookup_total_insert_eq by done.
      by destruct (execute_static (ps !!! n) t q) as (_ & _ & _ & ->).
    + by rewrite list_lookup_total_insert_ne.
  - by rewrite list_insert_ge by lia.
Qed.

(** X15. A process never changes its tier.  At every pass of a run of the
    multilevel queue, whatever the number of tiers, a process that is queued
    sits in the tier whose index [get_queue_for_process] computes from its
    priority (read as Python reads a list index), and the number of tiers
    given at construction is still the same. *)
Theorem multilevel_static_tiers until_time s0 s qc0 qs0 :
  variant s0 = VMultilevel qc0 qs0 →
  reaches until_time (reset s0) s →
  ∃ qs, variant s = VMultilevel qc0 qs
        ∧ length qs = length qs0
        ∧ tier_algorithm <$> qs = tier_algorithm <$> qs0
        ∧ tier_assigned qc0 s qs.
Proof.
  intros Hv0 Hreach.
  apply (reaches_pass_ind until_time
           (λ s, ∃ qs, variant s = VMultilevel qc0 qs
                       ∧ length qs = length qs0
                       ∧ tier_algorithm <$> qs = tier_algorithm <$> qs0
                       ∧ tier_assigned qc0 s qs) (reset s0));
    [apply reset_inv| | |done].
  - exists ((λ t, mk_tier (tier_algorithm t) []) <$> qs0). simpl. rewrite Hv0.
    split; [done|]. split; [by rewrite length_fmap|]. split.
    + rewrite <- list_fmap_compose. by apply list_fmap_ext.
    + intros i t r Hi Hr. rewrite list_lookup_fmap in Hi.
      apply fmap_Some in Hi as (t0 & _ & ->). by apply elem_of_nil in Hr.
  - clear s Hreach. intros s s' Hinv (qs & Hv & Hlen & Halg & Hta) Hpass.
    destruct Hpass as [t _ _ _ ->|next s1 _ Hsel _ Hps Hvar _ _ _ _ _ _].
    + by exists qs.
    + destruct (get_next_process_assigned _ _ _ _ _ _ Hv Hta Hsel)
        as (qs' & Hv1 & Hta1).
      destruct Hinv as [_ Hq].
      destruct (get_next_process_sound _ _ _ _ Hq (ready_refs_NoDup s)
                  (ready_refs_alive s) Hsel) as (_ & _ & _ & _ & Halg1 & _).
      unfold algorithms in Halg1. rewrite Hv, Hv1 in Halg1.
      exists qs'. split; [congruence|].
      split; [by rewrite <- Hlen, <- (length_fmap tier_algorithm qs'), Halg1,
                length_fmap|].
      split; [congruence|].
      intros i t r Hi Hr. specialize (Hta1 i t r Hi Hr).
      unfold MultilevelQueueScheduler.get_queue_for_process, deref in *.
      by rewrite Hps, priority_insert_execute.
Qed.

(** After the first pass P3 waits in the first tier and P1 in the last. *)
Lemma multilevel_static_tiers_witness :
  ∃ s qs, run_steps 1 None (reset crowded_mlq) = Some s
          ∧ variant s = VMultilevel 3 qs
          ∧ tier_queue <$> qs = [[2%nat]; []; [0%nat]]
          ∧ tier_assigned 3 s qs.
Proof.
  eexists _, _. split; [vm_compute; reflexivity|].
  split; [vm_compute; reflexivity|]. split; [reflexivity|].
  match goal with
  | |- tier_assigned _ ?s _ =>
      assert (Hreach : reaches None (reset crowded_mlq) s)
        by (apply (run_steps_reaches 1); vm_compute; reflexivity)
  end.
  destruct (multilevel_static_tiers None crowded_mlq _ 3
              (MultilevelQueueScheduler.init_queues 3) eq_refl Hreach)
    as (qs & Hv & _ & _ & Hta).
  injection Hv as <-. exact Hta.
Defined.

(** ** A multilevel queue with too few tiers *)

Lemma run_loop_S n until_time s :
  run_loop (S n) until_time s
  = if loop_cond until_time s then
      match iteration s with
      | Continue s' => run_loop n until_time s'
      | Break s' => Returned s'
      | Raise => Raised
      end
    else Returned s.
Proof. done. Qed.

Lemma multilevel_bad_index qc p :
  qc ≤ -2 →
  py_index 2 (MultilevelQueueScheduler.get_queue_for_process qc p) = None.
Proof.
  intros Hqc. unfold py_index, MultilevelQueueScheduler.get_queue_for_process.
  destruct (0 <=? _) eqn:H1; [apply Z.leb_le in H1; lia|]. simpl.
  destruct (- Z.of_nat 2 <=? _) eqn:H2; [apply Z.leb_le in H2; lia|]. done.
Qed.

Lemma multilevel_bad_selection qc qs s ready :
  qc ≤ -2 → variant s = VMultilevel qc qs → length qs = 2%nat →
  tiers_queued qs = [] → current_process s = None → ready ≠ [] →
  get_next_process s ready = None.
Proof.
  intros Hqc Hv Hlen Hq Hcur Hready. unfold get_next_process. rewrite Hv.
  unfold MultilevelQueueScheduler.get_next_process,
    MultilevelQueueScheduler.updated_queues,
    MultilevelQueueScheduler.enqueue_arrivals.
  destruct ready as [|r ready]; [done|]. simpl.
  assert (Hin : MultilevelQueueScheduler.in_queue r qs = false).
  { destruct (MultilevelQueueScheduler.in_queue r qs) eqn:Hin; [|done].
    apply in_queue_spec in Hin. rewrite Hq in Hin. by apply elem_of_nil in Hin. }
  assert (Ha : MultilevelQueueScheduler.append_to_tier qc s r qs = None).
  { unfold MultilevelQueueScheduler.append_to_tier.
    by rewrite Hlen, multilevel_bad_index. }
  rewrite Hin, (bool_decide_eq_true_2 (current_process s ≠ Some r))
    by (by rewrite Hcur).
  simpl. rewrite Ha. by rewrite enqueue_arrivals_None.
Qed.

(** X16. A multilevel queue built with [queue_count] at most -2 has two
    tiers, and the index computed for every process is at most -3: the first
    process that becomes ready makes [get_next_process] raise (IndexError).
    A run on any workload that is not empty raises, at the first pass or
    right after the idle pass that waits for the first arrival. *)
Theorem multilevel_too_few_tiers_raises qc ps :
  qc ≤ -2 → ps ≠ [] →
  run 2 None (add_processes ps (MultilevelQueueScheduler.init qc)) = Raised.
Proof.
  intros Hqc Hps.
  set (s0 := add_processes ps (MultilevelQueueScheduler.init qc)).
  assert (Hsel : ∀ s, variant s = variant (reset s0) →
                      current_process s = None → ready_refs s ≠ [] →
                      iteration s = Raise).
  { intros s Hv Hcur Hready. unfold iteration.
    destruct (ready_refs s) as [|r ready] eqn:Hr; [done|].
    rewrite (multilevel_bad_selection qc
               ((λ t, mk_tier (tier_algorithm t) [])
                  <$> MultilevelQueueScheduler.init_queues qc) s (r :: ready));
      try done.
    - rewrite length_fmap. unfold MultilevelQueueScheduler.init_queues.
      rewrite length_app, length_app, length_replicate. simpl. lia.
    - apply tiers_queued_reset. }
  assert (Hcond : ∀ s, processes s = processes (reset s0) →
                       completed_processes s = [] →
                       loop_cond None s = true).
  { intros s Hp Hc. unfold loop_cond. rewrite Hp, Hc, andb_true_r.
    apply bool_decide_eq_true. simpl. rewrite length_fmap.
    destruct ps; simpl; [done|lia]. }
  unfold run. rewrite run_loop_S, Hcond by done.
  destruct (ready_refs (reset s0)) as [|r ready] eqn:Hr.
  - destruct (next_arrival (reset s0)) as [t|] eqn:Hn.
    + pose proof (next_arrival_gt _ _ Hn) as Hgt.
      assert (Hit : iteration (reset s0)
                    = Continue (set_current_time t
                                  (log_append (IDLE, current_time (reset s0), t)
                                     (reset s0)))).
      { unfold iteration. rewrite Hr, Hn. by rewrite bool_decide_eq_true_2. }
      rewrite Hit, run_loop_S, Hcond by done.
      rewrite Hsel; [done..|]. by eapply next_arrival_ready.
    + exfalso.
      assert (Hall : Forall (λ p, Process.state p = Process.TERMINATED)
                       (processes (reset s0))).
      { apply break_all_terminated. unfold iteration. by rewrite Hr, Hn. }
      simpl in Hall. destruct ps as [|p ps']; [done|].
      apply Forall_cons in Hall as [Hp _]. done.
  - rewrite Hsel; [done..|by rewrite Hr].
Qed.

Lemma multilevel_too_few_tiers_raises_witness :
  run 2 None (add_processes [Process.init 1 "P1" 3 5 0]
                (MultilevelQueueScheduler.init (-2))) = Raised
  ∧ ∃ s, run 5 None (add_processes [Process.init 1 "P1" 3 5 0]
                       (MultilevelQueueScheduler.init (-1))) = Returned s.
Proof.
  split.
  - apply (multilevel_too_few_tiers_raises (-2) [Process.init 1 "P1" 3 5 0]);
      [lia|done].
  - eexists. vm_compute. reflexivity.
Defined.

(** ** Running again, and running with a time budget *)

(** X17. Every policy but the multilevel queue can be run again: [reset],
    with the overriding method of Round Robin that empties the queue, brings
    a scheduler that has run back to where its run started, so that a second
    run of a valid configuration returns, and returns the very state the
    first run returned: same processes, same clock, same log. *)
Theorem rerun_reproduces until_time s0 :
  (∀ qc qs, variant s0 ≠ VMultilevel qc qs) → valid_config s0 →
  ∃ s1, run (S (passes_left (reset s0))) until_time s0 = Returned s1
        ∧ run (S (passes_left (reset s0))) until_time s1 = Returned s1.
Proof.
  intros Hv Hcfg.
  assert (Hok : tiers_ok (variant s0)).
  { destruct (variant s0) as [| | | | |qc qs] eqn:E; try done.
    by destruct (Hv qc qs). }
  destruct (run_returns until_time s0 Hcfg Hok) as [s1 Hrun].
  exists s1. split; [done|]. by eapply rerun_same_result.
Qed.

Lemma rerun_reproduces_witness :
  ∃ s1, run (S (passes_left (reset scenario_rr))) None scenario_rr = Returned s1
        ∧ run (S (passes_left (reset scenario_rr))) None s1 = Returned s1.
Proof.
  apply (rerun_reproduces None scenario_rr); [done|exact scenario_rr_valid].
Defined.

Lemma reaches_weaken u s s' :
  reaches (Some u) s s' → reaches None s s'.
Proof.
  induction 1 as [|s1 s2 _ IH Hc Hit]; [apply reaches_refl|].
  eapply reaches_step; [done| |done].
  unfold loop_cond in *. apply andb_true_iff in Hc as [-> _]. done.
Qed.

(** A run that has left [s] has gone through the pass that starts at [s]. *)
Lemma reaches_head until_time s s' :
  reaches until_time s s' →
  s' = s ∨ ∃ s1, loop_cond until_time s = true ∧ iteration s = Continue s1
                 ∧ reaches until_time s1 s'.
Proof.
  induction 1 as [|s1 s2 _ IH Hc Hit]; [by left|]. right.
  destruct IH as [->|(s3 & Hc3 & Hit3 & Hr)].
  - exists s2. split; [done|]. split; [done|apply reaches_refl].
  - exists s3. split; [done|]. split; [done|]. by eapply reaches_step.
Qed.

(** The states of a run come one after the other. *)
Lemma reaches_linear until_time a b c :
  reaches until_time a b → reaches until_time a c →
  reaches until_time b c ∨ reaches until_time c b.
Proof.
  intros Hab. revert c. induction Hab as [|b1 b2 _ IH Hc Hit]; intros c Hac;
    [by left|].
  destruct (IH c Hac) as [Hbc|Hcb].
  - destruct (reaches_head _ _ _ Hbc) as [->|(s1 & _ & Hit1 & Hr)].
    + right. eapply reaches_step; [apply reaches_refl|done|done].
    + left. congruence.
  - right. by eapply reaches_step.
Qed.

Lemma pass_grows s s' :
  pass s s' →
  execution_log s `prefix_of` execution_log s'
  ∧ completed_processes s `prefix_of` completed_processes s'.
Proof.
  intros [t _ _ _ ->|next s1 _ _ _ _ _ _ _ _ Hlog _ Hcomp].
  - split; [by eexists|done].
  - rewrite Hlog, Hcomp. split; [by eexists|].
    destruct (Process.is_terminated _); [by eexists|done].
Qed.

(** X18. A run with a time budget is the beginning of the run without: it
    stops at a state that the run without a budget passes through, so that
    its log and its list of completed processes are prefixes of those of the
    full run; the budget only decides where the loop is left, never what a
    pass does. *)
Theorem budget_run_is_prefix n m u s0 s s' :
  run n (Some u) s0 = Returned s →
  run m None s0 = Returned s' →
  reaches None (reset s0) s ∧ reaches None s s'
  ∧ execution_log s `prefix_of` execution_log s'
  ∧ completed_processes s `prefix_of` completed_processes s'.
Proof.
  intros Hs Hs'. unfold run in Hs, Hs'.
  apply run_loop_reaches in Hs as [Hr _].
  apply run_loop_reaches in Hs' as [Hr' Hend].
  apply reaches_weaken in Hr. split; [done|].
  assert (Hss : reaches None s s').
  { destruct (reaches_linear _ _ _ _ Hr Hr') as [|Hback]; [done|].
    destruct (reaches_head _ _ _ Hback) as [->|(s1 & Hc & Hit & _)];
      [apply reaches_refl|].
    destruct Hend as [Hc'|Hb]; congruence. }
  split; [done|].
  apply (reaches_pass_ind None
           (λ x, execution_log s `prefix_of` execution_log x
                 ∧ completed_processes s `prefix_of` completed_processes x) s);
    [by eapply reaches_inv|done| |done].
  intros s1 s2 _ [IH1 IH2] [H1 H2]%pass_grows.
  split; by etrans.
Qed.

Lemma budget_run_is_prefix_witness :
  ∃ s s', run 20 (Some 5) scenario_rr = Returned s
          ∧ run 20 None scenario_rr = Returned s'
          ∧ execution_log s = [(Pid 1, 0, 2); (CS, 2, 3); (Pid 2, 3, 5)]
          ∧ current_time s' = 12
          ∧ execution_log s `prefix_of` execution_log s'.
Proof.
  eexists _, _. split; [vm_compute; reflexivity|].
  split; [vm_compute; reflexivity|].
  split; [reflexivity|]. split; [reflexivity|].
  match goal with
  | |- execution_log ?s `prefix_of` execution_log ?s' =>
      assert (Hs : run 20 (Some 5) scenario_rr = Returned s)
        by (vm_compute; reflexivity);
      assert (Hs' : run 20 None scenario_rr = Returned s')
        by (vm_compute; reflexivity);
      exact (proj1 (proj2 (proj2 (budget_run_is_prefix 20 20 5 scenario_rr
                                    s s' Hs Hs'))))
  end.
Defined.

(** ** The averages of the scheduler *)

(** X19. At every pass of a run of a valid configuration no completed
    process lacks a finish time or a response time, and the count the
    averages divide by is not 0 when it is used: the three averages of the
    scheduler raise neither TypeError nor ZeroDivisionError.  The average
    waiting time never raises and is 0; the other two raise only when the
    quotient is too large for a float, which cannot happen when no arrival
    time is negative and the clock is below the float range.  When they
    return, the average response time is not negative, and the average
    turnaround time is 0 when nothing has completed and positive otherwise. *)
Theorem scheduler_averages_defined until_time s0 s :
  valid_config s0 →
  reaches until_time (reset s0) s →
  ∃ w ts rs,
    get_average_waiting_time s = Some w ∧ (w == 0)%Q
    ∧ mapM Process.get_turnaround_time (completed_objects s) = Some ts
    ∧ mapM Process.get_response_time (completed_objects s) = Some rs
    ∧ get_average_turnaround_time s
      = (if decide (completed_processes s = []) then Some 0%Q
         else py_truediv (py_sum ts) (Z.of_nat (length (completed_processes s))))
    ∧ get_average_response_time s
      = (if decide (completed_processes s = []) then Some 0%Q
         else py_truediv (py_sum rs) (Z.of_nat (length (completed_processes s))))
    ∧ (get_average_turnaround_time s = None →
       float_overflow (py_sum ts) (Z.of_nat (length (completed_processes s)))
       = true)
    ∧ (get_average_response_time s = None →
       float_overflow (py_sum rs) (Z.of_nat (length (completed_processes s)))
       = true)
    ∧ (∀ t, get_average_turnaround_time s = Some t →
            if decide (completed_processes s = []) then t = 0%Q else (0 < t)%Q)
    ∧ (∀ r, get_average_response_time s = Some r → (0 <= r)%Q)
    ∧ ((∀ p, p ∈ processes s0 → 0 ≤ Process.arrival_time p) →
       current_time s < float_limit →
       is_Some (get_average_turnaround_time s)
       ∧ is_Some (get_average_response_time s)).
Proof.
  intros Hcfg Hreach.
  destruct (average_waiting_zero _ _ _ Hcfg Hreach) as (w & Haw & Hw0).
  destruct (completed_lists _ _ _ Hcfg Hreach)
    as (_ & ts & rs & Hts & Hrs & Htl & Hrl & Htp & Hrp & Hbound).
  assert (Hcl : length (completed_objects s) = length (completed_processes s)).
  { unfold completed_objects. by rewrite length_fmap. }
  rewrite Hcl in Htl, Hrl.
  assert (Hat : get_average_turnaround_time s
                = (if decide (completed_processes s = []) then Some 0%Q
                   else py_truediv (py_sum ts)
                          (Z.of_nat (length (completed_processes s))))).
  { exact (average_unfold _ _ _ Hts). }
  assert (Har : get_average_response_time s
                = (if decide (completed_processes s = []) then Some 0%Q
                   else py_truediv (py_sum rs)
                          (Z.of_nat (length (completed_processes s))))).
  { exact (average_unfold _ _ _ Hrs). }
  assert (Hnn : ∀ l, Forall (λ v, 0 ≤ v) l → 0 ≤ py_sum l).
  { intros l Hl. pose proof (py_sum_lower l 0 Hl). lia. }
  assert (Hpp : ∀ l, l ≠ [] → Forall (λ v, 0 < v) l → 0 < py_sum l).
  { intros l Hl Hall.
    assert (Hone : Forall (λ v, 1 ≤ v) l)
      by (eapply Forall_impl; [done|]; simpl; intros; lia).
    pose proof (py_sum_lower l 1 Hone). destruct l; simpl in *; [done|lia]. }
  exists w, ts, rs. rewrite Hat, Har.
  split; [done|]. split; [done|]. split; [done|]. split; [done|].
  split; [done|]. split; [done|].
  destruct (decide (completed_processes s = [])) as [Hnil|Hnil].
  { split; [done|]. split; [done|]. split; [by intros t [= <-]|].
    split; [by intros r [= <-]|]. intros _ _. split; eauto. }
  assert (Hn : 0 < Z.of_nat (length (completed_processes s))).
  { destruct (completed_processes s); simpl; [done|lia]. }
  assert (Hnt : ts ≠ []).
  { intros ->. simpl in Htl. lia. }
  specialize (Hpp ts Hnt Htp). specialize (Hnn rs Hrp).
  assert (Hlt : Z.of_nat (length ts) = Z.of_nat (length (completed_processes s)))
    by lia.
  assert (Hlr : Z.of_nat (length rs) = Z.of_nat (length (completed_processes s)))
    by lia.
  revert Hn Hlt Hlr. generalize (Z.of_nat (length (completed_processes s))).
  intros n Hn Hlt Hlr.
  split; [intros [?|?]%py_truediv_None; [lia|done]|].
  split; [intros [?|?]%py_truediv_None; [lia|done]|].
  split.
  { intros t (-> & _)%py_truediv_value. destruct n as [|n|n]; try lia.
    unfold Qlt, Qdiv, Qmult, Qinv, inject_Z. simpl. nia. }
  split.
  { intros r (-> & _)%py_truediv_value. destruct n as [|n|n]; try lia.
    unfold Qle, Qdiv, Qmult, Qinv, inject_Z. simpl. nia. }
  intros Harr Hclock. destruct (Hbound Harr) as [Htb Hrb].
  pose proof (py_sum_bounds _ _ _ Htb) as Hts_sum.
  pose proof (py_sum_bounds _ _ _ Hrb) as Hrs_sum.
  rewrite Hlt in Hts_sum. rewrite Hlr in Hrs_sum.
  rewrite (py_truediv_Some (py_sum ts)), (py_truediv_Some (py_sum rs));
    [by eauto|lia|apply (float_overflow_false _ _ (current_time s)); lia
     |lia|apply (float_overflow_false _ _ (current_time s)); lia].
Qed.

(** The Round Robin scenario after three passes: P3 has completed, with a
    turnaround of 5 and a response time of 4. *)
Lemma scheduler_averages_defined_witness :
  ∃ s, run_steps 3 None (reset scenario_rr) = Some s
       ∧ completed_processes s = [2%nat]
       ∧ ∃ w ts rs, get_average_waiting_time s = Some w
                    ∧ mapM Process.get_turnaround_time (completed_objects s) = Some ts
                    ∧ mapM Process.get_response_time (completed_objects s) = Some rs
                    ∧ is_Some (get_average_turnaround_time s).
Proof.
  eexists. split; [vm_compute; reflexivity|].
  match goal with
  | |- completed_processes ?s = _ ∧ _ =>
      assert (Hreach : reaches None (reset scenario_rr) s)
        by (apply (run_steps_reaches 3); vm_compute; reflexivity)
  end.
  split; [reflexivity|].
  destruct (scheduler_averages_defined None scenario_rr _ scenario_rr_valid Hreach)
    as (w & ts & rs & Hw & _ & Hts & Hrs & _ & _ & _ & _ & _ & _ & Hsome).
  exists w, ts, rs. split; [exact Hw|]. split; [exact Hts|]. split; [exact Hrs|].
  apply Hsome.
  - apply (Forall_forall (λ p, 0 ≤ Process.arrival_time p)).
    repeat (constructor; [vm_compute; discriminate|]). constructor.
  - apply Z.ltb_lt. vm_compute. reflexivity.
Defined.

(** ** Idle periods in the log *)

Lemma foldl_min_le a (l : list Z) x : x ∈ a :: l → foldl Z.min a l ≤ x.
Proof.
  revert a x. induction l as [|y l IH]; intros a x; simpl.
  - intros ->%list_elem_of_singleton. lia.
  - intros Hx.
    assert (Ha : foldl Z.min (Z.min a y) l ≤ Z.min a y) by (apply IH; by left).
    apply elem_of_cons in Hx as [->|[->|Hx]%elem_of_cons]; [lia|lia|].
    apply IH. by right.
Qed.

(** The idle pass waits for the earliest pending arrival. *)
Lemma next_arrival_min s t p :
  next_arrival s = Some t → p ∈ processes s →
  Process.state p ≠ Process.TERMINATED →
  current_time s < Process.arrival_time p → t ≤ Process.arrival_time p.
Proof.
  unfold next_arrival. intros Hn Hp Hst Harr.
  assert (Hin : p ∈ filter (λ p, Process.is_terminated p = false
                                 ∧ current_time s < Process.arrival_time p)
                      (processes s)).
  { apply list_elem_of_filter. split; [|done]. split; [|done].
    unfold Process.is_terminated. by apply bool_decide_eq_false. }
  destruct (filter _ (processes s)) as [|p0 ps]; [done|]. injection Hn as <-.
  apply foldl_min_le.
  change (Process.arrival_time p0 :: (Process.arrival_time <$> ps))
    with (Process.arrival_time <$> (p0 :: ps)).
  by apply list_elem_of_fmap_2.
Qed.

(** Whoever is selected is ready. *)
Lemma selection_ready until_time s0 s next s1 :
  valid_config s0 → reaches until_time (reset s0) s →
  get_next_process s (ready_refs s) = Some (Some next, s1) →
  next ∈ ready_refs s.
Proof.
  intros Hcfg Hreach Hsel.
  destruct (reaches_inv _ _ _ Hreach) as [_ Hq].
  destruct (get_next_process_origin _ _ _ _ Hq (ready_refs_NoDup s) Hsel)
    as [[Hin|Hin] _]; [done|].
  destruct (timing_inv _ _ _ Hcfg Hreach) as [_ Harr].
  destruct Hq as [_ Hal]. rewrite Forall_forall in Hal.
  destruct (alive_lookup _ _ (Hal _ Hin)) as [Hl Hst].
  apply ready_refs_elem. split; [by eapply lookup_lt_Some|].
  split; [by apply Harr|done].
Qed.

Lemma app_snoc_split {A} (l1 l2 log : list A) x e :
  l1 ++ x :: l2 = log ++ [e] →
  (l1 = log ∧ x = e ∧ l2 = [])
  ∨ ∃ l2', log = l1 ++ x :: l2' ∧ l2 = l2' ++ [e].
Proof.
  destruct l2 as [|y l2 _] using rev_ind.
  - intros [-> ->]%app_inj_tail. by left.
  - rewrite app_comm_cons, app_assoc. intros [<- ->]%app_inj_tail.
    right. by exists l2.
Qed.

Lemma app_old_split {A} (l1 l2 log new : list A) x :
  x ∉ new → l1 ++ x :: l2 = log ++ new →
  ∃ l2', log = l1 ++ x :: l2' ∧ l2 = l2' ++ new.
Proof.
  revert l2. induction new as [|e new IH] using rev_ind; intros l2 Hx Heq.
  - rewrite app_nil_r in Heq. exists l2. by rewrite app_nil_r.
  - rewrite app_assoc in Heq.
    apply app_snoc_split in Heq as [(_ & -> & _)|(l2' & Heq & ->)].
    + destruct Hx. apply elem_of_app. right. by left.
    + destruct (IH l2') as (l2'' & -> & ->); [|done|].
      * intros Hin. apply Hx, elem_of_app. by left.
      * exists l2''. by rewrite app_assoc.
Qed.

(** X20. Idle periods in the log of a run of a valid configuration.  Every
    IDLE entry has positive length and ends at the arrival time of a process.
    It is never followed by a context switch or by another IDLE entry: when
    it is the last entry, the clock stands at its end, the CPU is free and
    the ready processes are those that arrive at that very time; otherwise
    the next entry starts where it ends and belongs to a process that arrived
    exactly then. *)
Theorem idle_entries until_time s0 s (l1 l2 : list log_entry) a b :
  valid_config s0 →
  reaches until_time (reset s0) s →
  execution_log s = l1 ++ (IDLE, a, b) :: l2 →
  a < b
  ∧ match l2 with
    | [] =>
        current_time s = b ∧ current_process s = None ∧ ready_refs s ≠ []
        ∧ ∀ r : nat, r ∈ ready_refs s → Process.arrival_time (deref s r) = b
    | e :: _ =>
        ∃ pid c (r : nat) p,
          e = (Pid pid, b, c) ∧ processes s !! r = Some p
          ∧ Process.pid p = pid ∧ Process.arrival_time p = b
    end.
Proof.
  intros Hcfg Hreach. revert l1 l2 a b.
  apply (reaches_run_ind until_time
           (λ s, ∀ (l1 l2 : list log_entry) a b,
                execution_log s = l1 ++ (IDLE, a, b) :: l2 →
                a < b
                ∧ match l2 with
                  | [] =>
                      current_time s = b ∧ current_process s = None
                      ∧ ready_refs s ≠ []
                      ∧ ∀ r : nat, r ∈ ready_refs s →
                                   Process.arrival_time (deref s r) = b
                  | e :: _ =>
                      ∃ pid c (r : nat) p,
                        e = (Pid pid, b, c) ∧ processes s !! r = Some p
                        ∧ Process.pid p = pid ∧ Process.arrival_time p = b
                  end) s0); [done| | |done].
  - intros l1 l2 a b Hl. simpl in Hl. by destruct l1.
  - clear s Hreach. intros s s' Hreach Hinv Hcfg1 IH Hpass l1 l2 a b Hl.
    destruct Hpass as [t Hready Hn Ht ->
                      |next s1 _ Hsel Hnext Hps _ _ _ _ Hlog _ _].
    + change (execution_log (set_current_time t
                (log_append (IDLE, current_time s, t) s)))
        with (execution_log s ++ [(IDLE, current_time s, t)]) in Hl.
      symmetry in Hl.
      apply app_snoc_split in Hl as [(-> & [= -> ->] & ->)|(l2' & Hl & ->)].
      * split; [done|]. split; [done|]. split.
        { simpl. destruct (current_process s) as [c|] eqn:Hc; [|done].
          pose proof (current_ready_inv _ _ _ _ Hcfg Hreach Hc) as Hin.
          rewrite Hready in Hin. by apply elem_of_nil in Hin. }
        split; [by eapply next_arrival_ready|].
        intros r Hr. apply ready_refs_elem in Hr as (Hlen & Harr & Hst).
        simpl in Hlen, Harr, Hst. unfold deref in *. simpl in *.
        assert (Hlate : current_time s < Process.arrival_time (processes s !!! r)).
        { destruct (decide (Process.arrival_time (processes s !!! r)
                            ≤ current_time s)) as [Hle|]; [|lia].
          assert (Hin : r ∈ ready_refs s) by (by apply ready_refs_elem).
          rewrite Hready in Hin. by apply elem_of_nil in Hin. }
        assert (t ≤ Process.arrival_time (processes s !!! r)); [|lia].
        eapply next_arrival_min; [done| |done|done].
        apply list_elem_of_lookup_total_2. done.
      * destruct (IH _ _ _ _ Hl) as [Hab Hm]. split; [done|].
        destruct l2' as [|e rest]; [by destruct Hm as (_ & _ & ? & _)|].
        exact Hm.
    + rewrite Hlog in Hl. symmetry in Hl.
      apply app_old_split in Hl as (l2' & Hl & ->).
      2:{ intros [Hin|[[=]|[]%elem_of_nil]%elem_of_cons]%elem_of_app.
          destruct (switch_charged s next); [|by apply elem_of_nil in Hin].
          by apply list_elem_of_singleton in Hin. }
      destruct (IH _ _ _ _ Hl) as [Hab Hm]. split; [done|].
      destruct (alive_lookup _ _ Hnext) as [Hlk _].
      destruct (execute_static (deref s next) (dispatch_time s next) (time_slice s1))
        as (Hpid & Harr & _).
      destruct l2' as [|e rest].
      * destruct Hm as (Hclock & Hcur & _ & Hfresh).
        assert (Hsw : switch_charged s next = false).
        { unfold switch_charged. rewrite Hcur.
          rewrite (bool_decide_eq_false_2 (None ≠ None)) by (by intros H).
          by rewrite andb_false_r. }
        unfold dispatch_time. rewrite Hsw, Hclock. simpl.
        eexists _, _, next, _. split; [done|].
        split; [rewrite Hps; apply list_lookup_insert_eq;
                by eapply lookup_lt_Some|].
        split; [exact Hpid|].
        rewrite Harr. apply Hfresh.
        exact (selection_ready _ _ _ _ _ Hcfg Hreach Hsel).
      * destruct Hm as (pid & c & r & p & -> & Hp & Hpp & Hpa). simpl.
        destruct (decide (r = next)) as [->|Hne].
        -- eexists pid, c, next, _. split; [done|].
           split; [rewrite Hps; apply list_lookup_insert_eq;
                   by eapply lookup_lt_Some|].
           unfold deref in *. rewrite (list_lookup_total_correct _ _ _ Hp) in *.
           by rewrite Hpid, Harr.
        -- exists pid, c, r, p. split; [done|].
           split; [by rewrite Hps, list_lookup_insert_ne|done].
Qed.

Lemma scenario_gap_valid : valid_config scenario_gap.
Proof. split; [|split]; [repeat constructor|reflexivity|constructor]. Qed.

(** Idle until 2, P1 until 3, idle again until P2 arrives at 5. *)
Lemma idle_entries_witness :
  ∃ s, run_steps 3 None (reset scenario_gap) = Some s
       ∧ execution_log s = [(IDLE, 0, 2); (Pid 1, 2, 3); (IDLE, 3, 5)]
       ∧ current_time s = 5 ∧ current_process s = None
       ∧ ∀ r : nat, r ∈ ready_refs s → Process.arrival_time (deref s r) = 5.
Proof.
  eexists. split; [vm_compute; reflexivity|].
  match goal with
  | |- execution_log ?s = _ ∧ _ =>
      assert (Hreach : reaches None (reset scenario_gap) s)
        by (apply (run_steps_reaches 3); vm_compute; reflexivity)
  end.
  split; [reflexivity|].
  destruct (idle_entries None scenario_gap _ [(IDLE, 0, 2); (Pid 1, 2, 3)] [] 3 5
              scenario_gap_valid Hreach eq_refl)
    as (_ & Hclock & Hcur & _ & Hfresh).
  split; [exact Hclock|]. split; [exact Hcur|exact Hfresh].
Defined.

(** ** The length of a turn on the CPU *)

(** X21. No turn on the CPU is longer than the slice of its policy.  In a
    run of a valid configuration every process entry of the log has a
    positive length that is at most the time slice the scheduler was
    configured with or, under the multilevel queue, at most the quantum of
    one of its Round Robin tiers; the scheduler's time slice is one of these
    values at every pass.  Under every policy but the multilevel queue the
    time slice never changes. *)
Theorem turn_within_slice until_time s0 s pid a b :
  valid_config s0 →
  reaches until_time (reset s0) s →
  (Pid pid, a, b) ∈ execution_log s →
  (time_slice s = time_slice s0 ∨ RR (time_slice s) ∈ algorithms s0)
  ∧ ∃ q, (q = time_slice s0 ∨ RR q ∈ algorithms s0) ∧ 0 < b - a ≤ q.
Proof.
  intros Hcfg Hreach Hin.
  assert (H : (time_slice s = time_slice s0 ∨ RR (time_slice s) ∈ algorithms s0)
              ∧ algorithms s = algorithms s0
              ∧ ∀ pid a b, (Pid pid, a, b) ∈ execution_log s →
                  ∃ q, (q = time_slice s0 ∨ RR q ∈ algorithms s0)
                       ∧ 0 < b - a ≤ q).
  { clear Hin.
    apply (reaches_run_ind until_time
             (λ s, (time_slice s = time_slice s0
                    ∨ RR (time_slice s) ∈ algorithms s0)
                   ∧ algorithms s = algorithms s0
                   ∧ ∀ pid a b, (Pid pid, a, b) ∈ execution_log s →
                       ∃ q, (q = time_slice s0 ∨ RR q ∈ algorithms s0)
                            ∧ 0 < b - a ≤ q) s0); [done| | |done].
    - split; [by left|]. split; [apply algorithms_reset|].
      intros ? ? ? Hin. by apply elem_of_nil in Hin.
    - clear. intros s s' _ Hinv Hcfg1 (Hts & Halg & IH) Hpass.
      destruct Hpass as [t _ _ _ ->
                        |next s1 _ Hsel Hnext _ Hvar Hslice _ _ Hlog _ _].
      + split; [done|]. split; [done|]. intros pid a b.
        simpl. intros [Hin|[[=]|[]%elem_of_nil]%elem_of_cons]%elem_of_app.
        by apply (IH pid).
      + destruct (selection_slice_positive _ _ _ Hinv Hcfg1 Hsel) as [Hpos Halg1].
        destruct Hinv as [Hok Hq].
        destruct (get_next_process_sound _ _ _ _ Hq (ready_refs_NoDup s)
                    (ready_refs_alive s) Hsel) as (_ & _ & _ & _ & _ & Hsl).
        pose proof (alive_remaining _ _ (conj Hok Hq) Hcfg1 Hnext) as Hrem.
        assert (Hts1 : time_slice s1 = time_slice s0
                       ∨ RR (time_slice s1) ∈ algorithms s0).
        { destruct Hsl as [->|Hrr]; [done|]. right. by rewrite <- Halg. }
        split; [by rewrite Hslice|]. split.
        { unfold algorithms in *. rewrite Hvar. congruence. }
        intros pid a b. rewrite Hlog.
        intros [Hin|[Hin|Hin]%elem_of_app]%elem_of_app.
        * by apply (IH pid).
        * destruct (switch_charged s next); [|by apply elem_of_nil in Hin].
          by apply list_elem_of_singleton in Hin.
        * apply list_elem_of_singleton in Hin. injection Hin as _ -> ->.
          exists (time_slice s1). split; [done|]. lia. }
  destruct H as (Hts & _ & Hlog). split; [done|]. by apply (Hlog pid).
Qed.

Lemma turn_within_slice_witness :
  ∃ s, run_steps 4 None (reset scenario_rr) = Some s
       ∧ (Pid 1, 7, 9) ∈ execution_log s
       ∧ time_slice scenario_rr = 2
       ∧ algorithms scenario_rr = []
       ∧ ∃ q, (q = time_slice scenario_rr ∨ RR q ∈ algorithms scenario_rr)
              ∧ 0 < 9 - 7 ≤ q.
Proof.
  eexists. split; [vm_compute; reflexivity|].
  match goal with
  | |- _ ∈ execution_log ?s ∧ _ =>
      assert (Hreach : reaches None (reset scenario_rr) s)
        by (apply (run_steps_reaches 4); vm_compute; reflexivity);
      assert (Hin : (Pid 1, 7, 9) ∈ execution_log s)
        by (vm_compute; do 5 right; left)
  end.
  split; [exact Hin|]. split; [reflexivity|]. split; [reflexivity|].
  exact (proj2 (turn_within_slice None scenario_rr _ 1 7 9 scenario_rr_valid
                  Hreach Hin)).
Defined.
